(** * Circuit Construction Kit: model and view code, and the circuit solver

    A shallow embedding of the parts of phetsims/circuit-construction-kit
    that carry behaviour worth stating: the AC voltage source
    (ACVoltage.step and its phase-matching listener), the per-frame guard of
    CCKCScreenView.stepOnce, the brightness listener of CCKLightBulbNode
    together with CustomLightBulbNode.update, the voltmeter read-out of
    CircuitLayerNode (getVoltageConnection, getVoltage) and the length check
    of FixedLengthCircuitElement; then ChargeNode (updateTransform,
    updateVisible), the ammeter read-out (getCurrent), the dragging of
    vertices (getBestDropTarget, canDragVertex, setVerticesDragging,
    translateVertexGroup), ZoomAnimation.step, the path of the charges
    through a LightBulb, the resistor types and CCKCUtils.setInSceneGraph.

    JavaScript numbers are read as real numbers: [Math.sin], [Math.PI],
    [Math.pow], [Math.abs], [Math.min] and [Math.max] are the functions of
    the Standard Library's reals; rounding, NaN and the infinities are
    outside the model.  Properties (axon) are record fields; a listener is
    a function applied where the source's [set] would notify it.

    The circuit solver is described by the specification only; it is
    modelled separately, over exact rationals, further down. *)

From Stdlib Require Import Reals Lra Lia List Bool Arith.
From Stdlib Require Import QArith Qcanon Qcabs Field.
Import ListNotations.

(** ** DOT utilities used by the view code *)

Module Utils.
Local Open Scope R_scope.

(** Utils.clamp( value, min, max ): two comparisons, in this order. *)
Definition clamp (value min max : R) : R :=
  if Rlt_dec value min then min
  else if Rlt_dec max value then max
  else value.

(** Utils.linear( a1, a2, b1, b2, a3 ): the line through (a1,b1), (a2,b2)
    evaluated at a3. *)
Definition linear (a1 a2 b1 b2 a3 : R) : R :=
  (b2 - b1) / (a2 - a1) * (a3 - a1) + b1.

End Utils.

(** ** Vector2 (DOT), as far as the probes need it *)

Module Vector2.
Local Open Scope R_scope.

Record t : Type := mk { x : R; y : R }.

Definition minus (a b : t) : t := mk (x a - x b) (y a - y b).
Definition dot (a b : t) : R := x a * x b + y a * y b.
Definition magnitudeSquared (a : t) : R := dot a a.
Definition magnitude (a : t) : R := sqrt (magnitudeSquared a).
Definition distance (a b : t) : R := magnitude (minus a b).

Definition ZERO : t := mk 0 0.
Definition plus (a b : t) : t := mk (x a + x b) (y a + y b).
Definition blend (a b : t) (ratio : R) : t :=
  mk (x a + (x b - x a) * ratio) (y a + (y b - y a) * ratio).
Definition createPolar (magnitude angle : R) : t :=
  mk (magnitude * cos angle) (magnitude * sin angle).

End Vector2.

(** ** ACVoltage, 2015-2019 variant (js/model/ACVoltage.js, define-style)

    The element keeps a private [phase] in radians and a private [time],
    the elapsed time of the last step.  A listener linked to
    [frequencyProperty] rewrites [phase] on every change of frequency. *)

Module ACVoltageLegacy.
Local Open Scope R_scope.

Record ACVoltage : Type := mkACVoltage {
  voltageProperty : R;
  maximumVoltageProperty : R;
  frequencyProperty : R;
  phase : R;
  time : R
}.

(** The listener of [frequencyProperty.link]: ( frequency, oldFrequency ). *)
Definition frequencyListener (frequency oldFrequency : R) (this : ACVoltage)
  : ACVoltage :=
  let oldArgument := 2 * PI * oldFrequency * time this + phase this in
  mkACVoltage (voltageProperty this) (maximumVoltageProperty this)
              (frequencyProperty this)
              (oldArgument - 2 * PI * frequency * time this)
              (time this).

(** The constructor: voltage 0, the given maximum, frequency 0.5, phase 0,
    time 0; [link] calls the listener once with the current frequency and
    [null] as the old one, which arithmetic reads as 0. *)
Definition new (voltage : R) : ACVoltage :=
  frequencyListener (1/2) 0 (mkACVoltage 0 voltage (1/2) 0 0).

(** frequencyProperty.set( frequency ): a Property stores the value and
    notifies its listeners only when the value differs from the old one. *)
Definition setFrequency (frequency : R) (this : ACVoltage) : ACVoltage :=
  if Req_dec_T frequency (frequencyProperty this) then this
  else
    frequencyListener frequency (frequencyProperty this)
      (mkACVoltage (voltageProperty this) (maximumVoltageProperty this)
                   frequency (phase this) (time this)).

(** The sine argument at the element's own time. *)
Definition argument (this : ACVoltage) : R :=
  2 * PI * frequencyProperty this * time this + phase this.

(** step( time, dt ) *)
Definition step (time' dt : R) (this : ACVoltage) : ACVoltage :=
  mkACVoltage
    (maximumVoltageProperty this
       * sin (2 * PI * frequencyProperty this * time' + phase this))
    (maximumVoltageProperty this)
    (frequencyProperty this)
    (phase this)
    time'.

End ACVoltageLegacy.

(** ** ACVoltage, 2015-2021 variant (extends VoltageSource)

    The phase is a Property in degrees.  [VoltageSource.step] belongs to
    the superclass, which is not embedded; it is a parameter [super_step]
    of the section, any function on the element's state. *)

Module ACVoltage.
Local Open Scope R_scope.

Record ACVoltage : Type := mkACVoltage {
  voltageProperty : R;
  maximumVoltageProperty : R;
  frequencyProperty : R;
  phaseProperty : R;
  time : R
}.

Section Step.
Variable super_step : R -> R -> ACVoltage -> ACVoltage.

(** step( time, dt, circuit ) *)
Definition step (time' dt : R) (this : ACVoltage) : ACVoltage :=
  let this1 := super_step time' dt this in
  mkACVoltage
    (maximumVoltageProperty this1
       * sin (2 * PI * frequencyProperty this1 * time'
              + phaseProperty this1 * PI / 180))
    (maximumVoltageProperty this1)
    (frequencyProperty this1)
    (phaseProperty this1)
    time'.

End Step.
End ACVoltage.

(** ** CCKCScreenView.stepOnce

    [CCKCConstants.MAX_DT] and the [step] of the chart nodes
    (VoltageChartNode, CurrentChartNode) are defined in modules that are
    not embedded: they are parameters.  [stepOnce] returns the view after the call and
    the list of [chartNode.step( time, dt )] calls it made, in order. *)

Module CCKCScreenView.
Local Open Scope R_scope.

Section StepOnce.
Variable MAX_DT : R.
Variable ChartNode : Type.
Variable chartNode_step : R -> R -> ChartNode -> ChartNode.

Record ScreenView : Type := mkScreenView {
  chartNodes : list ChartNode;
  (* this.model.circuit.timeProperty.value *)
  circuit_time : R
}.

(** One entry per call [chartNode.step( time, dt )]: position of the chart
    node in [this.chartNodes] and the two arguments. *)
Definition StepCall : Type := (nat * R * R)%type.

Definition stepOnce (dt : R) (this : ScreenView) : ScreenView * list StepCall :=
  if Rle_dec MAX_DT dt then (this, [])
  else
    (mkScreenView
       (map (chartNode_step (circuit_time this) dt) (chartNodes this))
       (circuit_time this),
     map (fun i => (i, circuit_time this, dt))
         (seq 0 (length (chartNodes this)))).

End StepOnce.
End CCKCScreenView.

(** ** CCKLightBulbNode: the brightness listener

    Both variants compute the power from current and voltage difference,
    bound it, and map it to a brightness stored in [brightnessProperty].
    The argument [running] is received and not used. *)

Module CCKLightBulbNode.
Local Open Scope R_scope.

(** Heuristics are from Java *)
Definition maxPower : R := 60.
Definition minPower : R := 1 / 1000000.

(** The bounded power: Math.abs, then Math.min with maxPower * 15, then
    Math.max with minPower. *)
Definition power (current voltageDifference : R) : R :=
  Rmax (Rmin (Rabs (current * voltageDifference)) (maxPower * 15)) minPower.

(** Math.pow( power / maxPower, 0.354 ) * 0.4 *)
Definition rawBrightness (p : R) : R :=
  Rpower (p / maxPower) (354 / 1000) * (4 / 10).

(** js/common/view/CCKLightBulbNode.js (2016) *)
Definition updateBrightnessCommon (current : R) (running : bool)
  (voltageDifference : R) : R :=
  let p := power current voltageDifference in
  let brightness := rawBrightness p in
  Utils.clamp brightness 0 1.

(** js/view/CCKLightBulbNode.js (2015-2017): brightness forced to 0 when the
    power is at the lower bound. *)
Definition updateBrightness (current : R) (running : bool)
  (voltageDifference : R) : R :=
  let p := power current voltageDifference in
  let brightness := rawBrightness p in
  let brightness := if Rle_dec p minPower then 0 else brightness in
  Utils.clamp brightness 0 1.

End CCKLightBulbNode.

(** ** CustomLightBulbNode.update

    Assertions are taken as enabled: [None] is the failed assertion. *)

Module CustomLightBulbNode.
Local Open Scope R_scope.

Record CustomLightBulbNode : Type := mkNode {
  visible : bool;
  baseOnly : bool;
  brightnessProperty : R;
  backNode_visible : bool;
  backNode_imageOpacity : R;
  (* value handed to raysNode.setBrightness *)
  raysNode_brightness : R
}.

Definition update (this : CustomLightBulbNode) : option CustomLightBulbNode :=
  if visible this && negb (baseOnly this) then
    let brightness := brightnessProperty this in
    if Rle_dec 0 brightness then
      if Rle_dec brightness 1 then
        let backVisible := if Rlt_dec 0 brightness then true else false in
        Some (mkNode (visible this) (baseOnly this) brightness backVisible
                (if backVisible
                 then Utils.clamp (Utils.linear 0 (1/2) 0 1 brightness) 0 1
                 else backNode_imageOpacity this)
                brightness)
      else None
    else None
  else Some this.

End CustomLightBulbNode.

(** ** Vertices as the view reads them *)

Module Vertex.

Record Vertex : Type := mkVertex {
  index : nat;
  positionProperty : Vector2.t;
  voltageProperty : R;
  insideTrueBlackBoxProperty : bool
}.

End Vertex.

(** ** SolderNode *)

Module SolderNode.
Local Open Scope R_scope.

(** for hit testing with probes *)
Definition SOLDER_RADIUS : R := 112 / 10.

Record SolderNode : Type := mkSolderNode { vertex : Vertex.Vertex }.

End SolderNode.

(** ** CircuitLayerNode: what the voltmeter probes read

    The circuit's [areVerticesElectricallyConnected], the model's
    [revealingProperty] and the hit tests of the element nodes
    ([containsSensorPoint], and for a switch node the two sides) come from
    modules that are not embedded: they are fields of the layer and of the
    nodes.  [solderNodes] is the list [_.values( this.solderNodes )];
    [circuitElements] pairs each element of
    [circuit.circuitElements.getArray()] with the node
    [getCircuitElementNode] finds for it, if any. *)

Module CircuitLayerNode.
Local Open Scope R_scope.
Import Vertex.

Record VoltageConnection : Type := mkVoltageConnection {
  vertex : Vertex;
  voltage : R
}.

Record CircuitElement : Type := mkCircuitElement {
  startVertexProperty : Vertex;
  endVertexProperty : Vertex;
  isMetallic : bool;
  (* circuitElement instanceof Switch *)
  isSwitch : bool;
  element_insideTrueBlackBoxProperty : bool
}.

(** The position Properties of an element follow its vertices. *)
Definition startPositionProperty (e : CircuitElement) : Vector2.t :=
  positionProperty (startVertexProperty e).
Definition endPositionProperty (e : CircuitElement) : Vector2.t :=
  positionProperty (endVertexProperty e).

Record CircuitElementNode : Type := mkCircuitElementNode {
  containsSensorPoint : Vector2.t -> bool;
  startSideContainsSensorPoint : Vector2.t -> bool;
  endSideContainsSensorPoint : Vector2.t -> bool
}.

Record CircuitLayerNode : Type := mkCircuitLayerNode {
  solderNodes : list SolderNode.SolderNode;
  circuitElements : list (CircuitElement * option CircuitElementNode);
  areVerticesElectricallyConnected : Vertex -> Vertex -> bool;
  revealingProperty : bool
}.

(** hitCircuitElementNode( position, filter ): the frontmost (last) element
    that passes the filter, has a node, is not hidden in the black box and
    contains the point. *)
Definition hitCircuitElementNode (this : CircuitLayerNode)
  (position : Vector2.t) (filter : CircuitElement -> bool)
  : option (CircuitElement * CircuitElementNode) :=
  let candidates := List.filter (fun en => filter (fst en)) (circuitElements this) in
  let hits en :=
    match snd en with
    | None => None
    | Some node =>
        let revealing :=
          if element_insideTrueBlackBoxProperty (fst en)
          then revealingProperty this else true in
        if revealing && containsSensorPoint node position
        then Some (fst en, node) else None
    end in
  let fix search (l : list (CircuitElement * option CircuitElementNode)) :=
    match l with
    | [] => None
    | en :: rest =>
        match hits en with
        | Some r => Some r
        | None => search rest
        end
    end in
  search (rev candidates).

(** The solder node a probe at [probePosition] hits: the first one, in the
    order of [solderNodes], whose vertex is no further than SOLDER_RADIUS. *)
Definition hitsSolder (probePosition : Vector2.t) (s : SolderNode.SolderNode) : bool :=
  if Rle_dec (Vector2.distance probePosition (positionProperty (SolderNode.vertex s)))
             SolderNode.SOLDER_RADIUS
  then true else false.

(** getVoltageConnection( probePosition ) *)
Definition getVoltageConnection (this : CircuitLayerNode)
  (probePosition : Vector2.t) : option VoltageConnection :=
  match List.find (hitsSolder probePosition) (solderNodes this) with
  | Some hitSolderNode =>
      Some (mkVoltageConnection (SolderNode.vertex hitSolderNode)
              (voltageProperty (SolderNode.vertex hitSolderNode)))
  | None =>
      match hitCircuitElementNode this probePosition isMetallic with
      | Some (metallic, _) =>
          let startPoint := startPositionProperty metallic in
          let endPoint := endPositionProperty metallic in
          let segmentVector := Vector2.minus endPoint startPoint in
          let probeVector := Vector2.minus probePosition startPoint in
          let distanceAlongSegment :=
            if Req_dec_T (Vector2.magnitude segmentVector) 0 then 0
            else Vector2.dot probeVector segmentVector
                 / Vector2.magnitudeSquared segmentVector in
          let distanceAlongSegment := Utils.clamp distanceAlongSegment 0 1 in
          let voltageAlongWire :=
            Utils.linear 0 1
              (voltageProperty (startVertexProperty metallic))
              (voltageProperty (endVertexProperty metallic))
              distanceAlongSegment in
          Some (mkVoltageConnection (startVertexProperty metallic) voltageAlongWire)
      | None =>
          match hitCircuitElementNode this probePosition isSwitch with
          | Some (circuitSwitch, switchNode) =>
              if startSideContainsSensorPoint switchNode probePosition then
                Some (mkVoltageConnection (startVertexProperty circuitSwitch)
                        (voltageProperty (startVertexProperty circuitSwitch)))
              else if endSideContainsSensorPoint switchNode probePosition then
                Some (mkVoltageConnection (endVertexProperty circuitSwitch)
                        (voltageProperty (endVertexProperty circuitSwitch)))
              else None
          | None => None
          end
      end
  end.

(** getVoltage( redConnection, blackConnection ): [None] is [null]. *)
Definition getVoltage (this : CircuitLayerNode)
  (redConnection blackConnection : option VoltageConnection) : option R :=
  match redConnection, blackConnection with
  | Some red, Some black =>
      if negb (areVerticesElectricallyConnected this (vertex red) (vertex black))
      then None
      else if insideTrueBlackBoxProperty (vertex red) && negb (revealingProperty this)
      then None
      else if insideTrueBlackBoxProperty (vertex black) && negb (revealingProperty this)
      then None
      else Some (voltage red - voltage black)
  | _, _ => None
  end.

End CircuitLayerNode.

(** ** FixedLengthCircuitElement: the constructor's length check

    Assertions are taken as enabled: [None] is the failed assertion. *)

Module FixedLengthCircuitElement.
Local Open Scope R_scope.
Import Vertex.

Record FixedLengthCircuitElement : Type := mkFixedLengthCircuitElement {
  startVertex : Vertex;
  endVertex : Vertex;
  distanceBetweenVertices : R;
  electronPathLength : R
}.

Definition new (distanceBetweenVertices : R) (startVertex endVertex : Vertex)
  : option FixedLengthCircuitElement :=
  let measuredLength :=
    Vector2.distance (positionProperty startVertex) (positionProperty endVertex) in
  if Rlt_dec (Rabs (distanceBetweenVertices - measuredLength)) (1 / 1000000)
  then Some (mkFixedLengthCircuitElement startVertex endVertex
               distanceBetweenVertices distanceBetweenVertices)
  else None.

End FixedLengthCircuitElement.

(** * The circuit solver

    The solver is embedded from its specification: each definition of
    this module follows sections 3, 4 and 6 of the specification.
    Arithmetic is exact, over the canonical rationals [Qc], so every
    definition computes; rounding and the display epsilon of section 4.3
    are outside the model.  What the specification leaves open (the
    resistance bounds, the calibration curve of the real bulb, the
    tolerance, the iteration cap, the sine) is gathered in [Constants].
    The commit of results by the time stepper (section 4.5, step 3) is not
    part of [solve] and is not modelled. *)

Module Solver.
Local Open Scope Qc_scope.

(** Modelled from the spec: the constants the solver is calibrated with
    (section 4.2 resistance floor, section 7 MIN_RESISTANCE and
    MAX_RESISTANCE, section 4.4 tolerance and iteration cap, section 9
    calibration curve of the non-ohmic bulb); Math_sin and Math_PI stand
    for the host's sine and pi. *)
Record Constants : Type := mkConstants {
  MIN_RESISTANCE : Qc;
  MAX_RESISTANCE : Qc;
  TOLERANCE : Qc;
  MAX_ITERATIONS : nat;
  bulbResistance : Qc -> Qc;
  Math_sin : Qc -> Qc;
  Math_PI : Qc
}.

(** Modelled from the spec: section 3 Vertex, an identity and the solved
    voltage (position and flags play no part in the solve). *)
Record Vertex : Type := mkVertex {
  id : nat;
  voltage : Qc
}.

(** Modelled from the spec: sections 3 and 9, the closed tagged variant of
    element kinds, each with its parameters and, for dynamic elements, the
    history of the previous step; the real bulb carries its present current
    estimate. *)
Inductive ElementKind : Type :=
| Wire (resistance : Qc)
| Resistor (resistance : Qc)
| Battery (voltage : Qc)
| ACVoltage (maximumVoltage frequency phase : Qc)
| LightBulb (resistance : Qc)
| RealLightBulb (currentEstimate : Qc)
| Capacitor (capacitance previousVoltage : Qc)
| Inductor (inductance previousCurrent : Qc)
| Switch (closed : bool)
| Fuse (resistance : Qc) (tripped : bool)
| SeriesAmmeter.

(** Modelled from the spec: section 3 CircuitElement, two vertex
    identities, the kind, and the computed current and voltage drop. *)
Record CircuitElement : Type := mkCircuitElement {
  startVertex : nat;
  endVertex : nat;
  kind : ElementKind;
  current : Qc;
  voltageDrop : Qc
}.

(** Modelled from the spec: section 3 Circuit, the owner of the vertex set
    and the element set. *)
Record Circuit : Type := mkCircuit {
  vertices : list Vertex;
  elements : list CircuitElement
}.

(** Modelled from the spec: sections 4.1 and 6, what the solver reads of an
    element: its two vertex identities and its kind (parameters and
    history), not the values computed by earlier solves. *)
Record Edge : Type := mkEdge {
  edgeStart : nat;
  edgeEnd : nat;
  edgeKind : ElementKind
}.

(** Modelled from the spec: section 6, the topology, parameters and
    history of a circuit, as handed to the solver. *)
Definition edgeOf (e : CircuitElement) : Edge :=
  mkEdge (startVertex e) (endVertex e) (kind e).

(** ** Rational helpers *)

(** Modelled from the spec: strict comparison of two numbers, as a bool. *)
Definition Qcltb (a b : Qc) : bool := if Qclt_le_dec a b then true else false.

(** Modelled from the spec: section 7, the larger of two numbers, for
    clamping to solver-safe bounds. *)
Definition Qcmax (a b : Qc) : Qc := if Qclt_le_dec a b then b else a.

(** Modelled from the spec: section 7, the smaller of two numbers. *)
Definition Qcmin (a b : Qc) : Qc := if Qclt_le_dec a b then a else b.

(** Modelled from the spec: an integer as a number, for examples. *)
Definition ofZ (n : Z) : Qc := Q2Qc (n # 1).

(** ** 4.1 Graph model: islands *)

(** Modelled from the spec: section 4.1 findConnectedComponents, by label
    propagation: every vertex starts with its own identity as label; an
    element gives the label of its start vertex to every vertex that
    carries the label of its end vertex. *)
Definition relabel (label : nat -> nat) (e : Edge) : nat -> nat :=
  fun v => if Nat.eqb (label v) (label (edgeEnd e))
           then label (edgeStart e) else label v.

(** Modelled from the spec: section 4.1, the labels after all elements. *)
Definition componentLabel (es : list Edge) : nat -> nat :=
  fold_left relabel es (fun v => v).

(** Modelled from the spec: section 7 InvalidTopologyError, the check at
    solve entry: an element counts only when both its vertices belong to
    the vertex set. *)
Definition validElement (vs : list nat) (e : Edge) : bool :=
  existsb (Nat.eqb (edgeStart e)) vs && existsb (Nat.eqb (edgeEnd e)) vs.

(** Modelled from the spec: section 4.1 findConnectedComponents, the list
    of vertex sets, one per label, each in the order of the vertex set. *)
Definition findConnectedComponents (vs : list nat) (es : list Edge)
  : list (list nat) :=
  let label := componentLabel (filter (validElement vs) es) in
  map (fun l => filter (fun v => Nat.eqb (label v) l) vs)
      (nodup Nat.eq_dec (map label vs)).

(** Modelled from the spec: section 4.1 (b), the stable index of a
    non-reference node: the position of its first occurrence in a list. *)
Fixpoint indexOf (v : nat) (l : list nat) : option nat :=
  match l with
  | [] => None
  | w :: l' => if Nat.eqb v w then Some O else option_map S (indexOf v l')
  end.

(** Modelled from the spec: section 4.1 (b) and section 4.2 nodeIndexOf:
    no index for the reference vertex, the position among the other
    vertices of the island otherwise. *)
Definition nodeIndexOf (vs : list nat) (v : nat) : option nat :=
  match vs with
  | [] => None
  | reference :: others => if Nat.eqb v reference then None else indexOf v others
  end.

(** ** 4.2 Element stamp providers *)

(** Modelled from the spec: section 4.2, what an element contributes for
    one solve: a conductance G with a parallel current source J (the
    current from start to end is G * (Vstart - Vend) + J), an ideal voltage
    source V (Vend - Vstart = V, the current is an extra unknown), or
    nothing. *)
Inductive Branch : Type :=
| Norton (G J : Qc)
| Source (V : Qc)
| Open.

Section WithConstants.
Variable k : Constants.

(** Modelled from the spec: section 7, resistance clamped to
    [MIN_RESISTANCE, MAX_RESISTANCE] before stamping. *)
Definition clampResistance (R : Qc) : Qc :=
  Qcmax (MIN_RESISTANCE k) (Qcmin (MAX_RESISTANCE k) R).

(** Modelled from the spec: section 4.2, the conductance G = 1/R of the
    clamped resistance. *)
Definition conductance (R : Qc) : Qc := 1 / clampResistance R.

(** Modelled from the spec: section 4.2, kind by kind.  Resistor, wire and
    ideal bulb: G = 1/R.  Battery and AC source: ideal voltage source, the
    AC voltage being Vmax * sin(2 pi f t + phase) at the stamping time.
    Real bulb: the resistance of the calibration curve at the present
    current estimate.  Capacitor: G = C/dt and current source G * V_prev.
    Inductor: G = dt/L and current source G * I_prev.  Switch: a wire when
    closed, nothing when open.  Fuse: a resistor until tripped, then open. *)
Definition companion (dt time : Qc) (kd : ElementKind) : Branch :=
  match kd with
  | Wire R => Norton (conductance R) 0
  | Resistor R => Norton (conductance R) 0
  | Battery V => Source V
  | ACVoltage Vmax f phase =>
      Source (Vmax * Math_sin k ((1 + 1) * Math_PI k * f * time + phase))
  | LightBulb R => Norton (conductance R) 0
  | RealLightBulb estimate => Norton (conductance (bulbResistance k estimate)) 0
  | Capacitor C Vprev => Norton (C / dt) (- (C / dt * Vprev))
  | Inductor L Iprev => Norton (dt / L) (dt / L * Iprev)
  | Switch true => Norton (conductance 0) 0
  | Switch false => Open
  | Fuse R false => Norton (conductance R) 0
  | Fuse R true => Open
  | SeriesAmmeter => Norton (conductance 0) 0
  end.

(** ** 4.3 Linear system builder *)

(** Modelled from the spec: section 4.3, the linear system: the matrix by
    rows and the right-hand side. *)
Record System : Type := mkSystem {
  matrix : list (list Qc);
  rhs : list Qc
}.

(** Modelled from the spec: section 4.2 stamp, adding a value at one
    position of a vector. *)
Fixpoint addAt (c : nat) (v : Qc) (row : list Qc) : list Qc :=
  match row, c with
  | [], _ => []
  | a :: r, O => (a + v) :: r
  | a :: r, S c' => a :: addAt c' v r
  end.

(** Modelled from the spec: section 4.2 stamp, changing one row. *)
Fixpoint applyAt (r : nat) (f : list Qc -> list Qc) (m : list (list Qc))
  : list (list Qc) :=
  match m, r with
  | [], _ => []
  | row :: m', O => f row :: m'
  | row :: m', S r' => row :: applyAt r' f m'
  end.

(** Modelled from the spec: section 4.2 stamp, adding to a matrix entry;
    the reference node has no row and no column, so a contribution there
    is dropped (grounding). *)
Definition addEntry (r c : option nat) (v : Qc) (s : System) : System :=
  match r, c with
  | Some r, Some c => mkSystem (applyAt r (addAt c v) (matrix s)) (rhs s)
  | _, _ => s
  end.

(** Modelled from the spec: section 4.2 stamp, adding to an entry of the
    right-hand side; a contribution at the reference node is dropped. *)
Definition addRhs (r : option nat) (v : Qc) (s : System) : System :=
  match r with
  | Some r => mkSystem (matrix s) (addAt r v (rhs s))
  | None => s
  end.

(** Modelled from the spec: section 4.2 stamp( nodeIndexOf, matrix, rhs,
    previousState ): the contribution of one branch between the nodes
    [a] (start) and [b] (end); [aux] is the index of the extra unknown of
    a voltage source. *)
Definition stamp (a b : option nat) (aux : nat) (br : Branch) (s : System)
  : System :=
  match br with
  | Norton G J =>
      addRhs b J (addRhs a (- J)
        (addEntry b a (- G) (addEntry b b G
          (addEntry a b (- G) (addEntry a a G s)))))
  | Source V =>
      addRhs (Some aux) V
        (addEntry (Some aux) a (- (1)) (addEntry (Some aux) b 1
          (addEntry b (Some aux) (- (1)) (addEntry a (Some aux) 1 s))))
  | Open => s
  end.

(** Modelled from the spec: section 4.3, whether a branch brings an extra
    unknown: a voltage source does. *)
Definition isSource (br : Branch) : bool :=
  match br with Source _ => true | _ => false end.

(** Modelled from the spec: section 4.3, the number k of voltage sources
    among the elements. *)
Definition countSources (dt time : Qc) (es : list Edge) : nat :=
  length (filter (fun e => isSource (companion dt time (edgeKind e))) es).

(** Modelled from the spec: section 4.3, assembling the system from all
    element stamps; [n] is the number of non-reference nodes and [j] the
    number of voltage sources stamped so far. *)
Fixpoint stampAll (vs : list nat) (n : nat) (dt time : Qc) (j : nat)
  (es : list Edge) (s : System) : System :=
  match es with
  | [] => s
  | e :: es' =>
      let br := companion dt time (edgeKind e) in
      stampAll vs n dt time (if isSource br then S j else j) es'
        (stamp (nodeIndexOf vs (edgeStart e)) (nodeIndexOf vs (edgeEnd e))
               (n + j) br s)
  end.

(** Modelled from the spec: section 4.3, the empty (n+k) x (n+k) system. *)
Definition zeroSystem (N : nat) : System :=
  mkSystem (repeat (repeat 0 N) N) (repeat 0 N).

(** Modelled from the spec: section 4.3, the system of an island: all
    stamps added to the empty system, with n the number of non-reference
    vertices. *)
Definition buildSystem (vs : list nat) (dt time : Qc)
  (es : list Edge) : System :=
  let n := pred (length vs) in
  stampAll vs n dt time 0 es (zeroSystem (n + countSources dt time es)).

End WithConstants.

(** ** 4.3 Linear solve: Gaussian elimination with pivoting *)

(** Modelled from the spec: section 4.3, one equation: coefficients and
    right-hand side. *)
Definition Equation : Type := (list Qc * Qc)%type.

(** Modelled from the spec: section 4.3, the scalar product of a row with
    the vector of unknowns. *)
Fixpoint dot (a x : list Qc) : Qc :=
  match a, x with
  | a0 :: a', x0 :: x' => a0 * x0 + dot a' x'
  | _, _ => 0
  end.

(** Modelled from the spec: section 4.3, the coefficient of the first
    unknown of an equation. *)
Definition lead (e : Equation) : Qc :=
  match fst e with
  | [] => 0
  | a :: _ => a
  end.

(** Modelled from the spec: section 4.3, the row [e - f * p]. *)
Fixpoint axpy (f : Qc) (p e : list Qc) : list Qc :=
  match e, p with
  | e0 :: e', p0 :: p' => (e0 - f * p0) :: axpy f p' e'
  | _, _ => e
  end.

(** Modelled from the spec: section 4.3, elimination of the first unknown
    of [e] with the pivot equation [p]. *)
Definition eliminate (p e : Equation) : Equation :=
  let f := lead e / lead p in
  (axpy f (tl (fst p)) (tl (fst e)), snd e - f * snd p).

(** Modelled from the spec: section 4.3 "pivot for numerical stability":
    the equation whose leading coefficient is largest in absolute value,
    and the other equations; none when every leading coefficient is 0. *)
Fixpoint selectPivot (eqs : list Equation) : option (Equation * list Equation) :=
  match eqs with
  | [] => None
  | e :: es =>
      match selectPivot es with
      | None => if Qc_eq_dec (lead e) 0 then None else Some (e, es)
      | Some (p, rest) =>
          if Qcltb (Qcabs (lead p)) (Qcabs (lead e)) then Some (e, es)
          else Some (p, e :: rest)
      end
  end.

(** Modelled from the spec: section 4.3, Gaussian elimination on [n]
    unknowns followed by back substitution; [None] is the singular
    system of section 7. *)
Fixpoint solveSystem (n : nat) (eqs : list Equation) : option (list Qc) :=
  match n with
  | O => if forallb (fun e => Qc_eq_bool (snd e) 0) eqs then Some [] else None
  | S n' =>
      match selectPivot eqs with
      | None => None
      | Some (p, rest) =>
          match solveSystem n' (map (eliminate p) rest) with
          | None => None
          | Some xs => Some ((snd p - dot (tl (fst p)) xs) / lead p :: xs)
          end
      end
  end.

(** Modelled from the spec: section 7 SingularSystemError, an equation
    after its first unknown has been given a value that its coefficient,
    0, does not let it feel. *)
Definition dropLead (e : Equation) : Equation := (tl (fst e), snd e).

(** Modelled from the spec: sections 4.2 and 7, the local recovery from a
    singular system.  Elimination that finds no pivot for an unknown has
    met a node that no remaining equation ties to the reference (an
    isolated node, a floating element with no path to ground): that
    unknown is assigned 0 and the elimination goes on, so that the other
    unknowns of the island are solved as usual.  An isolated node and a
    floating part without sources end at 0 V throughout; in a floating
    part with a source or a charged capacitor the node without pivot is
    at 0 V and the others keep their voltage against it.  The result is
    the vector of unknowns and whether it satisfies every equation: it
    does not when equations are left over that contradict each other. *)
Fixpoint recoverSystem (n : nat) (eqs : list Equation) : list Qc * bool :=
  match n with
  | O => ([], forallb (fun e => Qc_eq_bool (snd e) 0) eqs)
  | S n' =>
      match selectPivot eqs with
      | None =>
          let r := recoverSystem n' (map dropLead eqs) in
          (0 :: fst r, snd r)
      | Some (p, rest) =>
          let r := recoverSystem n' (map (eliminate p) rest) in
          ((snd p - dot (tl (fst p)) (fst r)) / lead p :: fst r, snd r)
      end
  end.

(** ** 4.3 Solution by substitution *)

Section WithConstantsSolve.
Variable k : Constants.

(** Modelled from the spec: section 4.3, the voltage of a vertex: 0 at the
    reference vertex, the unknown of its index elsewhere. *)
Definition voltageOf (vs : list nat) (x : list Qc) (v : nat) : Qc :=
  match nodeIndexOf vs v with
  | Some i => nth i x 0
  | None => 0
  end.

(** Modelled from the spec: section 4.3, the current of one branch from
    its start to its end, by substitution of the solved unknowns. *)
Definition branchCurrent (vs : list nat) (x : list Qc) (aux : nat)
  (e : Edge) (br : Branch) : Qc :=
  match br with
  | Norton G J =>
      G * (voltageOf vs x (edgeStart e) - voltageOf vs x (edgeEnd e)) + J
  | Source _ => nth aux x 0
  | Open => 0
  end.

(** Modelled from the spec: section 4.3, the currents of all elements, in
    the order of the elements; [j] counts the voltage sources as [stampAll]
    does. *)
Fixpoint currentsOf (vs : list nat) (n : nat) (dt time : Qc) (x : list Qc)
  (j : nat) (es : list Edge) : list Qc :=
  match es with
  | [] => []
  | e :: es' =>
      let br := companion k dt time (edgeKind e) in
      branchCurrent vs x (n + j) e br
        :: currentsOf vs n dt time x (if isSource br then S j else j) es'
  end.

(** Modelled from the spec: section 6, the result for one island: its
    vertices with their voltages and its elements with their currents,
    whether the linear system was singular (section 7), and whether the
    island is solved: the unknowns, recovered or not, satisfy every
    equation of the island. *)
Record IslandSolution : Type := mkIslandSolution {
  islandVertices : list nat;
  islandElements : list Edge;
  singular : bool;
  solved : bool;
  islandVoltages : list Qc;
  islandCurrents : list Qc
}.

(** Modelled from the spec: sections 4.3 and 7, solving a stamped system
    and reading the result.  A singular system is flagged and recovered
    locally by [recoverSystem]: the unknowns that elimination finds no
    pivot for get 0, the rest of the island is solved; voltages and
    currents are read from the unknowns by substitution in either case,
    and [solved] tells whether the unknowns satisfy every equation. *)
Definition solveStamped (vs : list nat) (dt time : Qc) (es : list Edge)
  (s : System) : IslandSolution :=
  let n := pred (length vs) in
  let N := (n + countSources k dt time es)%nat in
  let eqs := combine (matrix s) (rhs s) in
  let r := solveSystem N eqs in
  let x := match r with Some x => x | None => fst (recoverSystem N eqs) end in
  mkIslandSolution vs es
    (match r with Some _ => false | None => true end)
    (match r with Some _ => true | None => snd (recoverSystem N eqs) end)
    (map (voltageOf vs x) vs)
    (currentsOf vs n dt time x 0 es).

(** Modelled from the spec: section 4.3, one linear solve of an island. *)
Definition solveLinear (vs : list nat) (dt time : Qc) (es : list Edge)
  : IslandSolution :=
  solveStamped vs dt time es (buildSystem k vs dt time es).

(** ** 4.4 Non-linear iteration driver *)

(** Modelled from the spec: section 4.4, the new current estimate of each
    non-ohmic element, from which its resistance is recomputed. *)
Definition refineEdge (e : Edge) (i : Qc) : Edge :=
  match edgeKind e with
  | RealLightBulb _ => mkEdge (edgeStart e) (edgeEnd e) (RealLightBulb i)
  | _ => e
  end.

(** Modelled from the spec: section 4.4, the elements for the next
    iteration. *)
Fixpoint refine (es : list Edge) (currents : list Qc) : list Edge :=
  match es, currents with
  | e :: es', i :: currents' => refineEdge e i :: refine es' currents'
  | _, _ => es
  end.

(** Modelled from the spec: section 4.4 transition rule: every non-ohmic
    element's current changed by less than the tolerance. *)
Fixpoint converged (es : list Edge) (currents : list Qc) : bool :=
  match es, currents with
  | e :: es', i :: currents' =>
      match edgeKind e with
      | RealLightBulb estimate => Qcltb (Qcabs (i - estimate)) (TOLERANCE k)
      | _ => true
      end && converged es' currents'
  | _, _ => true
  end.

(** Modelled from the spec: section 4.4, the states of the driver; the
    iteration count starts at 1. *)
Inductive DriverState : Type :=
| Stamping (iteration : nat) (es : list Edge)
| Solving (iteration : nat) (es : list Edge) (s : System)
| Converged (sol : IslandSolution)
| Diverged (sol : IslandSolution).

(** Modelled from the spec: section 4.4, one transition.  After a solve
    that has not converged, a further iteration would exceed the cap when
    the count has reached it: the driver stops with the last solution. *)
Definition driverStep (vs : list nat) (dt time : Qc) (st : DriverState)
  : DriverState :=
  match st with
  | Stamping i es => Solving i es (buildSystem k vs dt time es)
  | Solving i es s =>
      let sol := solveStamped vs dt time es s in
      if converged es (islandCurrents sol) then Converged sol
      else if Nat.leb (MAX_ITERATIONS k) i then Diverged sol
      else Stamping (S i) (refine es (islandCurrents sol))
  | Converged sol => Converged sol
  | Diverged sol => Diverged sol
  end.

(** Modelled from the spec: section 4.4, running the driver for a number
    of transitions. *)
Fixpoint drive (vs : list nat) (dt time : Qc) (fuel : nat) (st : DriverState)
  : DriverState :=
  match fuel with
  | O => st
  | S fuel' => drive vs dt time fuel' (driverStep vs dt time st)
  end.

(** Modelled from the spec: section 4.4, two transitions per iteration, at
    most MAX_ITERATIONS iterations and at least one. *)
Definition driverFuel : nat := (2 * Nat.max 1 (MAX_ITERATIONS k))%nat.

(** Modelled from the spec: section 4.4, how a solve step ended. *)
Inductive Outcome : Type :=
| ConvergedOutcome
| MaxIterationsExceeded.

(** Modelled from the spec: section 4.5 step 2, the solve of one island:
    the driver run from the first stamping; the last case is the state of
    a driver that has not finished. *)
Definition solveIsland (vs : list nat) (dt time : Qc) (es : list Edge)
  : option (IslandSolution * Outcome) :=
  match drive vs dt time driverFuel (Stamping 1 es) with
  | Converged sol => Some (sol, ConvergedOutcome)
  | Diverged sol => Some (sol, MaxIterationsExceeded)
  | _ => None
  end.

(** Modelled from the spec: section 4.4, the elements after i
    refinements. *)
Fixpoint iterate (vs : list nat) (dt time : Qc) (i : nat) (es : list Edge)
  : list Edge :=
  match i with
  | O => es
  | S i' =>
      let es' := iterate vs dt time i' es in
      refine es' (islandCurrents (solveLinear vs dt time es'))
  end.

(** Modelled from the spec: section 4.4, the solution of the i-th
    iteration, counted from 1. *)
Definition iterateSolution (vs : list nat) (dt time : Qc) (i : nat)
  (es : list Edge) : IslandSolution :=
  solveLinear vs dt time (iterate vs dt time (pred i) es).

(** ** 6 The solve of a circuit *)

(** Modelled from the spec: section 4.1, an island with exactly one vertex
    and no elements is skipped. *)
Definition trivialIsland (vs : list nat) (es : list Edge) : bool :=
  Nat.eqb (length vs) 1 && match es with [] => true | _ => false end.

(** Modelled from the spec: sections 4.1 and 7, the elements of an island:
    those with both vertices in it. *)
Definition elementsOfIsland (vs : list nat) (es : list Edge) : list Edge :=
  filter (validElement vs) es.

(** Modelled from the spec: section 4.5 step 2, every island solved on its
    own, from the vertex identities and the edges. *)
Definition solveIslands (vs : list nat) (es : list Edge) (dt time : Qc)
  : list (option (IslandSolution * Outcome)) :=
  map (fun island => solveIsland island dt time (elementsOfIsland island es))
      (filter (fun island => negb (trivialIsland island (elementsOfIsland island es)))
              (findConnectedComponents vs es)).

(** Modelled from the spec: section 6, the output of solve. *)
Record Output : Type := mkOutput {
  vertexVoltages : list (nat * Qc);
  elementCurrents : list (Edge * Qc)
}.

(** Modelled from the spec: section 6, the voltages and currents of all
    islands put together. *)
Definition outputOf (sols : list (option (IslandSolution * Outcome))) : Output :=
  mkOutput
    (flat_map (fun r => match r with
                        | Some (sol, _) => combine (islandVertices sol) (islandVoltages sol)
                        | None => []
                        end) sols)
    (flat_map (fun r => match r with
                        | Some (sol, _) => combine (islandElements sol) (islandCurrents sol)
                        | None => []
                        end) sols).

(** Modelled from the spec: section 6 solve( circuit, dt, time ), a
    function of the topology, the parameters and the stored history. *)
Definition solve (c : Circuit) (dt time : Qc) : Output :=
  outputOf (solveIslands (map id (vertices c)) (map edgeOf (elements c)) dt time).

End WithConstantsSolve.



(** Modelled from the spec: section 4.3, how far a vector [x] is from
    satisfying equation [i] of a system: row times vector minus right-hand
    side. *)
Definition residual (s : System) (x : list Qc) (i : nat) : Qc :=
  dot (nth i (matrix s) []) x - nth i (rhs s) 0.



(** Modelled from the spec: section 4.3, a system of the size N x N. *)
Definition wellSized (N : nat) (s : System) : Prop :=
  length (matrix s) = N
  /\ (forall row, In row (matrix s) -> length row = N)
  /\ length (rhs s) = N.



(** Modelled from the spec: section 4.4, what holds along a run of the
    driver when [P] holds of the elements of every iteration and [Q] of
    every solution: the system being solved is the stamped system of the
    current elements. *)
Definition driverInvariant (k : Constants) (vs : list nat) (dt time : Qc)
  (P : list Edge -> Prop) (Q : IslandSolution -> Prop) (st : DriverState)
  : Prop :=
  match st with
  | Stamping _ es => P es
  | Solving _ es s => P es /\ s = buildSystem k vs dt time es
  | Converged sol => Q sol
  | Diverged sol => Q sol
  end.

(** Modelled from the spec: section 4.4, the two final states. *)
Definition terminal (st : DriverState) : bool :=
  match st with
  | Converged _ | Diverged _ => true
  | _ => false
  end.

(** ** Example circuits of section 8 *)

(** Modelled from the spec: sections 4.2, 4.4 and 7, example values of the
    constants: floor 1e-8, ceiling 1e9, tolerance 1e-6, cap 100, and a
    calibration curve R(i) = 10 + i^2; the sine is left at 0. *)
Definition exampleConstants : Constants :=
  mkConstants (Q2Qc (1 # 100000000)) (ofZ 1000000000) (Q2Qc (1 # 1000000))
              100 (fun i => ofZ 10 + i * i) (fun _ => 0) (Q2Qc (314 # 100)).

(** Modelled from the spec: section 4.4, the same constants with a cap of
    3 iterations. *)
Definition shortCapConstants : Constants :=
  mkConstants (Q2Qc (1 # 100000000)) (ofZ 1000000000) (Q2Qc (1 # 1000000))
              3 (fun i => ofZ 10 + i * i) (fun _ => 0) (Q2Qc (314 # 100)).

(** Modelled from the spec: section 8 "Series resistors", a 9 V battery
    from vertex 0 to vertex 1, 10 ohm from 1 to 2, 20 ohm from 2 to 0. *)
Definition seriesCircuit : Circuit :=
  mkCircuit [mkVertex 0 0; mkVertex 1 0; mkVertex 2 0]
    [mkCircuitElement 0 1 (Battery (ofZ 9)) 0 0;
     mkCircuitElement 1 2 (Resistor (ofZ 10)) 0 0;
     mkCircuitElement 2 0 (Resistor (ofZ 20)) 0 0].

(** Modelled from the spec: section 8 "Parallel resistors", two 10 ohm
    resistors across a 9 V battery. *)
Definition parallelCircuit : Circuit :=
  mkCircuit [mkVertex 0 0; mkVertex 1 0]
    [mkCircuitElement 0 1 (Battery (ofZ 9)) 0 0;
     mkCircuitElement 1 0 (Resistor (ofZ 10)) 0 0;
     mkCircuitElement 1 0 (Resistor (ofZ 10)) 0 0].

(** Modelled from the spec: section 8 "Open switch", a 9 V battery, a 10
    ohm resistor in series with an open switch, and a 3 ohm resistor
    across the battery. *)
Definition openSwitchCircuit : Circuit :=
  mkCircuit [mkVertex 0 0; mkVertex 1 0; mkVertex 2 0]
    [mkCircuitElement 0 1 (Battery (ofZ 9)) 0 0;
     mkCircuitElement 1 2 (Resistor (ofZ 10)) 0 0;
     mkCircuitElement 2 0 (Switch false) 0 0;
     mkCircuitElement 1 0 (Resistor (ofZ 3)) 0 0].

(** Modelled from the spec: sections 4.2 and 7, a floating node: a 9 V
    battery across a 10 ohm resistor, and an open switch from vertex 1 to
    a vertex 2 that nothing else touches. *)
Definition danglingSwitchCircuit : Circuit :=
  mkCircuit [mkVertex 0 0; mkVertex 1 0; mkVertex 2 0]
    [mkCircuitElement 0 1 (Battery (ofZ 9)) 0 0;
     mkCircuitElement 1 0 (Resistor (ofZ 10)) 0 0;
     mkCircuitElement 1 2 (Switch false) 0 0].

(** Modelled from the spec: sections 4.2 and 7, a floating element with
    history: a 9 V battery across a 10 ohm resistor, an open switch from
    vertex 1 to vertex 2, and between the vertices 2 and 3 a capacitor of
    1 F that holds 5 V. *)
Definition floatingCapacitorCircuit : Circuit :=
  mkCircuit [mkVertex 0 0; mkVertex 1 0; mkVertex 2 0; mkVertex 3 0]
    [mkCircuitElement 0 1 (Battery (ofZ 9)) 0 0;
     mkCircuitElement 1 0 (Resistor (ofZ 10)) 0 0;
     mkCircuitElement 1 2 (Switch false) 0 0;
     mkCircuitElement 2 3 (Capacitor 1 (ofZ 5)) 0 0].

(** Modelled from the spec: section 4.2, sources that contradict each
    other: a 9 V and a 5 V battery across the same two vertices; the
    equations of this island have no solution. *)
Definition conflictingBatteriesCircuit : Circuit :=
  mkCircuit [mkVertex 0 0; mkVertex 1 0]
    [mkCircuitElement 0 1 (Battery (ofZ 9)) 0 0;
     mkCircuitElement 0 1 (Battery (ofZ 5)) 0 0].

(** Modelled from the spec: section 8 "Non-ohmic bulb", a real bulb across
    a 9 V battery, first estimate 0. *)
Definition realBulbCircuit : Circuit :=
  mkCircuit [mkVertex 0 0; mkVertex 1 0]
    [mkCircuitElement 0 1 (Battery (ofZ 9)) 0 0;
     mkCircuitElement 1 0 (RealLightBulb 0) 0 0].

(** Modelled from the spec: section 6, an output with the numbers as plain
    fractions, for comparison in examples. *)
Definition readable (o : Output) : list (nat * Q) * list Q :=
  (map (fun p => (fst p, this (snd p))) (vertexVoltages o),
   map (fun p => this (snd p)) (elementCurrents o)).

(** Modelled from the spec: section 3, the two vertices an element
    relates. *)
Definition endpoints (e : Edge) : nat * nat := (edgeStart e, edgeEnd e).

End Solver.

(** * More of the view and model code

    Matrix3 and Bounds2 are DOT's; [Math.atan2], the image sizes, the
    circuit's [getDropTarget] and [findAllFixedVertices], the easing of
    the zoom and the lengths of CCKCConstants are not embedded: they are
    section variables of the modules that use them. *)

(** ** Matrix3 (DOT), row-major, as far as ChargeNode and LightBulb use it *)

Module Matrix3.
Local Open Scope R_scope.

Record t : Type := mk {
  m00 : R; m01 : R; m02 : R;
  m10 : R; m11 : R; m12 : R;
  m20 : R; m21 : R; m22 : R
}.

Definition IDENTITY : t := mk 1 0 0 0 1 0 0 0 1.

Definition translation (x y : R) : t := mk 1 0 x 0 1 y 0 0 1.

Definition rotation2 (angle : R) : t :=
  mk (cos angle) (- sin angle) 0 (sin angle) (cos angle) 0 0 0 1.

(** this.multiplyMatrix( m ): this becomes this * m. *)
Definition multiplyMatrix (this m : t) : t :=
  mk (m00 this * m00 m + m01 this * m10 m + m02 this * m20 m)
     (m00 this * m01 m + m01 this * m11 m + m02 this * m21 m)
     (m00 this * m02 m + m01 this * m12 m + m02 this * m22 m)
     (m10 this * m00 m + m11 this * m10 m + m12 this * m20 m)
     (m10 this * m01 m + m11 this * m11 m + m12 this * m21 m)
     (m10 this * m02 m + m11 this * m12 m + m12 this * m22 m)
     (m20 this * m00 m + m21 this * m10 m + m22 this * m20 m)
     (m20 this * m01 m + m21 this * m11 m + m22 this * m21 m)
     (m20 this * m02 m + m21 this * m12 m + m22 this * m22 m).

Definition set00 (v : R) (this : t) : t :=
  mk v (m01 this) (m02 this) (m10 this) (m11 this) (m12 this)
     (m20 this) (m21 this) (m22 this).
Definition set01 (v : R) (this : t) : t :=
  mk (m00 this) v (m02 this) (m10 this) (m11 this) (m12 this)
     (m20 this) (m21 this) (m22 this).
Definition set10 (v : R) (this : t) : t :=
  mk (m00 this) (m01 this) (m02 this) v (m11 this) (m12 this)
     (m20 this) (m21 this) (m22 this).
Definition set11 (v : R) (this : t) : t :=
  mk (m00 this) (m01 this) (m02 this) (m10 this) v (m12 this)
     (m20 this) (m21 this) (m22 this).

(** timesVector2( v ): the affine image of a point. *)
Definition timesVector2 (this : t) (v : Vector2.t) : Vector2.t :=
  Vector2.mk (m00 this * Vector2.x v + m01 this * Vector2.y v + m02 this)
             (m10 this * Vector2.x v + m11 this * Vector2.y v + m12 this).

(** setToTranslationRotationPoint( translation, rotation ) *)
Definition setToTranslationRotationPoint (translation : Vector2.t) (rotation : R) : t :=
  mk (cos rotation) (- sin rotation) (Vector2.x translation)
     (sin rotation) (cos rotation) (Vector2.y translation)
     0 0 1.

End Matrix3.

(** ** Bounds2 (DOT) *)

Module Bounds2.
Local Open Scope R_scope.

Record t : Type := mk { minX : R; minY : R; maxX : R; maxY : R }.

Definition containsCoordinates (this : t) (x y : R) : bool :=
  (if Rle_dec (minX this) x then true else false)
  && (if Rle_dec x (maxX this) then true else false)
  && (if Rle_dec (minY this) y then true else false)
  && (if Rle_dec y (maxY this) then true else false).

Definition containsPoint (this : t) (point : Vector2.t) : bool :=
  containsCoordinates this (Vector2.x point) (Vector2.y point).

(** getClosestPoint( x, y ): four comparisons, in this order. *)
Definition getClosestPoint (this : t) (x y : R) : Vector2.t :=
  let rx := x in
  let ry := y in
  let rx := if Rlt_dec rx (minX this) then minX this else rx in
  let rx := if Rlt_dec (maxX this) rx then maxX this else rx in
  let ry := if Rlt_dec ry (minY this) then minY this else ry in
  let ry := if Rlt_dec (maxY this) ry then maxY this else ry in
  Vector2.mk rx ry.

End Bounds2.

(** ** ChargeNode (js/view/ChargeNode.js)

    The node keeps a reference to its charge; [node_charge] is the charge
    as the node finds it when a listener runs.  [charge] is +1 for a
    conventional-current arrow and -1 for an electron. *)

Module ChargeNode.
Local Open Scope R_scope.

Record Charge : Type := mkCharge {
  charge : R;
  matrix : Matrix3.t;
  visibleProperty : bool;
  (* charge.circuitElement.currentProperty *)
  circuitElement_currentProperty : R;
  (* charge.circuitElement.insideTrueBlackBoxProperty *)
  circuitElement_insideTrueBlackBoxProperty : bool
}.

Record ChargeNode : Type := mkChargeNode {
  node_charge : Charge;
  outsideOfBlackBoxProperty : bool;
  visible : bool;
  node_matrix : Matrix3.t;
  imageOpacity : R
}.

(** Below this amperage, no conventional current will be rendered. *)
Definition CONVENTIONAL_CHARGE_THRESHOLD : R := 1 / 1000000.

Definition HALF_ROTATION : Matrix3.t := Matrix3.rotation2 PI.

(** updateVisible() *)
Definition updateVisible (this : ChargeNode) : ChargeNode :=
  mkChargeNode (node_charge this) (outsideOfBlackBoxProperty this)
    (visibleProperty (node_charge this) && outsideOfBlackBoxProperty this)
    (node_matrix this) (imageOpacity this).

(** outsideOfBlackBoxProperty.set( value ): the linked listener
    updateVisible runs when the value changes. *)
Definition set_outsideOfBlackBoxProperty (value : bool) (this : ChargeNode) : ChargeNode :=
  if Bool.eqb value (outsideOfBlackBoxProperty this) then this
  else updateVisible
         (mkChargeNode (node_charge this) value (visible this)
            (node_matrix this) (imageOpacity this)).

Section Images.

(** The sizes of the two images. *)
Variables ARROW_NODE_width ARROW_NODE_height : R.
Variables ELECTRON_CHARGE_NODE_width ELECTRON_CHARGE_NODE_height : R.

Definition ARROW_OFFSET : Matrix3.t :=
  Matrix3.translation (- ARROW_NODE_width / 2) (- ARROW_NODE_height / 2).

Definition ELECTRON_OFFSET : Matrix3.t :=
  Matrix3.translation (- ELECTRON_CHARGE_NODE_width / 2 - 1 / 2)
                      (- ELECTRON_CHARGE_NODE_height / 2 - 1 / 2).

(** updateTransform() *)
Definition updateTransform (this : ChargeNode) : ChargeNode :=
  let charge := node_charge this in
  let current := circuitElement_currentProperty charge in
  let NODE_MATRIX := matrix charge in
  let this :=
    if Rlt_dec 0 (ChargeNode.charge charge) then
      (* Rotate if current is running backwards *)
      let NODE_MATRIX :=
        if Rlt_dec current 0
        then Matrix3.multiplyMatrix NODE_MATRIX HALF_ROTATION
        else NODE_MATRIX in
      (* Center *)
      let NODE_MATRIX := Matrix3.multiplyMatrix NODE_MATRIX ARROW_OFFSET in
      let opacity :=
        Utils.linear (15 / 1000) CONVENTIONAL_CHARGE_THRESHOLD 1 0
          (Rabs (circuitElement_currentProperty charge)) in
      let opacity := Utils.clamp opacity 0 1 in
      mkChargeNode charge (outsideOfBlackBoxProperty this) (visible this)
        NODE_MATRIX opacity
    else
      (* Set rotation to 0 since electrons should always be upside-up *)
      let NODE_MATRIX := Matrix3.set00 1 NODE_MATRIX in
      let NODE_MATRIX := Matrix3.set01 0 NODE_MATRIX in
      let NODE_MATRIX := Matrix3.set10 0 NODE_MATRIX in
      let NODE_MATRIX := Matrix3.set11 1 NODE_MATRIX in
      (* Center the electrons *)
      let NODE_MATRIX := Matrix3.multiplyMatrix NODE_MATRIX ELECTRON_OFFSET in
      mkChargeNode charge (outsideOfBlackBoxProperty this) (visible this)
        NODE_MATRIX (imageOpacity this) in
  let this := updateVisible this in
  set_outsideOfBlackBoxProperty
    (negb (circuitElement_insideTrueBlackBoxProperty charge)) this.

(** The constructor: an Image starts visible, opaque and untransformed;
    the two links call updateVisible at once, then the transform is
    updated. *)
Definition new (charge : Charge) : ChargeNode :=
  let this := mkChargeNode charge false true Matrix3.IDENTITY 1 in
  let this := updateVisible this in
  let this := updateVisible this in
  updateTransform this.

End Images.

End ChargeNode.

(** ** CircuitLayerNode: what the ammeter probe reads

    A layer's children are element nodes or other nodes; an element node
    carries its element's [circuitElementDisposed] flag and
    [currentProperty], and its own hit test. *)

Module CircuitLayerNodeCurrent.
Local Open Scope R_scope.

Record CircuitElementNode : Type := mkCircuitElementNode {
  circuitElementDisposed : bool;
  containsSensorPoint : Vector2.t -> bool;
  currentProperty : R
}.

(** A child of a layer; [Element] is [instanceof CircuitElementNode]. *)
Inductive Child : Type :=
| Other : Child
| Element : CircuitElementNode -> Child.

(** getCurrentInLayer( probeNode, layer ): [None] is [null]. *)
Fixpoint getCurrentInLayer (probeNode_translation : Vector2.t)
  (layer_children : list Child) : option R :=
  match layer_children with
  | [] => None
  | Other :: rest => getCurrentInLayer probeNode_translation rest
  | Element circuitElementNode :: rest =>
      if negb (circuitElementDisposed circuitElementNode)
         && containsSensorPoint circuitElementNode probeNode_translation
      then Some (currentProperty circuitElementNode)
      else getCurrentInLayer probeNode_translation rest
  end.

(** getCurrent( probeNode ) *)
Definition getCurrent (probeNode_translation : Vector2.t)
  (fixedCircuitElementLayer wireLayer : list Child) : option R :=
  match getCurrentInLayer probeNode_translation fixedCircuitElementLayer with
  | Some mainCurrent => Some mainCurrent
  | None => getCurrentInLayer probeNode_translation wireLayer
  end.

End CircuitLayerNodeCurrent.

(** ** CircuitLayerNode: dragging vertices

    Vertices are mutable objects shared by the circuit and the view: the
    model keeps them in a store indexed by [vertex.index], and a list of
    vertices is a list of indices.  The circuit's [getDropTarget] (with
    the mode and the black box bounds of the model) and
    [findAllFixedVertices] are not embedded.  [_.sortBy] is a stable
    sort. *)

Module CircuitLayerNodeDrag.
Local Open Scope R_scope.

Record Vertex : Type := mkVertex {
  unsnappedPositionProperty : Vector2.t;
  positionProperty : Vector2.t;
  isDragged : bool;
  draggableProperty : bool
}.

Definition Store : Type := nat -> Vertex.

Definition update (s : Store) (vertex : nat) (f : Vertex -> Vertex) : Store :=
  fun w => if Nat.eqb w vertex then f (s w) else s w.

Definition set_unsnappedPosition (p : Vector2.t) (v : Vertex) : Vertex :=
  mkVertex p (positionProperty v) (isDragged v) (draggableProperty v).
Definition set_position (p : Vector2.t) (v : Vertex) : Vertex :=
  mkVertex (unsnappedPositionProperty v) p (isDragged v) (draggableProperty v).
Definition set_isDragged (b : bool) (v : Vertex) : Vertex :=
  mkVertex (unsnappedPositionProperty v) (positionProperty v) b (draggableProperty v).

Record DropTarget : Type := mkDropTarget { src : nat; dst : nat }.

(** _.sortBy( list, key ): stable, ascending; an element stays in front
    of the later elements with the same key. *)
Fixpoint insertBy {A : Type} (key : A -> R) (a : A) (sorted : list A) : list A :=
  match sorted with
  | [] => [a]
  | b :: rest =>
      if Rle_dec (key a) (key b) then a :: b :: rest
      else b :: insertBy key a rest
  end.

Fixpoint sortBy {A : Type} (l : list A) (key : A -> R) : list A :=
  match l with
  | [] => []
  | a :: rest => insertBy key a (sortBy rest key)
  end.

Section Circuit.

Variable getDropTarget : Store -> nat -> option nat.
Variable findAllFixedVertices : nat -> list nat.

(** this.parentToLocalBounds( this.visibleBoundsProperty.get() ) *)
Variable bounds : Bounds2.t.

(** getAllDropTargets( vertices ) *)
Fixpoint getAllDropTargets (s : Store) (vertices : list nat) : list DropTarget :=
  match vertices with
  | [] => []
  | vertex :: rest =>
      match getDropTarget s vertex with
      | Some targetVertex =>
          mkDropTarget vertex targetVertex :: getAllDropTargets s rest
      | None => getAllDropTargets s rest
      end
  end.

(** The sort key of getBestDropTarget. *)
Definition dropDistance (s : Store) (dropTarget : DropTarget) : R :=
  Vector2.distance (unsnappedPositionProperty (s (src dropTarget)))
                   (positionProperty (s (dst dropTarget))).

(** getBestDropTarget( vertices ): an array is truthy, so the result is
    [sorted[ 0 ]], which is undefined ([None]) for an empty array. *)
Definition getBestDropTarget (s : Store) (vertices : list nat) : option DropTarget :=
  let allDropTargets := getAllDropTargets s vertices in
  let sorted := sortBy allDropTargets (dropDistance s) in
  List.hd_error sorted.

(** canDragVertex( vertex ) *)
Definition canDragVertex (s : Store) (vertex : nat) : bool :=
  let vertices := findAllFixedVertices vertex in
  let fix loop (l : list nat) : bool :=
    match l with
    | [] => true
    | v :: rest => if isDragged (s v) then false else loop rest
    end in
  loop vertices.

(** setVerticesDragging( vertex ) *)
Definition setVerticesDragging (s : Store) (vertex : nat) : Store :=
  let vertices := findAllFixedVertices vertex in
  List.fold_left (fun s v => update s v (set_isDragged true)) vertices s.

(** The first loop of translateVertexGroup: modify the delta to keep the
    vertices in bounds, one vertex after the other. *)
Fixpoint keepInBounds (s : Store) (vertices : list nat) (unsnappedDelta : Vector2.t)
  : Vector2.t :=
  match vertices with
  | [] => unsnappedDelta
  | v :: rest =>
      let proposedPosition :=
        Vector2.plus (unsnappedPositionProperty (s v)) unsnappedDelta in
      if negb (Bounds2.containsPoint bounds proposedPosition) then
        let closestPosition :=
          Bounds2.getClosestPoint bounds (Vector2.x proposedPosition)
                                  (Vector2.y proposedPosition) in
        let keepInBoundsDelta := Vector2.minus closestPosition proposedPosition in
        keepInBounds s rest (Vector2.plus unsnappedDelta keepInBoundsDelta)
      else keepInBounds s rest unsnappedDelta
  end.

(** The store that translateVertexGroup asks getBestDropTarget on: the
    vertices after its first two loops and the updatePositions callback,
    before any position is written. *)
Definition beforeSnap (s : Store) (vertices : list nat)
  (unsnappedDelta : Vector2.t) (updatePositions : option (Store -> Store))
  : Store :=
  let unsnappedDelta := keepInBounds s vertices unsnappedDelta in
  let s :=
    List.fold_left
      (fun s v =>
         update s v
           (set_unsnappedPosition
              (Vector2.plus (unsnappedPositionProperty (s v)) unsnappedDelta)))
      vertices s in
  match updatePositions with Some f => f s | None => s end.

(** translateVertexGroup( vertex, vertices, unsnappedDelta, updatePositions,
    attachable ); [updatePositions] is the optional callback.  The write
    through [positionReference] is a write to the vertex's position. *)
Definition translateVertexGroup (s : Store) (vertex : nat) (vertices : list nat)
  (unsnappedDelta : Vector2.t) (updatePositions : option (Store -> Store))
  (attachable : list nat) : Store :=
  let unsnappedDelta := keepInBounds s vertices unsnappedDelta in
  let s :=
    List.fold_left
      (fun s v =>
         update s v
           (set_unsnappedPosition
              (Vector2.plus (unsnappedPositionProperty (s v)) unsnappedDelta)))
      vertices s in
  let s := match updatePositions with Some f => f s | None => s end in
  let bestDropTarget := getBestDropTarget s attachable in
  let delta :=
    match bestDropTarget with
    | Some bestDropTarget =>
        let srcUnsnappedPosition :=
          unsnappedPositionProperty (s (src bestDropTarget)) in
        Vector2.minus (unsnappedPositionProperty (s (dst bestDropTarget)))
                      srcUnsnappedPosition
    | None => Vector2.ZERO
    end in
  List.fold_left
    (fun s v =>
       update s v
         (set_position (Vector2.plus (unsnappedPositionProperty (s v)) delta)))
    vertices s.

End Circuit.

End CircuitLayerNodeDrag.

(** ** ZoomAnimation (js/model/ZoomAnimation.js)

    The easing (twixt's Easing.CUBIC_IN_OUT) is not embedded.  A step
    returns the animation and the argument of the zoomCallback call it
    made, if any. *)

Module ZoomAnimation.
Local Open Scope R_scope.

(** seconds *)
Definition ZOOM_ANIMATION_TIME : R := 35 / 100.

Record ZoomAnimation : Type := mkZoomAnimation {
  ratio : R;
  totalDelta : R
}.

Definition new (initialZoom targetZoom : R) : ZoomAnimation :=
  mkZoomAnimation 0 (targetZoom - initialZoom).

Section Easing.

Variable CUBIC_IN_OUT_value : R -> R.

(** step( dt ) *)
Definition step (dt : R) (this : ZoomAnimation) : ZoomAnimation * option R :=
  let oldRatio := ratio this in
  if Rlt_dec oldRatio 1 then
    let newRatio := oldRatio + dt / ZOOM_ANIMATION_TIME in
    let newRatio := if Rlt_dec 1 newRatio then 1 else newRatio in
    let ratioDelta := CUBIC_IN_OUT_value newRatio - CUBIC_IN_OUT_value oldRatio in
    (mkZoomAnimation newRatio (totalDelta this), Some (ratioDelta * totalDelta this))
  else (this, None).

(** The frames of an animation: one step per elapsed time, the
    zoomCallback arguments in the order of the calls. *)
Fixpoint steps (dts : list R) (this : ZoomAnimation) : ZoomAnimation * list R :=
  match dts with
  | [] => (this, [])
  | dt :: rest =>
      let (this, call) := step dt this in
      let (final, calls) := steps rest this in
      (final, match call with Some c => c :: calls | None => calls end)
  end.

End Easing.

(** The zoom after the calls, when the callback adds its argument to the
    zoom. *)
Definition zoomAfter (zoom : R) (calls : list R) : R :=
  List.fold_left Rplus calls zoom.

End ZoomAnimation.

(** ** LightBulb (js/model/LightBulb.js): the path of the charges

    [Math.atan2] and FixedCircuitElement's updateMatrixForPoint are not
    embedded.  [None] is the thrown 'exceeded charge path bounds'. *)

Module LightBulb.
Local Open Scope R_scope.

(** The distance (as the crow flies) between start and end vertex *)
Definition DISTANCE_BETWEEN_VERTICES : R := 36.

Definition LEFT_CURVE_X_SCALE : R := 15 / 10.
Definition TOP_Y_SCALE : R := 6 / 10.
Definition RIGHT_CURVE_X_SCALE : R := 87 / 100.

Definition LIFELIKE_SAMPLE_POINTS : list Vector2.t := [
  Vector2.mk (623 / 1000) (2063 / 1000);
  Vector2.mk (623 / 1000) (1014 / 1000 * (75 / 100));
  Vector2.mk (314 / 1000 * LEFT_CURVE_X_SCALE) (704 / 1000 * TOP_Y_SCALE * (11 / 10));
  Vector2.mk (314 / 1000 * LEFT_CURVE_X_SCALE) (639 / 1000 * TOP_Y_SCALE);
  Vector2.mk (394 / 1000 * LEFT_CURVE_X_SCALE) (560 / 1000 * TOP_Y_SCALE);
  Vector2.mk (823 / 1000 * RIGHT_CURVE_X_SCALE) (565 / 1000 * TOP_Y_SCALE);
  Vector2.mk (888 / 1000 * RIGHT_CURVE_X_SCALE) (600 / 1000 * TOP_Y_SCALE);
  Vector2.mk (922 / 1000 * RIGHT_CURVE_X_SCALE) (699 / 1000 * TOP_Y_SCALE);
  Vector2.mk (927 / 1000 * RIGHT_CURVE_X_SCALE) (1474 / 1000);
  Vector2.mk (927 / 1000 * (8 / 10) * (12 / 10)) (1474 / 1000)
].

Definition SCHEMATIC_SAMPLE_POINTS : list Vector2.t := [
  Vector2.mk (50 / 100) (206 / 100);
  Vector2.mk (50 / 100) (34 / 100);
  Vector2.mk (89 / 100) (34 / 100);
  Vector2.mk (89 / 100) (1474 / 1000)
].

Inductive CircuitElementViewType : Type := LIFELIKE | SCHEMATIC.

Record LightBulb : Type := mkLightBulb {
  (* startVertexProperty.get().positionProperty.get(), also startPositionProperty *)
  startPositionProperty : Vector2.t;
  endPositionProperty : Vector2.t;
  (* the vector between the vertices, at construction *)
  vertexDelta : Vector2.t;
  viewTypeProperty : CircuitElementViewType;
  chargePathLength : R
}.

Definition samplePointsOf (this : LightBulb) : list Vector2.t :=
  match viewTypeProperty this with
  | LIFELIKE => LIFELIKE_SAMPLE_POINTS
  | SCHEMATIC => SCHEMATIC_SAMPLE_POINTS
  end.

(** getFilamentPathPoint( index, origin, samplePoints ) *)
Definition getFilamentPathPoint (this : LightBulb) (index : nat) (origin : Vector2.t)
  (samplePoints : list Vector2.t) : Vector2.t :=
  let point := List.nth index samplePoints Vector2.ZERO in
  let startPoint := List.nth 0 samplePoints Vector2.ZERO in
  let endPoint := List.nth (length samplePoints - 1) samplePoints Vector2.ZERO in
  let x := Utils.linear (Vector2.x startPoint) (Vector2.x endPoint)
             (Vector2.x origin) (Vector2.x origin + Vector2.x (vertexDelta this))
             (Vector2.x point) in
  let y := Utils.linear (Vector2.y startPoint) (Vector2.y endPoint)
             (Vector2.y origin) (Vector2.y origin + Vector2.y (vertexDelta this))
             (Vector2.y point) in
  Vector2.mk x y.

(** The loop of getPathLength, from index [i] on. *)
Fixpoint pathLengthFrom (this : LightBulb) (samplePoints : list Vector2.t)
  (indices : list nat) (currentPoint : Vector2.t) (pathLength : R) : R :=
  match indices with
  | [] => pathLength
  | i :: rest =>
      let nextPoint := getFilamentPathPoint this i Vector2.ZERO samplePoints in
      pathLengthFrom this samplePoints rest nextPoint
        (pathLength + Vector2.distance nextPoint currentPoint)
  end.

(** getPathLength() *)
Definition getPathLength (this : LightBulb) : R :=
  let samplePoints := samplePointsOf this in
  let currentPoint := getFilamentPathPoint this 0 Vector2.ZERO samplePoints in
  pathLengthFrom this samplePoints (List.seq 1 (length samplePoints - 1))
    currentPoint 0.

(** The constructor, as far as the path is concerned. *)
Definition new (startPosition endPosition : Vector2.t)
  (viewType : CircuitElementViewType) : LightBulb :=
  let this := mkLightBulb startPosition endPosition
                (Vector2.minus endPosition startPosition) viewType 1 in
  mkLightBulb startPosition endPosition (vertexDelta this) viewType
    (getPathLength this).

(** LightBulb.createVertexPair( position, circuit, icon ): the positions
    of the start and of the end vertex. *)
Definition createVertexPair (position : Vector2.t) : Vector2.t * Vector2.t :=
  let translation := Vector2.mk 19 10 in
  let startPoint :=
    Vector2.plus
      (Vector2.mk (Vector2.x position - DISTANCE_BETWEEN_VERTICES / 2)
                  (Vector2.y position))
      translation in
  let endPoint :=
    Vector2.plus startPoint
      (Vector2.createPolar DISTANCE_BETWEEN_VERTICES (- PI / 4)) in
  (startPoint, endPoint).

(** The length of the path as the loop of updateMatrixForPoint adds it
    up: the distances between the successive points of the filament,
    placed at the bulb's start position.  getPathLength adds up the same
    distances with the points placed at (0, 0), which is the same number
    in exact arithmetic only: sums of rounded distances can differ in the
    last digits. *)
Fixpoint accumulatedDistanceFrom (this : LightBulb) (samplePoints : list Vector2.t)
  (indices : list nat) (currentPoint : Vector2.t) (accumulatedDistance : R) : R :=
  match indices with
  | [] => accumulatedDistance
  | i :: rest =>
      let nextPoint :=
        getFilamentPathPoint this i (startPositionProperty this) samplePoints in
      accumulatedDistanceFrom this samplePoints rest nextPoint
        (accumulatedDistance + Vector2.distance nextPoint currentPoint)
  end.

(** The total that the loop of updateMatrixForPoint reaches at the last
    point of the path. *)
Definition accumulatedPathLength (this : LightBulb) : R :=
  let samplePoints := samplePointsOf this in
  let currentPoint :=
    getFilamentPathPoint this 0 (startPositionProperty this) samplePoints in
  accumulatedDistanceFrom this samplePoints (List.seq 1 (length samplePoints - 1))
    currentPoint 0.

Section Angles.

Variable atan2 : R -> R -> R.
Variable super_updateMatrixForPoint : R -> Matrix3.t -> Matrix3.t.

(** Vector2's angle and rotatedAboutPoint; Matrix3's getRotation. *)
Definition angle (v : Vector2.t) : R := atan2 (Vector2.y v) (Vector2.x v).
Definition rotatedAboutPoint (v point : Vector2.t) (a : R) : Vector2.t :=
  let dx := Vector2.x v - Vector2.x point in
  let dy := Vector2.y v - Vector2.y point in
  Vector2.mk (Vector2.x point + dx * cos a - dy * sin a)
             (Vector2.y point + dx * sin a + dy * cos a).
Definition getRotation (m : Matrix3.t) : R := atan2 (Matrix3.m10 m) (Matrix3.m00 m).

(** The loop of updateMatrixForPoint, from index [i] on.  The distances
    are accumulated between the points placed at the bulb's start
    position, in the order of the loop; [None] is the throw after the
    loop.  The numbers are real numbers: how the loop's total compares
    with the number getPathLength returned at construction is not decided
    by this model to the last digit. *)
Fixpoint updateMatrixFrom (this : LightBulb) (samplePoints : list Vector2.t)
  (distanceAlongWire : R) (matrix : Matrix3.t)
  (indices : list nat) (currentPoint : Vector2.t)
  (previousAccumulatedDistance accumulatedDistance : R) : option Matrix3.t :=
  match indices with
  | [] => None
  | i :: rest =>
      let nextPoint :=
        getFilamentPathPoint this i (startPositionProperty this) samplePoints in
      let accumulatedDistance :=
        accumulatedDistance + Vector2.distance nextPoint currentPoint in
      (* Find what segment the charge is in *)
      if Rle_dec distanceAlongWire accumulatedDistance then
        let fractionAlongSegment :=
          Utils.linear previousAccumulatedDistance accumulatedDistance 0 1
            distanceAlongWire in
        let positionAlongSegment :=
          Vector2.blend currentPoint nextPoint fractionAlongSegment in
        (* rotate the point about the start vertex *)
        let startPoint := startPositionProperty this in
        let vertexDelta' := Vector2.minus (endPositionProperty this) startPoint in
        let relativeAngle := angle vertexDelta' - angle (vertexDelta this) in
        let position := rotatedAboutPoint positionAlongSegment startPoint relativeAngle in
        let angle := angle (Vector2.minus nextPoint currentPoint) in
        Some (Matrix3.setToTranslationRotationPoint position
                (angle + getRotation matrix + 7851354708011367 / 10000000000000000))
      else
        updateMatrixFrom this samplePoints distanceAlongWire matrix rest nextPoint
          accumulatedDistance accumulatedDistance
  end.

(** updateMatrixForPoint( distanceAlongWire, matrix ) *)
Definition updateMatrixForPoint (this : LightBulb) (distanceAlongWire : R)
  (matrix : Matrix3.t) : option Matrix3.t :=
  let matrix := super_updateMatrixForPoint distanceAlongWire matrix in
  let samplePoints := samplePointsOf this in
  let currentPoint :=
    getFilamentPathPoint this 0 (startPositionProperty this) samplePoints in
  updateMatrixFrom this samplePoints distanceAlongWire matrix
    (List.seq 1 (length samplePoints - 1)) currentPoint 0 0.

End Angles.

End LightBulb.

(** ** Resistor, 2015-2021 variant (js/model/Resistor.js, ES module):
    the resistor types

    The lengths of CCKCConstants are not embedded. *)

Module Resistor.
Local Open Scope R_scope.

Record Range : Type := mkRange { min : R; max : R }.

Record ResistorEnumValue : Type := mkResistorEnumValue {
  defaultResistance : R;
  range : Range;
  length : R;
  verticalOffset : R;
  isInsulator : bool;
  isMetallic : bool
}.

(** The options of the ResistorEnumValue constructor, after the merge with
    the defaults. *)
Record Options : Type := mkOptions {
  opt_verticalOffset : R;
  opt_isMetallic : bool;
  opt_isInsulator : bool
}.

Definition defaults : Options := mkOptions 0 false false.

Definition newValue (defaultResistance : R) (resistanceRange : Range) (length : R)
  (options : Options) : ResistorEnumValue :=
  mkResistorEnumValue defaultResistance resistanceRange length
    (opt_verticalOffset options) (opt_isInsulator options) (opt_isMetallic options).

(** ResistorEnumValue.fixed( resistance, length, options ) *)
Definition fixed (resistance length : R) (options : Options) : ResistorEnumValue :=
  newValue resistance (mkRange resistance resistance) length options.

Inductive ResistorType : Type :=
| RESISTOR | HIGH_RESISTANCE_RESISTOR | COIN | PAPER_CLIP | PENCIL | ERASER
| HAND | DOG | DOLLAR_BILL.

Section Constants.

Variables RESISTOR_LENGTH COIN_LENGTH PAPER_CLIP_LENGTH PENCIL_LENGTH : R.
Variables ERASER_LENGTH HAND_LENGTH DOG_LENGTH DOLLAR_BILL_LENGTH : R.

(** Resistor.ResistorType: the value of each type. *)
Definition valueOf (resistorType : ResistorType) : ResistorEnumValue :=
  match resistorType with
  | RESISTOR => newValue 10 (mkRange 0 120) RESISTOR_LENGTH defaults
  | HIGH_RESISTANCE_RESISTOR =>
      newValue 1000 (mkRange 100 10000) RESISTOR_LENGTH defaults
  | COIN => fixed 0 COIN_LENGTH (mkOptions 0 true false)
  | PAPER_CLIP => fixed 0 PAPER_CLIP_LENGTH (mkOptions 0 true false)
  | PENCIL => fixed 25 PENCIL_LENGTH defaults
  | ERASER => fixed 0 ERASER_LENGTH (mkOptions 0 false true)
  | HAND => fixed 100000 HAND_LENGTH (mkOptions 15 false false)
  | DOG => fixed 100000 DOG_LENGTH (mkOptions (-40) false false)
  | DOLLAR_BILL => fixed 0 DOLLAR_BILL_LENGTH (mkOptions 0 false true)
  end.

Record Resistor : Type := mkResistor {
  resistorType : ResistorType;
  resistanceProperty : R;
  resistanceProperty_range : Range;
  resistor_isMetallic : bool;
  numberOfDecimalPlaces : nat;
  distanceBetweenVertices : R
}.

(** The constructor, as far as the type decides. *)
Definition new (resistorType : ResistorType) : Resistor :=
  mkResistor resistorType
    (defaultResistance (valueOf resistorType))
    (range (valueOf resistorType))
    (isMetallic (valueOf resistorType))
    (match resistorType with RESISTOR => 1%nat | _ => 0%nat end)
    (length (valueOf resistorType)).

(** isResistanceEditable() *)
Definition isResistanceEditable (this : Resistor) : bool :=
  match resistorType this with
  | HIGH_RESISTANCE_RESISTOR => true
  | RESISTOR => true
  | _ => false
  end.

End Constants.

End Resistor.

(** ** CCKCUtils.setInSceneGraph (js/CCKCUtils.js)

    Nodes are told apart by an identifier; the children of a scenery
    Node are a list without repetition: addChild appends, removeChild
    takes the child out. *)

Module CCKCUtils.

Definition hasChild (parent : list nat) (child : nat) : bool :=
  existsb (Nat.eqb child) parent.

Definition addChild (parent : list nat) (child : nat) : list nat :=
  parent ++ [child].

Fixpoint removeChild (parent : list nat) (child : nat) : list nat :=
  match parent with
  | [] => []
  | c :: rest => if Nat.eqb c child then rest else c :: removeChild rest child
  end.

(** setInSceneGraph( inSceneGraph, parent, child ) *)
Definition setInSceneGraph (inSceneGraph : bool) (parent : list nat) (child : nat)
  : list nat :=
  if inSceneGraph && negb (hasChild parent child) then addChild parent child
  else if negb inSceneGraph && hasChild parent child then removeChild parent child
  else parent.

End CCKCUtils.

(** * Properties of the model and view code *)

(** ** DOT utilities *)

Module UtilsFacts.
Local Open Scope R_scope.

Lemma clamp_bounds (value lo hi : R) :
  lo <= hi -> lo <= Utils.clamp value lo hi <= hi.
Proof.
  intros Hle. unfold Utils.clamp.
  destruct (Rlt_dec value lo) as [Hlo | Hlo].
  - lra.
  - destruct (Rlt_dec hi value) as [Hhi | Hhi]; lra.
Qed.

Lemma clamp_inside (value lo hi : R) :
  lo <= value <= hi -> Utils.clamp value lo hi = value.
Proof.
  intros [H1 H2]. unfold Utils.clamp.
  destruct (Rlt_dec value lo); [lra |].
  destruct (Rlt_dec hi value); [lra | reflexivity].
Qed.

Lemma distance_nonneg (a b : Vector2.t) : 0 <= Vector2.distance a b.
Proof. unfold Vector2.distance, Vector2.magnitude. apply sqrt_pos. Qed.

Lemma distance_self (a : Vector2.t) : Vector2.distance a a = 0.
Proof.
  unfold Vector2.distance, Vector2.magnitude, Vector2.magnitudeSquared,
    Vector2.dot, Vector2.minus; simpl.
  replace ((Vector2.x a - Vector2.x a) * (Vector2.x a - Vector2.x a)
           + (Vector2.y a - Vector2.y a) * (Vector2.y a - Vector2.y a))
    with 0 by ring.
  apply sqrt_0.
Qed.

End UtilsFacts.

(** ** ACVoltage *)

Module ACVoltageFacts.
Local Open Scope R_scope.

(** The constructor leaves the phase at 0: the first call of the
    listener happens at time 0. *)
Lemma new_phase (voltage : R) :
  ACVoltageLegacy.phase (ACVoltageLegacy.new voltage) = 0.
Proof. unfold ACVoltageLegacy.new, ACVoltageLegacy.frequencyListener; simpl. ring. Qed.

(** A fresh 9 V source stepped at time 0 shows 0 V. *)
Example legacy_step_at_zero (dt : R) :
  ACVoltageLegacy.voltageProperty
    (ACVoltageLegacy.step 0 dt (ACVoltageLegacy.new 9)) = 0.
Proof.
  unfold ACVoltageLegacy.step, ACVoltageLegacy.new,
    ACVoltageLegacy.frequencyListener; simpl.
  replace (2 * PI * (1 / 2) * 0 + (2 * PI * 0 * 0 + 0 - 2 * PI * (1 / 2) * 0))
    with 0 by ring.
  rewrite sin_0. ring.
Qed.

(** With the default frequency 0.5 Hz, a quarter of a period later
    (t = 1/2) the voltage is at its maximum. *)
Example legacy_step_at_quarter_period (dt : R) :
  ACVoltageLegacy.voltageProperty
    (ACVoltageLegacy.step (1 / 2) dt (ACVoltageLegacy.new 9)) = 9.
Proof.
  unfold ACVoltageLegacy.step, ACVoltageLegacy.new,
    ACVoltageLegacy.frequencyListener; simpl.
  replace (2 * PI * (1 / 2) * (1 / 2)
           + (2 * PI * 0 * 0 + 0 - 2 * PI * (1 / 2) * 0))
    with (PI / 2) by field.
  rewrite sin_PI2. ring.
Qed.

(** A step of the older variant changes the voltage and the time and
    nothing else. *)
Lemma legacy_step_frame (t dt : R) (this : ACVoltageLegacy.ACVoltage) :
  let this' := ACVoltageLegacy.step t dt this in
  ACVoltageLegacy.maximumVoltageProperty this' = ACVoltageLegacy.maximumVoltageProperty this
  /\ ACVoltageLegacy.frequencyProperty this' = ACVoltageLegacy.frequencyProperty this
  /\ ACVoltageLegacy.phase this' = ACVoltageLegacy.phase this
  /\ ACVoltageLegacy.time this' = t.
Proof. simpl. repeat split. Qed.

(** C2.  After step( t, dt ) the voltage is Vmax * sin( 2 pi f t + phase ),
    with Vmax the maximum voltage, f the frequency and the phase of the
    element: the private phase in radians in the older variant, the phase
    Property in degrees, converted by pi / 180, in the newer one, where the
    values are those left by the step of the superclass. *)
Theorem step_sets_sine_voltage :
  (forall (t dt : R) (this : ACVoltageLegacy.ACVoltage),
      ACVoltageLegacy.voltageProperty (ACVoltageLegacy.step t dt this)
      = ACVoltageLegacy.maximumVoltageProperty this
        * sin (2 * PI * ACVoltageLegacy.frequencyProperty this * t
               + ACVoltageLegacy.phase this))
  /\
  (forall (super_step : R -> R -> ACVoltage.ACVoltage -> ACVoltage.ACVoltage)
          (t dt : R) (this : ACVoltage.ACVoltage),
      let this' := ACVoltage.step super_step t dt this in
      ACVoltage.voltageProperty this'
      = ACVoltage.maximumVoltageProperty this'
        * sin (2 * PI * ACVoltage.frequencyProperty this' * t
               + ACVoltage.phaseProperty this' * PI / 180)
      /\ ACVoltage.maximumVoltageProperty this'
         = ACVoltage.maximumVoltageProperty (super_step t dt this)
      /\ ACVoltage.frequencyProperty this'
         = ACVoltage.frequencyProperty (super_step t dt this)
      /\ ACVoltage.phaseProperty this'
         = ACVoltage.phaseProperty (super_step t dt this)).
Proof.
  split.
  - intros t dt this. reflexivity.
  - intros super_step t dt this. cbv zeta. unfold ACVoltage.step. simpl.
    repeat split.
Qed.

(** The listener alone: the new phase makes up for the change of
    frequency at the element's time. *)
Lemma frequencyListener_matches (frequency oldFrequency : R)
  (this : ACVoltageLegacy.ACVoltage) :
  2 * PI * frequency * ACVoltageLegacy.time this
  + ACVoltageLegacy.phase (ACVoltageLegacy.frequencyListener frequency oldFrequency this)
  = 2 * PI * oldFrequency * ACVoltageLegacy.time this + ACVoltageLegacy.phase this.
Proof. unfold ACVoltageLegacy.frequencyListener; simpl. ring. Qed.

(** C9.  When the frequency changes from the old to a new value at the
    element's time t, the stored phase is rewritten so that
    2 pi new t + newPhase = 2 pi old t + oldPhase: the sine argument at t
    is unchanged, the stored voltage is unchanged, and a step at that same
    time yields the same voltage as before the edit. *)
Theorem frequency_change_keeps_argument :
  forall (newFrequency dt : R) (this : ACVoltageLegacy.ACVoltage),
    let this' := ACVoltageLegacy.setFrequency newFrequency this in
    let t := ACVoltageLegacy.time this in
    ACVoltageLegacy.frequencyProperty this' = newFrequency
    /\ ACVoltageLegacy.time this' = t
    /\ 2 * PI * newFrequency * t + ACVoltageLegacy.phase this'
       = 2 * PI * ACVoltageLegacy.frequencyProperty this * t + ACVoltageLegacy.phase this
    /\ ACVoltageLegacy.argument this' = ACVoltageLegacy.argument this
    /\ ACVoltageLegacy.voltageProperty this' = ACVoltageLegacy.voltageProperty this
    /\ ACVoltageLegacy.voltageProperty (ACVoltageLegacy.step t dt this')
       = ACVoltageLegacy.voltageProperty (ACVoltageLegacy.step t dt this).
Proof.
  intros newFrequency dt this. cbv zeta.
  unfold ACVoltageLegacy.setFrequency.
  destruct (Req_dec_T newFrequency (ACVoltageLegacy.frequencyProperty this)) as [Heq | Hne].
  - rewrite <- Heq. repeat split; reflexivity.
  - unfold ACVoltageLegacy.argument, ACVoltageLegacy.step,
      ACVoltageLegacy.frequencyListener; simpl.
    repeat split; try ring.
    f_equal. f_equal. ring.
Qed.

End ACVoltageFacts.

(** ** CCKCScreenView.stepOnce *)

Module CCKCScreenViewFacts.
Local Open Scope R_scope.

(** C3.  A step whose dt is at or above MAX_DT is skipped: stepOnce
    returns normally, the view (chart nodes and time) is as before, and no
    chart node was stepped. *)
Theorem stepOnce_skips_large_dt :
  forall (MAX_DT : R) (ChartNode : Type)
         (chartNode_step : R -> R -> ChartNode -> ChartNode)
         (dt : R) (this : CCKCScreenView.ScreenView ChartNode),
    MAX_DT <= dt ->
    CCKCScreenView.stepOnce MAX_DT ChartNode chartNode_step dt this = (this, []).
Proof.
  intros MAX_DT ChartNode chartNode_step dt this Hdt.
  unfold CCKCScreenView.stepOnce.
  destruct (Rle_dec MAX_DT dt) as [_ | Hn]; [reflexivity | contradiction].
Qed.

Lemma stepOnce_skips_large_dt_witness :
  CCKCScreenView.stepOnce (1/2) nat (fun _ _ n => S n) 1
    (CCKCScreenView.mkScreenView nat [0%nat; 5%nat] 3)
  = (CCKCScreenView.mkScreenView nat [0%nat; 5%nat] 3, []).
Proof. apply stepOnce_skips_large_dt. lra. Defined.

(** Below the threshold every chart node is stepped once, in order, with
    the circuit's time and dt. *)
Lemma stepOnce_steps_small_dt :
  forall (MAX_DT : R) (ChartNode : Type)
         (chartNode_step : R -> R -> ChartNode -> ChartNode)
         (dt : R) (this : CCKCScreenView.ScreenView ChartNode),
    dt < MAX_DT ->
    let r := CCKCScreenView.stepOnce MAX_DT ChartNode chartNode_step dt this in
    CCKCScreenView.chartNodes ChartNode (fst r)
    = map (chartNode_step (CCKCScreenView.circuit_time ChartNode this) dt)
          (CCKCScreenView.chartNodes ChartNode this)
    /\ length (snd r) = length (CCKCScreenView.chartNodes ChartNode this).
Proof.
  intros MAX_DT ChartNode chartNode_step dt this Hdt. cbv zeta.
  unfold CCKCScreenView.stepOnce.
  destruct (Rle_dec MAX_DT dt) as [Hle | _]; [lra |].
  simpl. split; [reflexivity |].
  rewrite length_map, length_seq. reflexivity.
Qed.

End CCKCScreenViewFacts.

(** ** Light bulb brightness *)

Module LightBulbFacts.
Local Open Scope R_scope.
Import CCKLightBulbNode.

Lemma power_bounds (current voltageDifference : R) :
  minPower <= power current voltageDifference <= maxPower * 15.
Proof.
  unfold power, minPower, maxPower, Rmax, Rmin.
  destruct (Rle_dec (Rabs (current * voltageDifference)) (60 * 15)) as [H1 | H1];
    match goal with
    | |- context [Rle_dec ?a ?b] => destruct (Rle_dec a b) as [H2 | H2]
    end; lra.
Qed.

(** At the lower bound the power is the floor itself, which happens
    exactly when the unbounded power does not exceed it. *)
Lemma power_at_floor (current voltageDifference : R) :
  power current voltageDifference <= minPower
  <-> Rabs (current * voltageDifference) <= minPower.
Proof.
  unfold power, minPower, maxPower, Rmax, Rmin.
  destruct (Rle_dec (Rabs (current * voltageDifference)) (60 * 15)) as [H1 | H1];
    match goal with
    | |- context [Rle_dec ?a ?b] => destruct (Rle_dec a b) as [H2 | H2]
    end; split; intros H; lra.
Qed.

(** At 60 W (6 A across 10 V) the brightness is 0.4 in both variants. *)
Example brightness_at_maxPower (running : bool) :
  updateBrightnessCommon 6 running 10 = 4 / 10
  /\ updateBrightness 6 running 10 = 4 / 10.
Proof.
  assert (Hp : power 6 10 = 60).
  { unfold power, maxPower, minPower.
    replace (6 * 10) with 60 by ring.
    rewrite Rabs_pos_eq by lra.
    rewrite Rmin_left by lra. rewrite Rmax_left by lra. reflexivity. }
  assert (Hraw : rawBrightness 60 = 4 / 10).
  { unfold rawBrightness, maxPower, Rpower.
    replace (60 / 60) with 1 by field.
    rewrite ln_1, Rmult_0_r, exp_0. ring. }
  unfold updateBrightnessCommon, updateBrightness. rewrite Hp, Hraw.
  unfold minPower.
  destruct (Rle_dec 60 (1 / 1000000)) as [H | _]; [lra |].
  split; apply UtilsFacts.clamp_inside; lra.
Qed.

(** Without current the newer variant is dark. *)
Example brightness_without_current (running : bool) (voltageDifference : R) :
  updateBrightness 0 running voltageDifference = 0.
Proof.
  assert (Hp : power 0 voltageDifference = minPower).
  { unfold power, maxPower, minPower.
    rewrite Rmult_0_l, Rabs_R0.
    rewrite Rmin_left by lra. rewrite Rmax_right by lra. reflexivity. }
  unfold updateBrightness. rewrite Hp.
  destruct (Rle_dec minPower minPower) as [_ | H]; [| lra].
  apply UtilsFacts.clamp_inside. lra.
Qed.

(** A brightness outside [0, 1] fails the assertion of a visible node
    that shows more than the base. *)
Example update_rejects_brightness_2 :
  CustomLightBulbNode.update
    (CustomLightBulbNode.mkNode true false 2 false 0 0) = None.
Proof.
  unfold CustomLightBulbNode.update; simpl.
  destruct (Rle_dec 0 2) as [_ | H]; [| lra].
  destruct (Rle_dec 2 1) as [H | _]; [lra | reflexivity].
Qed.

(** A brightness in [0, 1] passes the assertion of update. *)
Lemma update_accepts (node : CustomLightBulbNode.CustomLightBulbNode) :
  0 <= CustomLightBulbNode.brightnessProperty node <= 1 ->
  CustomLightBulbNode.update node <> None.
Proof.
  intros [H0 H1]. unfold CustomLightBulbNode.update.
  destruct (CustomLightBulbNode.visible node
            && negb (CustomLightBulbNode.baseOnly node))%bool; [| discriminate].
  destruct (Rle_dec 0 (CustomLightBulbNode.brightnessProperty node)); [| contradiction].
  destruct (Rle_dec (CustomLightBulbNode.brightnessProperty node) 1); [| contradiction].
  discriminate.
Qed.

(** C10.  For all real current and voltage difference, the power
    |current * voltageDifference| bounded to [1e-6, 900] gives, through
    (power/60)^0.354 * 0.4 clamped to [0, 1], a brightness in [0, 1] in
    both variants; the newer variant gives 0 when the power is at most
    1e-6; and a node holding either brightness passes the assertion of
    CustomLightBulbNode.update. *)
Theorem brightness_in_unit_interval :
  forall (current voltageDifference : R) (running : bool),
    let p := power current voltageDifference in
    let older := updateBrightnessCommon current running voltageDifference in
    let newer := updateBrightness current running voltageDifference in
    1 / 1000000 <= p <= 900
    /\ older = Utils.clamp (Rpower (p / 60) (354 / 1000) * (4 / 10)) 0 1
    /\ 0 <= older <= 1
    /\ 0 <= newer <= 1
    /\ (p <= 1 / 1000000 -> newer = 0)
    /\ (1 / 1000000 < p ->
        newer = Utils.clamp (Rpower (p / 60) (354 / 1000) * (4 / 10)) 0 1)
    /\ (forall node : CustomLightBulbNode.CustomLightBulbNode,
           CustomLightBulbNode.brightnessProperty node = older
           \/ CustomLightBulbNode.brightnessProperty node = newer ->
           CustomLightBulbNode.update node <> None).
Proof.
  intros current voltageDifference running. cbv zeta.
  pose proof (power_bounds current voltageDifference) as Hp.
  unfold minPower, maxPower in Hp.
  assert (Hold : 0 <= updateBrightnessCommon current running voltageDifference <= 1).
  { unfold updateBrightnessCommon. apply UtilsFacts.clamp_bounds. lra. }
  assert (Hnew : 0 <= updateBrightness current running voltageDifference <= 1).
  { unfold updateBrightness. apply UtilsFacts.clamp_bounds. lra. }
  split; [lra |].
  split; [reflexivity |].
  split; [exact Hold |].
  split; [exact Hnew |].
  split.
  { intros Hle. unfold updateBrightness, minPower.
    destruct (Rle_dec (power current voltageDifference) (1 / 1000000)); [| contradiction].
    apply UtilsFacts.clamp_inside. lra. }
  split.
  { intros Hlt. unfold updateBrightness, minPower, rawBrightness, maxPower.
    destruct (Rle_dec (power current voltageDifference) (1 / 1000000)); [lra | reflexivity]. }
  intros node [Hn | Hn]; apply update_accepts; rewrite Hn; assumption.
Qed.

End LightBulbFacts.

(** ** Voltmeter read-out *)

Module CircuitLayerNodeFacts.
Local Open Scope R_scope.
Import Vertex CircuitLayerNode.

Lemma hitsSolder_true (probePosition : Vector2.t) (s : SolderNode.SolderNode) :
  hitsSolder probePosition s = true
  <-> Vector2.distance probePosition (positionProperty (SolderNode.vertex s))
      <= SolderNode.SOLDER_RADIUS.
Proof.
  unfold hitsSolder.
  destruct (Rle_dec _ _) as [H | H]; split; intros H'; try assumption;
    try reflexivity; try discriminate; contradiction.
Qed.

(** A probe within the solder radius of some vertex gets a connection to
    the first such vertex, with that vertex's voltage. *)
Lemma getVoltageConnection_solder (this : CircuitLayerNode)
  (probePosition : Vector2.t) (s : SolderNode.SolderNode) :
  In s (solderNodes this) ->
  Vector2.distance probePosition (positionProperty (SolderNode.vertex s))
    <= SolderNode.SOLDER_RADIUS ->
  exists hit,
    In hit (solderNodes this)
    /\ Vector2.distance probePosition (positionProperty (SolderNode.vertex hit))
       <= SolderNode.SOLDER_RADIUS
    /\ getVoltageConnection this probePosition
       = Some (mkVoltageConnection (SolderNode.vertex hit)
                 (voltageProperty (SolderNode.vertex hit))).
Proof.
  intros Hin Hd. unfold getVoltageConnection.
  destruct (find (hitsSolder probePosition) (solderNodes this)) as [hit |] eqn:Hf.
  - apply find_some in Hf. destruct Hf as [Hhit Htrue].
    exists hit. split; [exact Hhit |]. split; [| reflexivity].
    apply hitsSolder_true. exact Htrue.
  - pose proof (find_none _ _ Hf s Hin) as Hfalse.
    apply hitsSolder_true in Hd. congruence.
Qed.

(** Two connected vertices outside the black box at 9 V and 0 V read as
    9 - 0; the same probes read null when the vertices are not
    connected. *)
Example getVoltage_connected (connected : bool) :
  let red := mkVertex 1 (Vector2.mk 0 0) 9 false in
  let black := mkVertex 2 (Vector2.mk 100 0) 0 false in
  getVoltage (mkCircuitLayerNode [] [] (fun _ _ => connected) false)
    (Some (mkVoltageConnection red 9)) (Some (mkVoltageConnection black 0))
  = if connected then Some (9 - 0) else None.
Proof. destruct connected; reflexivity. Qed.

(** A probe 5 units from a vertex at 9 V, with solder there, reads 9 V. *)
Example getVoltageConnection_near_vertex :
  let v := mkVertex 1 (Vector2.mk 0 0) 9 false in
  getVoltageConnection
    (mkCircuitLayerNode [SolderNode.mkSolderNode v] [] (fun _ _ => true) false)
    (Vector2.mk 3 4)
  = Some (mkVoltageConnection v 9).
Proof.
  cbv zeta. unfold getVoltageConnection; simpl. unfold hitsSolder; simpl.
  destruct (Rle_dec _ _) as [_ | H]; [reflexivity |].
  exfalso. apply H.
  unfold Vector2.distance, Vector2.magnitude, Vector2.magnitudeSquared,
    Vector2.dot, Vector2.minus, SolderNode.SOLDER_RADIUS; simpl.
  replace ((3 - 0) * (3 - 0) + (4 - 0) * (4 - 0)) with (5 * 5) by ring.
  rewrite sqrt_square by lra. lra.
Qed.

(** C7.  getVoltage returns null exactly when a connection is null, the
    two probed vertices are not electrically connected, or a probed vertex
    is inside the black box while it is not revealed; in every other case
    it returns the red voltage minus the black voltage.  A probe that
    touches the solder region of a vertex gets a connection that carries
    the voltage of a vertex whose solder it touches (the first in the
    layer's order; that very vertex when it is the only one touched). *)
Theorem getVoltage_reads_connections :
  forall (this : CircuitLayerNode),
    (forall red black : option VoltageConnection,
        getVoltage this red black = None
        <-> (red = None \/ black = None
             \/ exists r b, red = Some r /\ black = Some b
                /\ (areVerticesElectricallyConnected this (vertex r) (vertex b) = false
                    \/ (insideTrueBlackBoxProperty (vertex r) = true
                        /\ revealingProperty this = false)
                    \/ (insideTrueBlackBoxProperty (vertex b) = true
                        /\ revealingProperty this = false))))
    /\ (forall (r b : VoltageConnection) (v : R),
           getVoltage this (Some r) (Some b) = Some v ->
           v = voltage r - voltage b)
    /\ (forall (probePosition : Vector2.t) (s : SolderNode.SolderNode),
           In s (solderNodes this) ->
           Vector2.distance probePosition (positionProperty (SolderNode.vertex s))
             <= SolderNode.SOLDER_RADIUS ->
           (exists hit,
               In hit (solderNodes this)
               /\ Vector2.distance probePosition
                    (positionProperty (SolderNode.vertex hit))
                  <= SolderNode.SOLDER_RADIUS
               /\ getVoltageConnection this probePosition
                  = Some (mkVoltageConnection (SolderNode.vertex hit)
                            (voltageProperty (SolderNode.vertex hit))))
           /\ ((forall s', In s' (solderNodes this) ->
                  Vector2.distance probePosition
                    (positionProperty (SolderNode.vertex s'))
                  <= SolderNode.SOLDER_RADIUS ->
                  SolderNode.vertex s' = SolderNode.vertex s) ->
               getVoltageConnection this probePosition
               = Some (mkVoltageConnection (SolderNode.vertex s)
                         (voltageProperty (SolderNode.vertex s))))).
Proof.
  intros this. split; [| split].
  - intros red black. unfold getVoltage.
    destruct red as [r |]; [| split; [intros _; left; reflexivity | reflexivity]].
    destruct black as [b |];
      [| split; [intros _; right; left; reflexivity | reflexivity]].
    destruct (areVerticesElectricallyConnected this (vertex r) (vertex b)) eqn:Hc;
      destruct (insideTrueBlackBoxProperty (vertex r)) eqn:Hr;
      destruct (insideTrueBlackBoxProperty (vertex b)) eqn:Hb;
      destruct (revealingProperty this) eqn:Hv; simpl;
      split; intros H; try reflexivity; try discriminate;
      try (right; right; exists r, b; rewrite Hc, Hr, Hb;
           repeat split; try reflexivity; tauto);
      try (destruct H as [H | [H | (r' & b' & Hr' & Hb' & H)]];
           [discriminate | discriminate |];
           injection Hr' as <-; injection Hb' as <-;
           rewrite Hc, Hr, Hb in H;
           destruct H as [H | [[H1 H2] | [H1 H2]]]; discriminate).
  - intros r b v. unfold getVoltage.
    destruct (negb _); [discriminate |].
    destruct (_ && _)%bool; [discriminate |].
    destruct (_ && _)%bool; [discriminate |].
    intros H; injection H as <-. reflexivity.
  - intros probePosition s Hin Hd.
    destruct (getVoltageConnection_solder this probePosition s Hin Hd)
      as (hit & Hhit & Hdist & Hget).
    split.
    + exists hit. repeat split; assumption.
    + intros Huniq. rewrite Hget, (Huniq hit Hhit Hdist). reflexivity.
Qed.

End CircuitLayerNodeFacts.

(** ** FixedLengthCircuitElement *)

Module FixedLengthCircuitElementFacts.
Local Open Scope R_scope.
Import Vertex.

(** The constructor succeeds exactly when the measured distance between
    the two vertex positions is within 1e-6 of the given length. *)
Lemma new_checks_length (d : R) (startVertex endVertex : Vertex) :
  FixedLengthCircuitElement.new d startVertex endVertex <> None
  <-> Rabs (d - Vector2.distance (positionProperty startVertex)
                                 (positionProperty endVertex)) < 1 / 1000000.
Proof.
  unfold FixedLengthCircuitElement.new.
  destruct (Rlt_dec _ _) as [H | H]; split; intros H';
    try assumption; try discriminate; try contradiction.
Qed.

(** An element constructed with a length of at least 1e-6 has its two
    vertices at different positions, hence two different vertices. *)
Lemma new_distinct_vertices (d : R) (startVertex endVertex : Vertex)
  (e : FixedLengthCircuitElement.FixedLengthCircuitElement) :
  1 / 1000000 <= d ->
  FixedLengthCircuitElement.new d startVertex endVertex = Some e ->
  FixedLengthCircuitElement.startVertex e <> FixedLengthCircuitElement.endVertex e.
Proof.
  intros Hd Hnew. unfold FixedLengthCircuitElement.new in Hnew.
  destruct (Rlt_dec _ _) as [H | H]; [| discriminate].
  injection Hnew as <-. simpl. intros Heq. rewrite Heq in H.
  rewrite UtilsFacts.distance_self in H.
  rewrite Rminus_0_r in H.
  rewrite Rabs_pos_eq in H by lra. lra.
Qed.

End FixedLengthCircuitElementFacts.

(** * Properties of the circuit solver *)

Module SolverFacts.
Local Open Scope Qc_scope.
Import Solver.

(** *** Gaussian elimination *)

Lemma Qcabs_zero : Qcabs 0 = 0.
Proof. apply Qc_is_canon. reflexivity. Qed.

Lemma selectPivot_spec (eqs : list Equation) (p : Equation) (rest : list Equation) :
  selectPivot eqs = Some (p, rest) ->
  lead p <> 0
  /\ In p eqs
  /\ (forall e, In e rest -> In e eqs)
  /\ (forall e, In e eqs -> e = p \/ In e rest).
Proof.
  revert p rest. induction eqs as [| e es IH]; intros p rest H; simpl in H.
  - discriminate.
  - destruct (selectPivot es) as [[p' rest'] |] eqn:Hs.
    + destruct (IH p' rest' eq_refl) as (Hp & Hin & Hsub & Hcov).
      destruct (Qcltb (Qcabs (lead p')) (Qcabs (lead e))) eqn:Hlt.
      * injection H as <- <-. repeat split.
        -- unfold Qcltb in Hlt.
           destruct (Qclt_le_dec _ _) as [Hl |]; [| discriminate].
           intros He. rewrite He, Qcabs_zero in Hl.
           apply (Qclt_not_le _ _ Hl). apply Qcabs_nonneg.
        -- left; reflexivity.
        -- intros e0 H0; right; exact H0.
        -- intros e0 [<- | H0]; [left; reflexivity | right; exact H0].
      * injection H as <- <-. repeat split.
        -- exact Hp.
        -- right; exact Hin.
        -- intros e0 [<- | H0]; [left; reflexivity | right; apply Hsub, H0].
        -- intros e0 [<- | H0]; [right; left; reflexivity |].
           destruct (Hcov e0 H0) as [-> | H1];
             [left; reflexivity | right; right; exact H1].
    + destruct (Qc_eq_dec (lead e) 0) as [| Hne]; [discriminate |].
      injection H as <- <-. repeat split.
      * exact Hne.
      * left; reflexivity.
      * intros e0 H0; right; exact H0.
      * intros e0 [<- | H0]; [left; reflexivity | right; exact H0].
Qed.

Lemma dot_axpy (f : Qc) (p e x : list Qc) :
  length p = length e ->
  dot (axpy f p e) x = dot e x - f * dot p x.
Proof.
  revert p x. induction e as [| e0 e' IH]; intros p x Hlen.
  - destruct p; [| discriminate]. simpl. ring.
  - destruct p as [| p0 p']; [discriminate |]. simpl in Hlen.
    destruct x as [| x0 x']; simpl.
    + ring.
    + rewrite IH by lia. ring.
Qed.

Lemma length_axpy (f : Qc) (p e : list Qc) : length (axpy f p e) = length e.
Proof.
  revert p. induction e as [| e0 e' IH]; intros p; destruct p; simpl; auto.
Qed.

(** Gaussian elimination is sound: a vector it returns has one entry per
    unknown and satisfies every equation it was given. *)
Lemma solveSystem_sound (n : nat) : forall (eqs : list Equation) (x : list Qc),
  (forall e, In e eqs -> length (fst e) = n) ->
  solveSystem n eqs = Some x ->
  length x = n /\ forall e, In e eqs -> dot (fst e) x = snd e.
Proof.
  induction n as [| n IH]; intros eqs x Hwf H; simpl in H.
  - match type of H with
    | context [forallb ?f eqs] => destruct (forallb f eqs) eqn:Hall
    end; [| discriminate].
    injection H as <-. split; [reflexivity |].
    intros e He. rewrite forallb_forall in Hall.
    specialize (Hall e He). apply Qc_eq_bool_correct in Hall.
    specialize (Hwf e He). destruct (fst e); [| discriminate].
    simpl. symmetry; exact Hall.
  - destruct (selectPivot eqs) as [[p rest] |] eqn:Hs; [| discriminate].
    destruct (solveSystem n (map (eliminate p) rest)) as [xs |] eqn:Hr;
      [| discriminate].
    injection H as <-.
    destruct (selectPivot_spec _ _ _ Hs) as (Hp & Hin & Hsub & Hcov).
    assert (Hplen := Hwf p Hin).
    destruct p as [pc pb]. simpl in *.
    destruct pc as [| p0 pt]; [discriminate |]. simpl in Hplen.
    unfold lead in Hp; simpl in Hp.
    destruct (IH (map (eliminate (p0 :: pt, pb)) rest) xs) as [Hlen Hsol].
    { intros e He. apply in_map_iff in He. destruct He as (e' & <- & He').
      simpl. rewrite length_axpy.
      specialize (Hwf e' (Hsub e' He')). destruct (fst e'); simpl in *; lia. }
    { exact Hr. }
    split; [simpl; lia |].
    assert (Hpiv : p0 * ((pb - dot pt xs) / p0) + dot pt xs = pb)
      by (field; exact Hp).
    intros e He. destruct (Hcov e He) as [-> | Hrest].
    + simpl. unfold lead; simpl. exact Hpiv.
    + specialize (Hsol (eliminate (p0 :: pt, pb) e) (in_map _ _ _ Hrest)).
      specialize (Hwf e He).
      destruct e as [ec eb]. simpl in *. destruct ec as [| e0 et]; [discriminate |].
      simpl in *. unfold lead in Hsol; simpl in Hsol.
      rewrite dot_axpy in Hsol by lia.
      unfold lead; simpl.
      assert (Het : dot et xs = eb - e0 / p0 * pb + e0 / p0 * dot pt xs).
      { rewrite <- Hsol. ring. }
      rewrite Het. field. exact Hp.
Qed.

(** *** Local recovery of a singular system *)

Lemma selectPivot_none (eqs : list Equation) :
  selectPivot eqs = None -> forall e, In e eqs -> lead e = 0.
Proof.
  induction eqs as [| e es IH]; intros H e0 He0; simpl in *; [contradiction |].
  destruct (selectPivot es) as [[p rest] |].
  - destruct (Qcltb _ _); discriminate.
  - destruct (Qc_eq_dec (lead e) 0) as [Hz | Hnz]; [| discriminate].
    destruct He0 as [<- | He0]; [exact Hz | exact (IH eq_refl e0 He0)].
Qed.

Lemma recoverSystem_pivot (n : nat) (eqs : list Equation) (p : Equation)
  (rest : list Equation) :
  selectPivot eqs = Some (p, rest) ->
  recoverSystem (S n) eqs
  = ((snd p - dot (tl (fst p)) (fst (recoverSystem n (map (eliminate p) rest))))
     / lead p :: fst (recoverSystem n (map (eliminate p) rest)),
     snd (recoverSystem n (map (eliminate p) rest))).
Proof. intros H. simpl. rewrite H. reflexivity. Qed.

Lemma recoverSystem_free (n : nat) (eqs : list Equation) :
  selectPivot eqs = None ->
  recoverSystem (S n) eqs
  = (0 :: fst (recoverSystem n (map dropLead eqs)),
     snd (recoverSystem n (map dropLead eqs))).
Proof. intros H. simpl. rewrite H. reflexivity. Qed.

(** The recovery is sound: when it reports success, the vector it
    returns has one entry per unknown and satisfies every equation. *)
Lemma recoverSystem_sound (n : nat) : forall (eqs : list Equation),
  (forall e, In e eqs -> length (fst e) = n) ->
  snd (recoverSystem n eqs) = true ->
  length (fst (recoverSystem n eqs)) = n
  /\ forall e, In e eqs -> dot (fst e) (fst (recoverSystem n eqs)) = snd e.
Proof.
  induction n as [| n IH]; intros eqs Hwf H.
  - simpl in *. split; [reflexivity |].
    intros e He. rewrite forallb_forall in H.
    specialize (H e He). apply Qc_eq_bool_correct in H.
    specialize (Hwf e He). destruct (fst e); [| discriminate].
    simpl. symmetry; exact H.
  - destruct (selectPivot eqs) as [[p rest] |] eqn:Hs.
    + rewrite (recoverSystem_pivot n eqs p rest Hs) in *. simpl fst in *. simpl snd in H.
      destruct (selectPivot_spec _ _ _ Hs) as (Hp & Hin & Hsub & Hcov).
      assert (Hplen := Hwf p Hin).
      destruct (IH (map (eliminate p) rest)) as [Hlen Hsol].
      { intros e He. apply in_map_iff in He. destruct He as (e' & <- & He').
        simpl. rewrite length_axpy.
        specialize (Hwf e' (Hsub e' He')). destruct (fst e'); simpl in *; lia. }
      { exact H. }
      set (xs := fst (recoverSystem n (map (eliminate p) rest))) in *.
      split; [simpl; lia |].
      destruct p as [pc pb]. simpl in *.
      destruct pc as [| p0 pt]; [discriminate |]. simpl in Hplen.
      unfold lead in Hp; simpl in Hp. unfold lead; simpl.
      assert (Hpiv : p0 * ((pb - dot pt xs) / p0) + dot pt xs = pb)
        by (field; exact Hp).
      intros e He. destruct (Hcov e He) as [-> | Hrest].
      * simpl. exact Hpiv.
      * specialize (Hsol (eliminate (p0 :: pt, pb) e) (in_map _ _ _ Hrest)).
        specialize (Hwf e He).
        destruct e as [ec eb]. simpl in *. destruct ec as [| e0 et]; [discriminate |].
        simpl in *. unfold lead in Hsol; simpl in Hsol.
        rewrite dot_axpy in Hsol by lia.
        assert (Het : dot et xs = eb - e0 / p0 * pb + e0 / p0 * dot pt xs).
        { rewrite <- Hsol. ring. }
        rewrite Het. field. exact Hp.
    + rewrite (recoverSystem_free n eqs Hs) in *. simpl fst in *. simpl snd in H.
      destruct (IH (map dropLead eqs)) as [Hlen Hsol].
      { intros e He. apply in_map_iff in He. destruct He as (e' & <- & He').
        simpl. specialize (Hwf e' He'). destruct (fst e'); simpl in *; lia. }
      { exact H. }
      split; [simpl; lia |].
      intros e He.
      pose proof (selectPivot_none eqs Hs e He) as Hlead.
      specialize (Hsol (dropLead e) (in_map _ _ _ He)).
      specialize (Hwf e He).
      destruct e as [ec eb]. simpl in *. destruct ec as [| e0 et]; [discriminate |].
      unfold lead in Hlead; simpl in Hlead. simpl in *.
      rewrite Hsol, Hlead. ring.
Qed.

(** The recovery is complete: it reports success whenever the equations
    have a solution at all. *)
Lemma recoverSystem_complete (n : nat) : forall (eqs : list Equation) (y : list Qc),
  (forall e, In e eqs -> length (fst e) = n) ->
  length y = n ->
  (forall e, In e eqs -> dot (fst e) y = snd e) ->
  snd (recoverSystem n eqs) = true.
Proof.
  induction n as [| n IH]; intros eqs y Hwf Hy Hsat.
  - simpl. apply forallb_forall. intros e He.
    specialize (Hsat e He). specialize (Hwf e He).
    destruct (fst e); [| discriminate]. simpl in Hsat.
    rewrite <- Hsat. unfold Qc_eq_bool.
    destruct (Qc_eq_dec 0 0) as [_ | Hne]; [reflexivity | contradiction Hne; reflexivity].
  - destruct y as [| y0 yt]; [discriminate |]. simpl in Hy.
    destruct (selectPivot eqs) as [[p rest] |] eqn:Hs.
    + rewrite (recoverSystem_pivot n eqs p rest Hs). simpl snd.
      destruct (selectPivot_spec _ _ _ Hs) as (Hp & Hin & Hsub & Hcov).
      apply (IH _ yt); [| lia |].
      * intros e He. apply in_map_iff in He. destruct He as (e' & <- & He').
        simpl. rewrite length_axpy.
        specialize (Hwf e' (Hsub e' He')). destruct (fst e'); simpl in *; lia.
      * intros e He. apply in_map_iff in He. destruct He as (e' & <- & He').
        pose proof (Hsat p Hin) as Hsp. pose proof (Hsat e' (Hsub e' He')) as Hse.
        pose proof (Hwf p Hin) as Hlp. pose proof (Hwf e' (Hsub e' He')) as Hle.
        destruct p as [pc pb], e' as [ec eb]. simpl in *.
        destruct pc as [| p0 pt]; [discriminate |].
        destruct ec as [| e0 et]; [discriminate |].
        simpl in *. unfold lead in *; simpl in *.
        rewrite dot_axpy by lia.
        assert (H1 : dot et yt = eb - e0 * y0) by (rewrite <- Hse; ring).
        assert (H2 : dot pt yt = pb - p0 * y0) by (rewrite <- Hsp; ring).
        rewrite H1, H2. field. exact Hp.
    + rewrite (recoverSystem_free n eqs Hs). simpl snd.
      apply (IH _ yt); [| lia |].
      * intros e He. apply in_map_iff in He. destruct He as (e' & <- & He').
        simpl. specialize (Hwf e' He'). destruct (fst e'); simpl in *; lia.
      * intros e He. apply in_map_iff in He. destruct He as (e' & <- & He').
        pose proof (selectPivot_none eqs Hs e' He') as Hlead.
        pose proof (Hsat e' He') as Hse. pose proof (Hwf e' He') as Hle.
        destruct e' as [ec eb]. simpl in *.
        destruct ec as [| e0 et]; [discriminate |].
        unfold lead in Hlead; simpl in *. rewrite <- Hse, Hlead. ring.
Qed.

(** *** Point updates of vectors and matrices *)

Lemma length_addAt (c : nat) (v : Qc) (row : list Qc) :
  length (addAt c v row) = length row.
Proof.
  revert c. induction row as [| a r IH]; intros c; destruct c; simpl; auto.
Qed.



Lemma length_applyAt (r : nat) (f : list Qc -> list Qc) (m : list (list Qc)) :
  length (applyAt r f m) = length m.
Proof.
  revert r. induction m as [| row m' IH]; intros r; destruct r; simpl; auto.
Qed.


Lemma in_applyAt (r : nat) (f : list Qc -> list Qc) (m : list (list Qc))
  (row : list Qc) :
  In row (applyAt r f m) -> In row m \/ exists row', In row' m /\ row = f row'.
Proof.
  revert r. induction m as [| a m' IH]; intros r H; destruct r; simpl in *;
    try contradiction.
  - destruct H as [<- | H]; [right; exists a; auto | left; auto].
  - destruct H as [<- | H]; [left; auto |].
    destruct (IH r H) as [H' | (row' & H1 & H2)];
      [left; auto | right; exists row'; auto].
Qed.



(** *** Sizes are kept by stamping *)

Lemma wellSized_zero (N : nat) : wellSized N (zeroSystem N).
Proof.
  unfold wellSized, zeroSystem; simpl. repeat split.
  - apply repeat_length.
  - intros row H. apply repeat_spec in H. subst. apply repeat_length.
  - apply repeat_length.
Qed.

Lemma wellSized_addEntry (N : nat) (r c : option nat) (v : Qc) (s : System) :
  wellSized N s -> wellSized N (addEntry r c v s).
Proof.
  intros (H1 & H2 & H3). destruct r as [r |]; destruct c as [c |]; simpl;
    try (repeat split; assumption).
  repeat split; simpl.
  - rewrite length_applyAt. exact H1.
  - intros row H. apply in_applyAt in H.
    destruct H as [H | (row' & H & ->)]; [auto |].
    rewrite length_addAt. auto.
  - exact H3.
Qed.

Lemma wellSized_addRhs (N : nat) (r : option nat) (v : Qc) (s : System) :
  wellSized N s -> wellSized N (addRhs r v s).
Proof.
  intros (H1 & H2 & H3). destruct r as [r |]; simpl;
    try (repeat split; assumption).
  repeat split; simpl; try assumption.
  rewrite length_addAt. exact H3.
Qed.

Lemma wellSized_stamp (N : nat) (a b : option nat) (aux : nat) (br : Branch)
  (s : System) :
  wellSized N s -> wellSized N (stamp a b aux br s).
Proof.
  intros H. destruct br; cbv beta iota delta [stamp];
    repeat (first [apply wellSized_addRhs | apply wellSized_addEntry]); exact H.
Qed.

(** *** What one stamp does to the residual of one row *)





(** *** Node indices *)







(** *** The stamped system states the current law at every indexed node *)

Lemma countSources_cons (k : Constants) (dt time : Qc) (e : Edge) (es : list Edge) :
  countSources k dt time (e :: es)
  = ((if isSource (companion k dt time (edgeKind e)) then 1 else 0)
     + countSources k dt time es)%nat.
Proof.
  unfold countSources. simpl.
  destruct (isSource (companion k dt time (edgeKind e))); reflexivity.
Qed.

Lemma wellSized_stampAll (k : Constants) (vs : list nat) (n N : nat) (dt time : Qc) :
  forall (es : list Edge) (j : nat) (s : System),
    wellSized N s -> wellSized N (stampAll k vs n dt time j es s).
Proof.
  induction es as [| e es IH]; intros j s Hs; simpl; [exact Hs |].
  apply IH. apply wellSized_stamp. exact Hs.
Qed.



(** A vector that satisfies the equations of a system has residual 0 in
    every row. *)
Lemma equations_residual (N : nat) (s : System) (x : list Qc) (i : nat) :
  wellSized N s ->
  (forall e, In e (combine (matrix s) (rhs s)) -> dot (fst e) x = snd e) ->
  (i < N)%nat ->
  residual s x i = 0.
Proof.
  intros (H1 & H2 & H3) Hall Hi. unfold residual.
  specialize (Hall (nth i (matrix s) [], nth i (rhs s) 0)).
  simpl in Hall. rewrite Hall; [ring |].
  rewrite <- combine_nth by lia.
  apply nth_In. rewrite length_combine. lia.
Qed.

Lemma equations_wellFormed (N : nat) (s : System) :
  wellSized N s ->
  forall e, In e (combine (matrix s) (rhs s)) -> length (fst e) = N.
Proof.
  intros (H1 & H2 & H3) [row b] Hin. apply in_combine_l in Hin. simpl. auto.
Qed.

(** A solution of the stamped equations has residual 0 in every row. *)
Lemma solveSystem_residual (N : nat) (s : System) (x : list Qc) (i : nat) :
  wellSized N s ->
  solveSystem N (combine (matrix s) (rhs s)) = Some x ->
  (i < N)%nat ->
  residual s x i = 0.
Proof.
  intros Hs Hsol Hi.
  destruct (solveSystem_sound N (combine (matrix s) (rhs s)) x) as [_ Hall].
  - apply equations_wellFormed. exact Hs.
  - exact Hsol.
  - apply (equations_residual N); assumption.
Qed.

(** *** Sums over the vertices *)










Lemma validElement_endpoints (vs : list nat) (e : Edge) :
  validElement vs e = true -> In (edgeStart e) vs /\ In (edgeEnd e) vs.
Proof.
  unfold validElement. rewrite andb_true_iff, !existsb_exists.
  intros [(a & Ha & Ha') (b & Hb & Hb')].
  apply Nat.eqb_eq in Ha', Hb'. subst. split; assumption.
Qed.

(** *** The current law for one linear solve *)


(** An island is solved exactly when its equations have a solution. *)
Lemma solved_iff_solvable (k : Constants) (vs : list nat) (es : list Edge)
  (dt time : Qc) :
  let N := (pred (length vs) + countSources k dt time es)%nat in
  let s := buildSystem k vs dt time es in
  solved (solveLinear k vs dt time es) = true
  <-> exists y, length y = N
                /\ forall e, In e (combine (matrix s) (rhs s)) -> dot (fst e) y = snd e.
Proof.
  cbv zeta. unfold solveLinear, solveStamped. simpl.
  set (N := (pred (length vs) + countSources k dt time es)%nat).
  set (s := buildSystem k vs dt time es).
  assert (Hs : wellSized N s).
  { unfold s, buildSystem. fold N. apply wellSized_stampAll, wellSized_zero. }
  pose proof (equations_wellFormed N s Hs) as Hwf.
  destruct (solveSystem N (combine (matrix s) (rhs s))) as [x |] eqn:Hsol.
  - split; [intros _ | reflexivity].
    exists x. apply (solveSystem_sound N _ x Hwf Hsol).
  - split.
    + intros Hok. exists (fst (recoverSystem N (combine (matrix s) (rhs s)))).
      apply (recoverSystem_sound N _ Hwf Hok).
    + intros (y & Hy & Hsat). apply (recoverSystem_complete N _ y Hwf Hy Hsat).
Qed.


(** *** The driver *)

Lemma solveStamped_build (k : Constants) (vs : list nat) (dt time : Qc)
  (es : list Edge) :
  solveStamped k vs dt time es (buildSystem k vs dt time es)
  = solveLinear k vs dt time es.
Proof. reflexivity. Qed.

Lemma driverStep_invariant (k : Constants) (vs : list nat) (dt time : Qc)
  (P : list Edge -> Prop) (Q : IslandSolution -> Prop) (st : DriverState) :
  (forall es cs, P es -> P (refine es cs)) ->
  (forall es, P es -> Q (solveLinear k vs dt time es)) ->
  driverInvariant k vs dt time P Q st ->
  driverInvariant k vs dt time P Q (driverStep k vs dt time st).
Proof.
  intros Href Hsol Hinv. destruct st as [i es | i es s | sol | sol]; simpl in *.
  - split; [exact Hinv | reflexivity].
  - destruct Hinv as [HP ->]. rewrite solveStamped_build.
    destruct (converged k es _); simpl; [apply Hsol, HP |].
    destruct (Nat.leb (MAX_ITERATIONS k) i); simpl; [apply Hsol, HP |].
    apply Href, HP.
  - exact Hinv.
  - exact Hinv.
Qed.

Lemma drive_invariant (k : Constants) (vs : list nat) (dt time : Qc)
  (P : list Edge -> Prop) (Q : IslandSolution -> Prop) :
  (forall es cs, P es -> P (refine es cs)) ->
  (forall es, P es -> Q (solveLinear k vs dt time es)) ->
  forall (fuel : nat) (st : DriverState),
    driverInvariant k vs dt time P Q st ->
    driverInvariant k vs dt time P Q (drive k vs dt time fuel st).
Proof.
  intros Href Hsol. induction fuel as [| fuel IH]; intros st Hinv; simpl.
  - exact Hinv.
  - apply IH. apply driverStep_invariant; assumption.
Qed.

(** Whatever holds of every linear solve of elements satisfying [P] holds
    of the solution of the island. *)
Lemma solveIsland_invariant (k : Constants) (vs : list nat) (dt time : Qc)
  (P : list Edge -> Prop) (Q : IslandSolution -> Prop) (es : list Edge)
  (sol : IslandSolution) (o : Outcome) :
  (forall es cs, P es -> P (refine es cs)) ->
  (forall es, P es -> Q (solveLinear k vs dt time es)) ->
  P es ->
  solveIsland k vs dt time es = Some (sol, o) ->
  Q sol.
Proof.
  intros Href Hsol HP Hres. unfold solveIsland in Hres.
  pose proof (drive_invariant k vs dt time P Q Href Hsol (driverFuel k)
                (Stamping 1 es) HP) as Hinv.
  destruct (drive k vs dt time (driverFuel k) (Stamping 1 es));
    try discriminate; injection Hres as <- <-; exact Hinv.
Qed.

Lemma drive_terminal (k : Constants) (vs : list nat) (dt time : Qc)
  (fuel : nat) (st : DriverState) :
  terminal st = true -> drive k vs dt time fuel st = st.
Proof.
  revert st. induction fuel as [| fuel IH]; intros st Ht; simpl; [reflexivity |].
  destruct st; try discriminate; simpl; apply IH; reflexivity.
Qed.

Lemma drive_two_steps (k : Constants) (vs : list nat) (dt time : Qc)
  (r : nat) (st : DriverState) :
  drive k vs dt time (2 * S r) st
  = drive k vs dt time (2 * r)
      (driverStep k vs dt time (driverStep k vs dt time st)).
Proof. replace (2 * S r)%nat with (S (S (2 * r))) by lia. reflexivity. Qed.

Lemma driverStep_iteration (k : Constants) (vs : list nat) (dt time : Qc)
  (i : nat) (es : list Edge) :
  driverStep k vs dt time (driverStep k vs dt time (Stamping i es))
  = if converged k es (islandCurrents (solveLinear k vs dt time es))
    then Converged (solveLinear k vs dt time es)
    else if Nat.leb (MAX_ITERATIONS k) i
         then Diverged (solveLinear k vs dt time es)
         else Stamping (S i)
                (refine es (islandCurrents (solveLinear k vs dt time es))).
Proof. reflexivity. Qed.

(** The driver reaches a final state: two transitions per iteration, and
    the iteration count is bounded by the cap. *)
Lemma drive_terminates (k : Constants) (vs : list nat) (dt time : Qc) :
  forall (r i : nat) (es : list Edge),
    (Nat.max 1 (MAX_ITERATIONS k) <= i + r)%nat ->
    terminal (drive k vs dt time (2 * S r) (Stamping i es)) = true.
Proof.
  induction r as [| r IH]; intros i es Hle;
    rewrite drive_two_steps, driverStep_iteration.
  - destruct (converged k es _); [reflexivity |].
    destruct (Nat.leb_spec (MAX_ITERATIONS k) i) as [_ | Hlt]; [reflexivity | lia].
  - destruct (converged k es _); [rewrite drive_terminal; reflexivity |].
    destruct (Nat.leb (MAX_ITERATIONS k) i); [rewrite drive_terminal; reflexivity |].
    apply IH. lia.
Qed.

(** The solve of an island always yields a solution. *)
Lemma solveIsland_total (k : Constants) (vs : list nat) (dt time : Qc)
  (es : list Edge) :
  exists sol o, solveIsland k vs dt time es = Some (sol, o).
Proof.
  unfold solveIsland, driverFuel.
  pose proof (drive_terminates k vs dt time
                (pred (Nat.max 1 (MAX_ITERATIONS k))) 1 es) as Ht.
  replace (S (pred (Nat.max 1 (MAX_ITERATIONS k))))
    with (Nat.max 1 (MAX_ITERATIONS k)) in Ht by lia.
  specialize (Ht ltac:(lia)).
  destruct (drive k vs dt time _ (Stamping 1 es)) as [| | sol | sol];
    try discriminate; eexists; eexists; reflexivity.
Qed.

Lemma iterate_shift (k : Constants) (vs : list nat) (dt time : Qc)
  (t : nat) (es : list Edge) :
  iterate k vs dt time (S t) es
  = iterate k vs dt time t
      (refine es (islandCurrents (solveLinear k vs dt time es))).
Proof.
  induction t as [| t IH]; [reflexivity |].
  change (iterate k vs dt time (S (S t)) es)
    with (refine (iterate k vs dt time (S t) es)
            (islandCurrents (solveLinear k vs dt time (iterate k vs dt time (S t) es)))).
  rewrite IH. reflexivity.
Qed.

(** Without convergence the driver stops at the cap, in the state
    Diverged, holding the solution of the last iteration. *)
Lemma drive_diverges (k : Constants) (vs : list nat) (dt time : Qc) :
  forall (r i : nat) (es : list Edge),
    (i + r = Nat.max 1 (MAX_ITERATIONS k))%nat -> (1 <= i)%nat ->
    (forall t, (t <= r)%nat ->
       converged k (iterate k vs dt time t es)
         (islandCurrents (solveLinear k vs dt time (iterate k vs dt time t es)))
       = false) ->
    drive k vs dt time (2 * S r) (Stamping i es)
    = Diverged (solveLinear k vs dt time (iterate k vs dt time r es)).
Proof.
  induction r as [| r IH]; intros i es Hsum Hi Hnc;
    rewrite drive_two_steps, driverStep_iteration;
    pose proof (Hnc 0%nat (Nat.le_0_l _)) as H0;
    change (iterate k vs dt time 0 es) with es in H0; rewrite H0.
  - destruct (Nat.leb_spec (MAX_ITERATIONS k) i) as [_ | Hlt]; [reflexivity | lia].
  - destruct (Nat.leb_spec (MAX_ITERATIONS k) i) as [Hge | _]; [lia |].
    rewrite IH; [| lia | lia |].
    + rewrite <- iterate_shift. reflexivity.
    + intros t Ht. rewrite <- iterate_shift. apply Hnc. lia.
Qed.

(** *** Refinement keeps the topology *)



Lemma refine_keeps (es : list Edge) (cs : list Qc) (e : Edge) :
  (forall estimate, edgeKind e <> RealLightBulb estimate) ->
  In e es -> In e (refine es cs).
Proof.
  intros Hk. revert cs. induction es as [| e0 es IH]; intros cs He; simpl.
  - contradiction.
  - destruct cs as [| c cs]; [exact He |].
    destruct He as [-> | He].
    + left. unfold refineEdge.
      destruct (edgeKind e) eqn:Hkind; try reflexivity.
      exfalso. eapply Hk. reflexivity.
    + right. apply IH. exact He.
Qed.

Lemma length_currentsOf (k : Constants) (vs : list nat) (n : nat) (dt time : Qc)
  (x : list Qc) : forall (es : list Edge) (j : nat),
  length (currentsOf k vs n dt time x j es) = length es.
Proof. induction es as [| e es IH]; intros j; simpl; [| rewrite IH]; reflexivity. Qed.

Lemma currentsOf_open (k : Constants) (vs : list nat) (n : nat) (dt time : Qc)
  (x : list Qc) (e : Edge) (i : Qc) : forall (es : list Edge) (j : nat),
  In (e, i) (combine es (currentsOf k vs n dt time x j es)) ->
  companion k dt time (edgeKind e) = Open ->
  i = 0.
Proof.
  induction es as [| e0 es IH]; intros j Hin Hopen; simpl in Hin.
  - contradiction.
  - destruct Hin as [Heq | Hin].
    + injection Heq as -> <-. rewrite Hopen. reflexivity.
    + eapply IH; eassumption.
Qed.

Lemma in_combine_exists (e : Edge) (es : list Edge) (cs : list Qc) :
  In e es -> length cs = length es -> exists i, In (e, i) (combine es cs).
Proof.
  revert cs. induction es as [| e0 es IH]; intros cs He Hlen; simpl in *.
  - contradiction.
  - destruct cs as [| c cs]; [discriminate |]. simpl.
    destruct He as [-> | He].
    + exists c. left; reflexivity.
    + destruct (IH cs He) as (i & Hi); [simpl in Hlen; lia |].
      exists i. right; exact Hi.
Qed.

(** *** An open branch leaves the system as it is *)

Lemma countSources_app (k : Constants) (dt time : Qc) (es1 es2 : list Edge) :
  countSources k dt time (es1 ++ es2)
  = (countSources k dt time es1 + countSources k dt time es2)%nat.
Proof. unfold countSources. rewrite filter_app, length_app. reflexivity. Qed.

Lemma stampAll_app (k : Constants) (vs : list nat) (n : nat) (dt time : Qc)
  (es2 : list Edge) : forall (es1 : list Edge) (j : nat) (s : System),
  stampAll k vs n dt time j (es1 ++ es2) s
  = stampAll k vs n dt time (j + countSources k dt time es1) es2
      (stampAll k vs n dt time j es1 s).
Proof.
  induction es1 as [| e es1 IH]; intros j s; simpl.
  - rewrite Nat.add_0_r. reflexivity.
  - rewrite IH, countSources_cons.
    destruct (isSource (companion k dt time (edgeKind e))); simpl;
      f_equal; lia.
Qed.

Lemma buildSystem_open (k : Constants) (vs : list nat) (dt time : Qc)
  (es1 es2 : list Edge) (e : Edge) :
  companion k dt time (edgeKind e) = Open ->
  buildSystem k vs dt time (es1 ++ e :: es2)
  = buildSystem k vs dt time (es1 ++ es2).
Proof.
  intros Hopen. unfold buildSystem.
  rewrite !countSources_app, countSources_cons, !stampAll_app, Hopen.
  simpl. rewrite Hopen. reflexivity.
Qed.

(** *** Islands *)

Lemma relabel_keeps_equal (label : nat -> nat) (e : Edge) (u v : nat) :
  label u = label v -> relabel label e u = relabel label e v.
Proof. intros H. unfold relabel. rewrite H. reflexivity. Qed.

Lemma fold_relabel_keeps_equal (es : list Edge) : forall (label : nat -> nat) (u v : nat),
  label u = label v ->
  fold_left relabel es label u = fold_left relabel es label v.
Proof.
  induction es as [| e es IH]; intros label u v H; simpl; [exact H |].
  apply IH. apply relabel_keeps_equal. exact H.
Qed.

Lemma relabel_joins (label : nat -> nat) (e : Edge) :
  relabel label e (edgeStart e) = relabel label e (edgeEnd e).
Proof.
  unfold relabel. rewrite Nat.eqb_refl.
  destruct (Nat.eqb (label (edgeStart e)) (label (edgeEnd e))); reflexivity.
Qed.

(** The two vertices of an element carry the same label in the end. *)
Lemma fold_relabel_edge (es : list Edge) (e : Edge) : forall (label : nat -> nat),
  In e es ->
  fold_left relabel es label (edgeStart e) = fold_left relabel es label (edgeEnd e).
Proof.
  induction es as [| e0 es IH]; intros label He; simpl.
  - contradiction.
  - destruct He as [-> | He].
    + apply fold_relabel_keeps_equal, relabel_joins.
    + apply IH. exact He.
Qed.

Lemma island_of_vertex (vs : list nat) (es : list Edge) (v : nat) :
  In v vs ->
  let label := componentLabel (filter (validElement vs) es) in
  In (filter (fun w => Nat.eqb (label w) (label v)) vs)
     (findConnectedComponents vs es).
Proof.
  intros Hv label. unfold findConnectedComponents. fold label.
  apply in_map_iff. exists (label v). split; [reflexivity |].
  apply nodup_In. apply in_map. exact Hv.
Qed.

(** An island holds, with a vertex, the other vertex of every element
    that touches it: all elements touching an island vertex are elements
    of that island. *)
Lemma island_closed (vs : list nat) (es : list Edge) (island : list nat) (e : Edge) :
  In island (findConnectedComponents vs es) ->
  In e es -> validElement vs e = true ->
  In (edgeStart e) island \/ In (edgeEnd e) island ->
  validElement island e = true.
Proof.
  unfold findConnectedComponents.
  set (label := componentLabel (filter (validElement vs) es)).
  intros Hisl He Hval Htouch.
  apply in_map_iff in Hisl. destruct Hisl as (l & <- & _).
  destruct (validElement_endpoints vs e Hval) as [Hs Hend].
  assert (Hlab : label (edgeStart e) = label (edgeEnd e)).
  { apply fold_relabel_edge. apply filter_In. split; assumption. }
  assert (Hl : label (edgeStart e) = l).
  { destruct Htouch as [H | H]; apply filter_In in H; destruct H as [_ H];
      apply Nat.eqb_eq in H; congruence. }
  unfold validElement. apply andb_true_iff. split; apply existsb_exists.
  - exists (edgeStart e). split; [| apply Nat.eqb_refl].
    apply filter_In. split; [exact Hs |]. apply Nat.eqb_eq. exact Hl.
  - exists (edgeEnd e). split; [| apply Nat.eqb_refl].
    apply filter_In. split; [exact Hend |]. apply Nat.eqb_eq. congruence.
Qed.

Lemma endpoints_refine (es : list Edge) : forall cs : list Qc,
  map endpoints (refine es cs) = map endpoints es.
Proof.
  induction es as [| e es IH]; intros cs; simpl; [reflexivity |].
  destruct cs as [| c cs]; [reflexivity |]. simpl. rewrite IH. f_equal.
  unfold refineEdge. destruct (edgeKind e); reflexivity.
Qed.

(** *** Section 8: the examples, computed *)

Example series_resistors :
  readable (solve exampleConstants seriesCircuit 1 0)
  = ([(0%nat, 0%Q); (1%nat, 9%Q); (2%nat, 6%Q)], [(3 # 10)%Q; (3 # 10)%Q; (3 # 10)%Q]).
Proof. vm_compute. reflexivity. Qed.

Example parallel_resistors :
  readable (solve exampleConstants parallelCircuit 1 0)
  = ([(0%nat, 0%Q); (1%nat, 9%Q)], [(9 # 5)%Q; (9 # 10)%Q; (9 # 10)%Q]).
Proof. vm_compute. reflexivity. Qed.

Example open_switch :
  readable (solve exampleConstants openSwitchCircuit 1 0)
  = ([(0%nat, 0%Q); (1%nat, 9%Q); (2%nat, 9%Q)], [3%Q; 0%Q; 0%Q; 3%Q]).
Proof. vm_compute. reflexivity. Qed.

(** *** Section 7: singular islands, computed *)

(** A floating node behind an open switch gets 0 V and the rest of the
    island is solved: 0.9 A through battery and resistor. *)
Example dangling_switch :
  readable (solve exampleConstants danglingSwitchCircuit 1 0)
  = ([(0%nat, 0%Q); (1%nat, 9%Q); (2%nat, 0%Q)], [(9 # 10)%Q; (9 # 10)%Q; 0%Q]).
Proof. vm_compute. reflexivity. Qed.

(** A floating capacitor keeps its 5 V, one of its two nodes at 0 V, and
    carries no current. *)
Example floating_capacitor :
  readable (solve exampleConstants floatingCapacitorCircuit 1 0)
  = ([(0%nat, 0%Q); (1%nat, 9%Q); (2%nat, 5%Q); (3%nat, 0%Q)],
     [(9 # 10)%Q; (9 # 10)%Q; 0%Q; 0%Q]).
Proof. vm_compute. reflexivity. Qed.

(** Both islands are singular and solved; two batteries that contradict
    each other leave an island that is not solved. *)
Example singular_islands :
  map (fun c =>
         map (fun r => match r with
                       | Some (sol, _) => (singular sol, solved sol)
                       | None => (false, false)
                       end)
             (solveIslands exampleConstants (map id (vertices c))
                (map edgeOf (elements c)) 1 0))
      [seriesCircuit; danglingSwitchCircuit; floatingCapacitorCircuit;
       conflictingBatteriesCircuit]
  = [[(false, true)]%list; [(true, true)]%list; [(true, true)]%list;
     [(true, false)]%list]%list.
Proof. vm_compute. reflexivity. Qed.

(** *** The claims about the solver *)



(** The elements of a solved island are, up to the estimates of the real
    bulbs, all elements of the circuit that touch one of its vertices and
    have both vertices in the circuit. *)
Lemma island_elements_complete (k : Constants) (c : Circuit) (dt time : Qc)
  (sol : IslandSolution) (outcome : Outcome) :
  let vs := map id (vertices c) in
  let es := map edgeOf (elements c) in
  In (Some (sol, outcome)) (solveIslands k vs es dt time) ->
  map endpoints (islandElements sol)
  = map endpoints (elementsOfIsland (islandVertices sol) es)
  /\ forall e, In e es -> validElement vs e = true ->
       In (edgeStart e) (islandVertices sol) \/ In (edgeEnd e) (islandVertices sol) ->
       In e (elementsOfIsland (islandVertices sol) es).
Proof.
  intros vs es Hin.
  unfold solveIslands in Hin. apply in_map_iff in Hin.
  destruct Hin as (island & Hsolve & Hisl).
  apply filter_In in Hisl. destruct Hisl as [Hisl _].
  pose proof (solveIsland_invariant k island dt time
    (fun es' => map endpoints es' = map endpoints (elementsOfIsland island es))
    (fun s => islandVertices s = island
              /\ map endpoints (islandElements s)
                 = map endpoints (elementsOfIsland island es))
    (elementsOfIsland island es) sol outcome) as Hinv.
  destruct Hinv as [Hvs Hends].
  - intros es' cs H. rewrite endpoints_refine. exact H.
  - intros es' H. split; [reflexivity | exact H].
  - reflexivity.
  - exact Hsolve.
  - rewrite Hvs. split; [exact Hends |].
    intros e He Hval Htouch. apply filter_In. split; [exact He |].
    apply (island_closed vs es island e Hisl He Hval Htouch).
Qed.

(** C4.  An open switch carries no current: every current the solve
    reports for an open switch is 0, whatever the sources; the solve
    reports one for every open switch whose vertices belong to the
    circuit; and stamping a circuit with an open switch gives the very
    system of the circuit without it (no conductance term). *)
Theorem open_switch_carries_no_current :
  forall (k : Constants) (c : Circuit) (dt time : Qc),
    (forall e i, In (e, i) (elementCurrents (solve k c dt time)) ->
                 edgeKind e = Switch false -> i = 0)
    /\ (forall sw, In sw (elements c) -> kind sw = Switch false ->
          In (startVertex sw) (map id (vertices c)) ->
          In (endVertex sw) (map id (vertices c)) ->
          In (edgeOf sw, 0) (elementCurrents (solve k c dt time)))
    /\ (forall vs es1 e es2, edgeKind e = Switch false ->
          buildSystem k vs dt time (es1 ++ e :: es2)
          = buildSystem k vs dt time (es1 ++ es2)).
Proof.
  intros k c dt time.
  assert (Hzero : forall e i, In (e, i) (elementCurrents (solve k c dt time)) ->
                              edgeKind e = Switch false -> i = 0).
  { intros e i Hin Hsw. unfold solve, outputOf in Hin. simpl in Hin.
    apply in_flat_map in Hin. destruct Hin as (r & Hr & Hin).
    destruct r as [[sol o] |]; [| contradiction].
    unfold solveIslands in Hr. apply in_map_iff in Hr.
    destruct Hr as (island & Hsolve & _).
    pose proof (solveIsland_invariant k island dt time (fun _ => True)
      (fun s => forall e i, In (e, i) (combine (islandElements s) (islandCurrents s)) ->
                            companion k dt time (edgeKind e) = Open -> i = 0)
      (elementsOfIsland island (map edgeOf (elements c))) sol o) as Hinv.
    apply (Hinv (fun _ _ _ => I)) with (e := e); [| exact I | exact Hsolve | exact Hin |].
    - intros es' _ e' i' Hin' Hopen.
      apply (currentsOf_open k island _ dt time _ e' i' es' 0%nat Hin' Hopen).
    - rewrite Hsw. reflexivity. }
  split; [exact Hzero |]. split.
  - intros sw Hsw Hkind Hs He.
    set (vs := map id (vertices c)). set (es := map edgeOf (elements c)).
    set (e := edgeOf sw).
    assert (Hee : In e es) by (apply in_map; exact Hsw).
    assert (Hval : validElement vs e = true).
    { unfold validElement. apply andb_true_iff.
      split; apply existsb_exists;
        [exists (startVertex sw) | exists (endVertex sw)];
        (split; [assumption | apply Nat.eqb_refl]). }
    pose proof (island_of_vertex vs es (edgeStart e) Hs) as Hisl. cbv zeta in Hisl.
    set (island := filter _ vs) in Hisl.
    assert (Hstart : In (edgeStart e) island).
    { apply filter_In. split; [exact Hs | apply Nat.eqb_refl]. }
    assert (Hvi : validElement island e = true).
    { apply (island_closed vs es island e Hisl Hee Hval). left; exact Hstart. }
    assert (Hei : In e (elementsOfIsland island es)).
    { apply filter_In. split; assumption. }
    destruct (solveIsland_total k island dt time (elementsOfIsland island es))
      as (sol & o & Hsolve).
    assert (Hr : In (Some (sol, o)) (solveIslands k vs es dt time)).
    { unfold solveIslands. rewrite <- Hsolve.
      apply (in_map (fun isl => solveIsland k isl dt time (elementsOfIsland isl es))).
      apply filter_In. split; [exact Hisl |].
      unfold trivialIsland.
      destruct (elementsOfIsland island es); [contradiction |].
      rewrite andb_false_r. reflexivity. }
    pose proof (solveIsland_invariant k island dt time (fun es' => In e es')
      (fun s => In e (islandElements s)
                /\ length (islandCurrents s) = length (islandElements s))
      (elementsOfIsland island es) sol o) as Hinv.
    destruct Hinv as [Hmem Hlen]; [| | exact Hei | exact Hsolve |].
    + intros es' cs H. apply refine_keeps; [| exact H].
      intros estimate. unfold e, edgeOf; simpl. rewrite Hkind. discriminate.
    + intros es' H. split; [exact H |]. apply length_currentsOf.
    + destruct (in_combine_exists e _ _ Hmem Hlen) as (i & Hi).
      assert (Hout : In (e, i) (elementCurrents (solve k c dt time))).
      { unfold solve, outputOf; simpl. apply in_flat_map.
        exists (Some (sol, o)). split; [exact Hr | exact Hi]. }
      rewrite (Hzero e i Hout) in Hout; [exact Hout |].
      unfold e, edgeOf; simpl. exact Hkind.
  - intros vs es1 e es2 Hsw. apply buildSystem_open. rewrite Hsw. reflexivity.
Qed.

Lemma open_switch_carries_no_current_witness :
  In (mkEdge 2 0 (Switch false), 0)
     (elementCurrents (solve exampleConstants openSwitchCircuit 1 0)).
Proof.
  apply (proj1 (proj2 (open_switch_carries_no_current exampleConstants
                         openSwitchCircuit 1 0))
           (mkCircuitElement 2 0 (Switch false) 0 0)).
  - simpl. right; right; left; reflexivity.
  - reflexivity.
  - simpl. right; right; left; reflexivity.
  - simpl. left; reflexivity.
Defined.

(** C5.  When no iteration up to the cap converges, the driver stops in
    the state Diverged with the solution of the last iteration, and the
    solve of the island returns that solution, marked
    MaxIterationsExceeded: a result, not a failure, reached within the
    driver's bounded number of transitions. *)
Theorem iteration_cap_returns_last_iterate :
  forall (k : Constants) (vs : list nat) (dt time : Qc) (es : list Edge),
    let cap := Nat.max 1 (MAX_ITERATIONS k) in
    (forall i, (1 <= i <= cap)%nat ->
       converged k (iterate k vs dt time (pred i) es)
         (islandCurrents (iterateSolution k vs dt time i es)) = false) ->
    drive k vs dt time (driverFuel k) (Stamping 1 es)
    = Diverged (iterateSolution k vs dt time cap es)
    /\ solveIsland k vs dt time es
       = Some (iterateSolution k vs dt time cap es, MaxIterationsExceeded).
Proof.
  intros k vs dt time es cap Hnc.
  assert (Hrun : drive k vs dt time (driverFuel k) (Stamping 1 es)
                 = Diverged (iterateSolution k vs dt time cap es)).
  { unfold driverFuel. fold cap.
    replace cap with (S (pred cap)) at 1 by (unfold cap; lia).
    rewrite (drive_diverges k vs dt time (pred cap) 1 es).
    - reflexivity.
    - unfold cap; lia.
    - lia.
    - intros t Ht. apply (Hnc (S t)). unfold cap in *; lia. }
  split; [exact Hrun |].
  unfold solveIsland. rewrite Hrun. reflexivity.
Qed.

Lemma iteration_cap_returns_last_iterate_witness :
  solveIsland shortCapConstants [0; 1]%nat 1 0
    (map edgeOf (elements realBulbCircuit))
  = Some (iterateSolution shortCapConstants [0; 1]%nat 1 0 3
            (map edgeOf (elements realBulbCircuit)),
          MaxIterationsExceeded).
Proof.
  apply (iteration_cap_returns_last_iterate shortCapConstants [0; 1]%nat 1 0
           (map edgeOf (elements realBulbCircuit))).
  intros i Hi.
  assert (Hcases : i = 1%nat \/ i = 2%nat \/ i = 3%nat) by (simpl in Hi; lia).
  destruct Hcases as [-> | [-> | ->]]; vm_compute; reflexivity.
Defined.

End SolverFacts.

(** * Further properties of the model and view code *)

(** ** AC voltage source: amplitude, period and frequency changes *)

Module ACVoltageMoreFacts.
Local Open Scope R_scope.

Lemma sine_amplitude (a x : R) : Rabs (a * sin x) <= Rabs a.
Proof.
  rewrite Rabs_mult.
  assert (H : Rabs (sin x) <= 1).
  { apply Rabs_le. pose proof (SIN_bound x). lra. }
  pose proof (Rabs_pos a). nra.
Qed.

(** The voltage a step leaves never exceeds the maximum voltage in
    magnitude; with a maximum voltage inside its range [0, 120] the new
    voltage is inside the range [-120, 120] of the voltage Property. *)
Theorem step_voltage_within_amplitude :
  (forall (t dt : R) (this : ACVoltageLegacy.ACVoltage),
      Rabs (ACVoltageLegacy.voltageProperty (ACVoltageLegacy.step t dt this))
      <= Rabs (ACVoltageLegacy.maximumVoltageProperty this))
  /\
  (forall (super_step : R -> R -> ACVoltage.ACVoltage -> ACVoltage.ACVoltage)
          (t dt : R) (this : ACVoltage.ACVoltage),
      let this' := ACVoltage.step super_step t dt this in
      Rabs (ACVoltage.voltageProperty this')
      <= Rabs (ACVoltage.maximumVoltageProperty this')
      /\ (0 <= ACVoltage.maximumVoltageProperty (super_step t dt this) <= 120 ->
          -120 <= ACVoltage.voltageProperty this' <= 120)).
Proof.
  split.
  - intros t dt this. apply sine_amplitude.
  - intros super_step t dt this. cbv zeta. unfold ACVoltage.step; simpl.
    split; [apply sine_amplitude |].
    intros Hrange.
    pose proof (sine_amplitude (ACVoltage.maximumVoltageProperty (super_step t dt this))
                  (2 * PI * ACVoltage.frequencyProperty (super_step t dt this) * t
                   + ACVoltage.phaseProperty (super_step t dt this) * PI / 180)) as H.
    rewrite (Rabs_pos_eq (ACVoltage.maximumVoltageProperty _)) in H by lra.
    revert H. unfold Rabs at 1. destruct (Rcase_abs _); lra.
Qed.

(** The older source repeats after one period 1/f: a step one period
    later sets the same voltage. *)
Theorem legacy_step_periodic :
  forall (t dt dt' : R) (this : ACVoltageLegacy.ACVoltage),
    ACVoltageLegacy.frequencyProperty this <> 0 ->
    ACVoltageLegacy.voltageProperty
      (ACVoltageLegacy.step (t + 1 / ACVoltageLegacy.frequencyProperty this) dt' this)
    = ACVoltageLegacy.voltageProperty (ACVoltageLegacy.step t dt this).
Proof.
  intros t dt dt' this Hf. unfold ACVoltageLegacy.step; simpl.
  f_equal.
  replace (2 * PI * ACVoltageLegacy.frequencyProperty this
           * (t + 1 / ACVoltageLegacy.frequencyProperty this)
           + ACVoltageLegacy.phase this)
    with (2 * PI * ACVoltageLegacy.frequencyProperty this * t
          + ACVoltageLegacy.phase this + 2 * PI) by (field; exact Hf).
  rewrite sin_plus, sin_2PI, cos_2PI. ring.
Qed.

Lemma legacy_step_periodic_witness :
  ACVoltageLegacy.voltageProperty
    (ACVoltageLegacy.step (3 + 1 / (1 / 2)) 0 (ACVoltageLegacy.new 9))
  = ACVoltageLegacy.voltageProperty (ACVoltageLegacy.step 3 0 (ACVoltageLegacy.new 9)).
Proof.
  apply (legacy_step_periodic 3 0 0 (ACVoltageLegacy.new 9)).
  simpl. lra.
Defined.

Lemma setFrequency_same (this : ACVoltageLegacy.ACVoltage) :
  ACVoltageLegacy.setFrequency (ACVoltageLegacy.frequencyProperty this) this = this.
Proof.
  unfold ACVoltageLegacy.setFrequency.
  destruct (Req_dec_T _ _) as [_ | H]; [reflexivity | contradiction H; reflexivity].
Qed.

Lemma setFrequency_other (frequency : R) (this : ACVoltageLegacy.ACVoltage) :
  frequency <> ACVoltageLegacy.frequencyProperty this ->
  ACVoltageLegacy.setFrequency frequency this
  = ACVoltageLegacy.mkACVoltage
      (ACVoltageLegacy.voltageProperty this)
      (ACVoltageLegacy.maximumVoltageProperty this)
      frequency
      (2 * PI * ACVoltageLegacy.frequencyProperty this * ACVoltageLegacy.time this
       + ACVoltageLegacy.phase this
       - 2 * PI * frequency * ACVoltageLegacy.time this)
      (ACVoltageLegacy.time this).
Proof.
  intros Hne. unfold ACVoltageLegacy.setFrequency.
  destruct (Req_dec_T _ _) as [H | _]; [contradiction | reflexivity].
Qed.

(** Changing the frequency and changing it back, with no step in
    between, restores the element: the phase shift is undone. *)
Theorem frequency_change_round_trip :
  forall (frequency : R) (this : ACVoltageLegacy.ACVoltage),
    let back := ACVoltageLegacy.setFrequency (ACVoltageLegacy.frequencyProperty this)
                  (ACVoltageLegacy.setFrequency frequency this) in
    ACVoltageLegacy.frequencyProperty back = ACVoltageLegacy.frequencyProperty this
    /\ ACVoltageLegacy.phase back = ACVoltageLegacy.phase this
    /\ ACVoltageLegacy.time back = ACVoltageLegacy.time this
    /\ ACVoltageLegacy.voltageProperty back = ACVoltageLegacy.voltageProperty this
    /\ ACVoltageLegacy.maximumVoltageProperty back
       = ACVoltageLegacy.maximumVoltageProperty this.
Proof.
  intros frequency this. cbv zeta.
  destruct (Req_dec_T frequency (ACVoltageLegacy.frequencyProperty this)) as [Heq | Hne].
  - rewrite Heq, !setFrequency_same. repeat split.
  - rewrite (setFrequency_other frequency this Hne).
    rewrite setFrequency_other by (simpl; intros H; apply Hne; symmetry; exact H).
    simpl. repeat split. ring.
Qed.

End ACVoltageMoreFacts.

(** ** Light bulb: monotonicity, darkness and the update of the node *)

Module LightBulbMoreFacts.
Local Open Scope R_scope.
Import CCKLightBulbNode.

Lemma clamp_monotone (a b lo hi : R) :
  lo <= hi -> a <= b -> Utils.clamp a lo hi <= Utils.clamp b lo hi.
Proof.
  intros Hlh Hab. unfold Utils.clamp.
  destruct (Rlt_dec a lo); destruct (Rlt_dec b lo);
    destruct (Rlt_dec hi a); destruct (Rlt_dec hi b); lra.
Qed.

Lemma power_monotone (c1 v1 c2 v2 : R) :
  Rabs (c1 * v1) <= Rabs (c2 * v2) -> power c1 v1 <= power c2 v2.
Proof.
  intros H. unfold power, maxPower, minPower.
  apply Rle_max_compat_r. apply Rle_min_compat_r. exact H.
Qed.

Lemma rawBrightness_positive (p : R) : 0 < rawBrightness p.
Proof.
  unfold rawBrightness, Rpower.
  pose proof (exp_pos (354 / 1000 * ln (p / maxPower))). lra.
Qed.

Lemma rawBrightness_monotone (p q : R) :
  0 < p -> p <= q -> rawBrightness p <= rawBrightness q.
Proof.
  intros Hp Hpq. unfold rawBrightness, maxPower.
  assert (H : Rpower (p / 60) (354 / 1000) <= Rpower (q / 60) (354 / 1000)).
  { apply Rle_Rpower_l; lra. }
  lra.
Qed.

(** More power never makes the bulb dimmer, in either variant. *)
Theorem brightness_monotone_in_power :
  forall (c1 v1 c2 v2 : R) (running1 running2 : bool),
    Rabs (c1 * v1) <= Rabs (c2 * v2) ->
    updateBrightnessCommon c1 running1 v1 <= updateBrightnessCommon c2 running2 v2
    /\ updateBrightness c1 running1 v1 <= updateBrightness c2 running2 v2.
Proof.
  intros c1 v1 c2 v2 running1 running2 H.
  pose proof (power_monotone c1 v1 c2 v2 H) as Hp.
  pose proof (LightBulbFacts.power_bounds c1 v1) as Hb1.
  pose proof (LightBulbFacts.power_bounds c2 v2) as Hb2.
  unfold minPower, maxPower in Hb1, Hb2.
  assert (Hraw : rawBrightness (power c1 v1) <= rawBrightness (power c2 v2)).
  { apply rawBrightness_monotone; lra. }
  split.
  - unfold updateBrightnessCommon. apply clamp_monotone; [lra | exact Hraw].
  - unfold updateBrightness, minPower.
    destruct (Rle_dec (power c1 v1) (1 / 1000000)) as [H1 | H1];
      destruct (Rle_dec (power c2 v2) (1 / 1000000)) as [H2 | H2].
    + lra.
    + apply clamp_monotone; [lra |].
      pose proof (rawBrightness_positive (power c2 v2)). lra.
    + lra.
    + apply clamp_monotone; [lra | exact Hraw].
Qed.

Lemma brightness_monotone_in_power_witness :
  updateBrightnessCommon 1 true 2 <= updateBrightnessCommon 3 true 4
  /\ updateBrightness 1 true 2 <= updateBrightness 3 true 4.
Proof.
  apply brightness_monotone_in_power.
  replace (1 * 2) with 2 by ring. replace (3 * 4) with 12 by ring.
  rewrite !Rabs_pos_eq by lra. lra.
Defined.

(** The 2016 listener never reports darkness, not even without current;
    the later one reports brightness 0 exactly when the power
    |current * voltageDifference| is at most 1e-6. *)
Theorem darkness_only_in_newer_variant :
  forall (current voltageDifference : R) (running : bool),
    0 < updateBrightnessCommon current running voltageDifference
    /\ (updateBrightness current running voltageDifference = 0
        <-> Rabs (current * voltageDifference) <= 1 / 1000000).
Proof.
  intros current voltageDifference running.
  pose proof (rawBrightness_positive (power current voltageDifference)) as Hraw.
  assert (Hclamp : 0 < Utils.clamp (rawBrightness (power current voltageDifference)) 0 1).
  { unfold Utils.clamp.
    destruct (Rlt_dec _ 0); [lra |]. destruct (Rlt_dec 1 _); lra. }
  split; [exact Hclamp |].
  rewrite <- (LightBulbFacts.power_at_floor current voltageDifference).
  unfold updateBrightness, minPower.
  destruct (Rle_dec (power current voltageDifference) (1 / 1000000)) as [H | H].
  - split; [intros _; exact H |].
    intros _. apply UtilsFacts.clamp_inside. lra.
  - split; [intros H0; lra | intros H0; contradiction].
Qed.

(** CustomLightBulbNode.update fails exactly for a visible node that shows
    more than the base and whose brightness is outside [0, 1]; an
    invisible or base-only node is left as it is, whatever its
    brightness. *)
Theorem update_fails_exactly_outside_unit_interval :
  forall this : CustomLightBulbNode.CustomLightBulbNode,
    (CustomLightBulbNode.update this = None
     <-> CustomLightBulbNode.visible this = true
         /\ CustomLightBulbNode.baseOnly this = false
         /\ (CustomLightBulbNode.brightnessProperty this < 0
             \/ 1 < CustomLightBulbNode.brightnessProperty this))
    /\ (CustomLightBulbNode.visible this = false
        \/ CustomLightBulbNode.baseOnly this = true ->
        CustomLightBulbNode.update this = Some this).
Proof.
  intros this. unfold CustomLightBulbNode.update.
  destruct (CustomLightBulbNode.visible this);
    destruct (CustomLightBulbNode.baseOnly this); simpl.
  - split; [split; [discriminate | intros (_ & H & _); discriminate] | reflexivity].
  - split.
    + destruct (Rle_dec 0 _) as [H0 | H0]; [destruct (Rle_dec _ 1) as [H1 | H1] |].
      * split; [discriminate | intros (_ & _ & [H | H]); lra].
      * split; [intros _; repeat split; right; lra | reflexivity].
      * split; [intros _; repeat split; left; lra | reflexivity].
    + intros [H | H]; discriminate.
  - split; [split; [discriminate | intros (H & _); discriminate] | reflexivity].
  - split; [split; [discriminate | intros (H & _); discriminate] | reflexivity].
Qed.

(** For a visible node with a brightness in [0, 1]: the back image shows
    exactly when the brightness is positive, its opacity is twice the
    brightness up to full opacity at one half, and the rays get the
    brightness itself. *)
Theorem update_sets_opacity :
  forall this : CustomLightBulbNode.CustomLightBulbNode,
    CustomLightBulbNode.visible this = true ->
    CustomLightBulbNode.baseOnly this = false ->
    0 <= CustomLightBulbNode.brightnessProperty this <= 1 ->
    exists after,
      CustomLightBulbNode.update this = Some after
      /\ (CustomLightBulbNode.backNode_visible after = true
          <-> 0 < CustomLightBulbNode.brightnessProperty this)
      /\ (0 < CustomLightBulbNode.brightnessProperty this ->
          CustomLightBulbNode.backNode_imageOpacity after
          = Rmin 1 (2 * CustomLightBulbNode.brightnessProperty this))
      /\ (CustomLightBulbNode.brightnessProperty this = 0 ->
          CustomLightBulbNode.backNode_imageOpacity after
          = CustomLightBulbNode.backNode_imageOpacity this)
      /\ CustomLightBulbNode.raysNode_brightness after
         = CustomLightBulbNode.brightnessProperty this
      /\ CustomLightBulbNode.brightnessProperty after
         = CustomLightBulbNode.brightnessProperty this.
Proof.
  intros this Hv Hb [H0 H1]. unfold CustomLightBulbNode.update.
  rewrite Hv, Hb. simpl.
  destruct (Rle_dec 0 _) as [_ | H]; [| contradiction].
  destruct (Rle_dec _ 1) as [_ | H]; [| contradiction].
  eexists. split; [reflexivity |]. simpl.
  set (b := CustomLightBulbNode.brightnessProperty this) in *.
  destruct (Rlt_dec 0 b) as [Hpos | Hzero].
  - repeat split; try reflexivity; try (intros; assumption); try lra.
    intros _. unfold Utils.linear, Utils.clamp, Rmin.
    replace ((1 - 0) / (1 / 2 - 0) * (b - 0) + 0) with (2 * b) by field.
    destruct (Rlt_dec (2 * b) 0); [lra |].
    destruct (Rlt_dec 1 (2 * b)); destruct (Rle_dec 1 (2 * b)); lra.
  - repeat split; try reflexivity; try discriminate; try lra.
Qed.

Lemma update_sets_opacity_witness :
  exists after,
    CustomLightBulbNode.update (CustomLightBulbNode.mkNode true false (1 / 4) false 0 0)
    = Some after
    /\ CustomLightBulbNode.backNode_imageOpacity after = Rmin 1 (2 * (1 / 4)).
Proof.
  destruct (update_sets_opacity
              (CustomLightBulbNode.mkNode true false (1 / 4) false 0 0))
    as (after & Hu & _ & Hop & _); simpl; try reflexivity; try lra.
  exists after. split; [exact Hu | apply Hop; simpl; lra].
Defined.

End LightBulbMoreFacts.

(** ** Probes on circuit elements *)

Module CircuitLayerNodeMoreFacts.
Local Open Scope R_scope.
Import Vertex CircuitLayerNode.

Lemma hit_search (this : CircuitLayerNode) (position : Vector2.t)
  (filter : CircuitElement -> bool) :
  forall result,
    hitCircuitElementNode this position filter = result ->
    match result with
    | Some (e, node) =>
        exists behind front,
          List.filter (fun en => filter (fst en)) (circuitElements this)
          = behind ++ (e, Some node) :: front
          /\ containsSensorPoint node position = true
          /\ (element_insideTrueBlackBoxProperty e = true ->
              revealingProperty this = true)
          /\ forall e' node', In (e', Some node') front ->
               containsSensorPoint node' position = true ->
               element_insideTrueBlackBoxProperty e' = true
               /\ revealingProperty this = false
    | None =>
        forall e' node',
          In (e', Some node')
             (List.filter (fun en => filter (fst en)) (circuitElements this)) ->
          containsSensorPoint node' position = true ->
          element_insideTrueBlackBoxProperty e' = true
          /\ revealingProperty this = false
    end.
Proof.
  unfold hitCircuitElementNode.
  set (candidates := List.filter (fun en => filter (fst en)) (circuitElements this)).
  assert (Hc : candidates = rev (rev candidates))
    by (symmetry; apply rev_involutive).
  intros result Hres. rewrite Hc. revert result Hres.
  generalize (rev candidates). clear Hc candidates. intros l.
  induction l as [| en l IH]; intros result Hres.
  - subst result. simpl. intros e' node' [].
  - simpl in Hres.
    assert (Hlast : forall (r : option CircuitElementNode),
              (forall node', r = Some node' ->
                 containsSensorPoint node' position = true ->
                 element_insideTrueBlackBoxProperty (fst en) = true
                 /\ revealingProperty this = false) ->
              snd en = r ->
              forall result',
                match result' with
                | Some (e0, node0) =>
                    exists behind front,
                      rev l = behind ++ (e0, Some node0) :: front
                      /\ containsSensorPoint node0 position = true
                      /\ (element_insideTrueBlackBoxProperty e0 = true ->
                          revealingProperty this = true)
                      /\ forall e' node', In (e', Some node') front ->
                           containsSensorPoint node' position = true ->
                           element_insideTrueBlackBoxProperty e' = true
                           /\ revealingProperty this = false
                | None =>
                    forall e' node', In (e', Some node') (rev l) ->
                      containsSensorPoint node' position = true ->
                      element_insideTrueBlackBoxProperty e' = true
                      /\ revealingProperty this = false
                end ->
                match result' with
                | Some (e0, node0) =>
                    exists behind front,
                      rev (en :: l) = behind ++ (e0, Some node0) :: front
                      /\ containsSensorPoint node0 position = true
                      /\ (element_insideTrueBlackBoxProperty e0 = true ->
                          revealingProperty this = true)
                      /\ forall e' node', In (e', Some node') front ->
                           containsSensorPoint node' position = true ->
                           element_insideTrueBlackBoxProperty e' = true
                           /\ revealingProperty this = false
                | None =>
                    forall e' node', In (e', Some node') (rev (en :: l)) ->
                      containsSensorPoint node' position = true ->
                      element_insideTrueBlackBoxProperty e' = true
                      /\ revealingProperty this = false
                end).
    { intros r Hhidden Hsnd result' H.
      assert (Hen : forall e' node', (e', Some node') = en \/ False ->
                      containsSensorPoint node' position = true ->
                      element_insideTrueBlackBoxProperty e' = true
                      /\ revealingProperty this = false).
      { intros e' node' [Heq | []] Hc. subst en. simpl in *.
        apply (Hhidden node'); [symmetry; exact Hsnd | exact Hc]. }
      destruct result' as [[e0 node0] |]; simpl.
      - destruct H as (behind & front & Heq & Hc & Hrev & Hfront).
        exists behind, (front ++ [en]).
        rewrite Heq, <- app_assoc. simpl.
        refine (conj eq_refl (conj Hc (conj Hrev _))).
        intros e' node' Hin Hc'. apply in_app_or in Hin.
        destruct Hin as [Hin | Hin].
        + apply (Hfront e' node' Hin Hc').
        + apply (Hen e' node'); [| exact Hc'].
          destruct Hin as [Hin | []]. left. symmetry; exact Hin.
      - intros e' node' Hin Hc'. apply in_app_or in Hin.
        destruct Hin as [Hin | Hin].
        + apply (H e' node' Hin Hc').
        + apply (Hen e' node'); [| exact Hc'].
          destruct Hin as [Hin | []]. left. symmetry; exact Hin. }
    destruct en as [e [node |]]; simpl in Hres, Hlast.
    + destruct ((if element_insideTrueBlackBoxProperty e
                 then revealingProperty this else true)
                && containsSensorPoint node position)%bool eqn:Hhit.
      * subst result. apply andb_true_iff in Hhit. destruct Hhit as [Hrev Hc].
        exists (rev l), []. simpl.
        refine (conj eq_refl (conj Hc (conj _ _))).
        -- intros Hin. rewrite Hin in Hrev. exact Hrev.
        -- intros e' node' [].
      * apply (Hlast (Some node)); [| reflexivity | apply IH; exact Hres].
        intros node' Heq Hc. injection Heq as <-.
        rewrite Hc, andb_true_r in Hhit.
        destruct (element_insideTrueBlackBoxProperty e); [auto | discriminate].
    + apply (Hlast None); [| reflexivity | apply IH; exact Hres].
      intros node' Heq; discriminate.
Qed.


(** hitCircuitElementNode returns an element that passes the filter, whose
    node contains the point and which is not hidden in the black box, and
    every element in front of it (later in the circuit's list) whose node
    contains the point is hidden; it returns null only when every
    candidate whose node contains the point is hidden. *)
Theorem hitCircuitElementNode_frontmost (this : CircuitLayerNode)
  (position : Vector2.t) (filter : CircuitElement -> bool) :
  match hitCircuitElementNode this position filter with
  | Some (e, node) =>
      exists behind front,
        List.filter (fun en => filter (fst en)) (circuitElements this)
        = behind ++ (e, Some node) :: front
        /\ filter e = true
        /\ containsSensorPoint node position = true
        /\ (element_insideTrueBlackBoxProperty e = true ->
            revealingProperty this = true)
        /\ forall e' node', In (e', Some node') front ->
             containsSensorPoint node' position = true ->
             element_insideTrueBlackBoxProperty e' = true
             /\ revealingProperty this = false
  | None =>
      forall e' node',
        In (e', Some node') (circuitElements this) ->
        filter e' = true ->
        containsSensorPoint node' position = true ->
        element_insideTrueBlackBoxProperty e' = true
        /\ revealingProperty this = false
  end.
Proof.
  pose proof (hit_search this position filter _ eq_refl) as H.
  destruct (hitCircuitElementNode this position filter) as [[e node] |].
  - destruct H as (behind & front & Heq & Hc & Hrev & Hfront).
    exists behind, front.
    refine (conj Heq (conj _ (conj Hc (conj Hrev Hfront)))).
    assert (Hin : In (e, Some node)
                    (List.filter (fun en => filter (fst en)) (circuitElements this))).
    { rewrite Heq. apply in_or_app. right. left. reflexivity. }
    apply filter_In in Hin. exact (proj2 Hin).
  - intros e' node' Hin Hf Hc. apply (H e' node'); [| exact Hc].
    apply filter_In. split; [exact Hin | exact Hf].
Qed.

(** A probe that touches no solder but a metallic element reads a voltage
    interpolated along the element, between the voltages of its two
    vertices, and is attributed to the element's start vertex; on an
    element of length zero it reads the start vertex's voltage. *)
Theorem getVoltageConnection_on_metallic_element :
  forall (this : CircuitLayerNode) (probePosition : Vector2.t)
         (metallic : CircuitElement) (node : CircuitElementNode),
    (forall s, In s (solderNodes this) ->
       SolderNode.SOLDER_RADIUS
       < Vector2.distance probePosition (positionProperty (SolderNode.vertex s))) ->
    hitCircuitElementNode this probePosition isMetallic = Some (metallic, node) ->
    exists c,
      getVoltageConnection this probePosition = Some c
      /\ vertex c = startVertexProperty metallic
      /\ Rmin (voltageProperty (startVertexProperty metallic))
              (voltageProperty (endVertexProperty metallic))
         <= voltage c
         <= Rmax (voltageProperty (startVertexProperty metallic))
                 (voltageProperty (endVertexProperty metallic))
      /\ (startPositionProperty metallic = endPositionProperty metallic ->
          voltage c = voltageProperty (startVertexProperty metallic)).
Proof.
  intros this probePosition metallic node Hsolder Hhit.
  unfold getVoltageConnection.
  destruct (find (hitsSolder probePosition) (solderNodes this)) as [hit |] eqn:Hf.
  { apply find_some in Hf. destruct Hf as [Hin Htrue].
    apply CircuitLayerNodeFacts.hitsSolder_true in Htrue.
    specialize (Hsolder hit Hin). lra. }
  rewrite Hhit. eexists. split; [reflexivity |]. simpl.
  split; [reflexivity |].
  set (d := if Req_dec_T _ 0 then 0 else _).
  pose proof (UtilsFacts.clamp_bounds d 0 1 ltac:(lra)) as Hd.
  set (k := Utils.clamp d 0 1) in *.
  unfold Utils.linear.
  set (vs := voltageProperty (startVertexProperty metallic)).
  set (ve := voltageProperty (endVertexProperty metallic)).
  replace ((ve - vs) / (1 - 0) * (k - 0) + vs) with (vs + k * (ve - vs)) by field.
  split.
  - unfold Rmin, Rmax. destruct (Rle_dec vs ve); split; nra.
  - intros Hsame. unfold k, d.
    destruct (Req_dec_T _ 0) as [_ | Hne].
    + rewrite UtilsFacts.clamp_inside by lra. ring.
    + exfalso. apply Hne. rewrite Hsame.
      apply (UtilsFacts.distance_self (endPositionProperty metallic)).
Qed.

Lemma getVoltageConnection_on_metallic_element_witness :
  let vs := mkVertex 0 (Vector2.mk 0 0) 0 false in
  let ve := mkVertex 1 (Vector2.mk 100 0) 10 false in
  let wire := mkCircuitElement vs ve true false false in
  let node := mkCircuitElementNode (fun _ => true) (fun _ => false) (fun _ => false) in
  let layer := mkCircuitLayerNode [] [(wire, Some node)] (fun _ _ => true) false in
  exists c,
    getVoltageConnection layer (Vector2.mk 50 0) = Some c
    /\ vertex c = vs
    /\ Rmin 0 10 <= voltage c <= Rmax 0 10.
Proof.
  cbv zeta.
  destruct (getVoltageConnection_on_metallic_element
              (mkCircuitLayerNode []
                 [(mkCircuitElement (mkVertex 0 (Vector2.mk 0 0) 0 false)
                     (mkVertex 1 (Vector2.mk 100 0) 10 false) true false false,
                   Some (mkCircuitElementNode (fun _ => true) (fun _ => false)
                           (fun _ => false)))]
                 (fun _ _ => true) false)
              (Vector2.mk 50 0)
              (mkCircuitElement (mkVertex 0 (Vector2.mk 0 0) 0 false)
                 (mkVertex 1 (Vector2.mk 100 0) 10 false) true false false)
              (mkCircuitElementNode (fun _ => true) (fun _ => false) (fun _ => false)))
    as (c & Hget & Hv & Hb & _).
  - simpl. intros s [].
  - reflexivity.
  - exists c. split; [exact Hget |]. split; [exact Hv | exact Hb].
Defined.

(** An element that is neither metallic nor a switch cannot be probed:
    when no solder is within reach and every element node that contains
    the probe belongs to such an element, the probe has no connection,
    and a voltmeter with that probe reads nothing. *)
Theorem getVoltageConnection_insulated :
  forall (this : CircuitLayerNode) (probePosition : Vector2.t),
    (forall s, In s (solderNodes this) ->
       SolderNode.SOLDER_RADIUS
       < Vector2.distance probePosition (positionProperty (SolderNode.vertex s))) ->
    (forall e node, In (e, Some node) (circuitElements this) ->
       containsSensorPoint node probePosition = true ->
       isMetallic e = false /\ isSwitch e = false) ->
    getVoltageConnection this probePosition = None
    /\ forall other : option VoltageConnection,
         getVoltage this (getVoltageConnection this probePosition) other = None
         /\ getVoltage this other (getVoltageConnection this probePosition) = None.
Proof.
  intros this probePosition Hsolder Hinsulated.
  assert (Hnone : forall filter : CircuitElement -> bool,
            (forall e node, In (e, Some node) (circuitElements this) ->
               containsSensorPoint node probePosition = true -> filter e = false) ->
            hitCircuitElementNode this probePosition filter = None).
  { intros filter Hf.
    pose proof (hit_search this probePosition filter _ eq_refl) as H.
    destruct (hitCircuitElementNode this probePosition filter) as [[e node] |];
      [| reflexivity].
    destruct H as (behind & front & Heq & Hc & _).
    assert (Hin : In (e, Some node)
                    (List.filter (fun en => filter (fst en)) (circuitElements this))).
    { rewrite Heq. apply in_or_app. right. left. reflexivity. }
    apply filter_In in Hin. destruct Hin as [Hin Htrue]. simpl in Htrue.
    rewrite (Hf e node Hin Hc) in Htrue. discriminate. }
  assert (Hget : getVoltageConnection this probePosition = None).
  { unfold getVoltageConnection.
    destruct (find (hitsSolder probePosition) (solderNodes this)) as [hit |] eqn:Hfind.
    { apply find_some in Hfind. destruct Hfind as [Hin Htrue].
      apply CircuitLayerNodeFacts.hitsSolder_true in Htrue.
      specialize (Hsolder hit Hin). lra. }
    rewrite (Hnone isMetallic)
      by (intros e node Hin Hc; exact (proj1 (Hinsulated e node Hin Hc))).
    rewrite (Hnone isSwitch)
      by (intros e node Hin Hc; exact (proj2 (Hinsulated e node Hin Hc))).
    reflexivity. }
  split; [exact Hget |].
  intros other. rewrite Hget. split; [reflexivity |].
  destruct other; reflexivity.
Qed.

(** A probe on the body of a resistor, far from its vertices. *)
Lemma getVoltageConnection_insulated_witness :
  getVoltageConnection
    (mkCircuitLayerNode []
       [(mkCircuitElement (mkVertex 0 (Vector2.mk 0 0) 0 false)
           (mkVertex 1 (Vector2.mk 100 0) 10 false) false false false,
         Some (mkCircuitElementNode (fun _ => true) (fun _ => false) (fun _ => false)))]
       (fun _ _ => true) false)
    (Vector2.mk 50 0)
  = None.
Proof.
  apply (getVoltageConnection_insulated
           (mkCircuitLayerNode []
              [(mkCircuitElement (mkVertex 0 (Vector2.mk 0 0) 0 false)
                  (mkVertex 1 (Vector2.mk 100 0) 10 false) false false false,
                Some (mkCircuitElementNode (fun _ => true) (fun _ => false)
                        (fun _ => false)))]
              (fun _ _ => true) false)
           (Vector2.mk 50 0)).
  - simpl. intros s [].
  - simpl. intros e node [Heq | []] _. injection Heq as <- _. split; reflexivity.
Defined.

End CircuitLayerNodeMoreFacts.

Module FixedLengthCircuitElementMoreFacts.
Local Open Scope R_scope.
Import Vertex.

(** Two vertices 10 apart make an element of length 10, and its vertices
    are different. *)
Lemma new_distinct_vertices_witness :
  exists e,
    FixedLengthCircuitElement.new 10
      (mkVertex 0 (Vector2.mk 0 0) 0 false) (mkVertex 1 (Vector2.mk 10 0) 0 false)
    = Some e
    /\ FixedLengthCircuitElement.startVertex e <> FixedLengthCircuitElement.endVertex e.
Proof.
  assert (Hnew : FixedLengthCircuitElement.new 10
            (mkVertex 0 (Vector2.mk 0 0) 0 false) (mkVertex 1 (Vector2.mk 10 0) 0 false)
          = Some (FixedLengthCircuitElement.mkFixedLengthCircuitElement
                    (mkVertex 0 (Vector2.mk 0 0) 0 false)
                    (mkVertex 1 (Vector2.mk 10 0) 0 false) 10 10)).
  { unfold FixedLengthCircuitElement.new.
    destruct (Rlt_dec _ _) as [_ | H]; [reflexivity |].
    exfalso. apply H.
    unfold Vector2.distance, Vector2.magnitude, Vector2.magnitudeSquared,
      Vector2.dot, Vector2.minus; simpl.
    replace ((0 - 10) * (0 - 10) + (0 - 0) * (0 - 0)) with (10 * 10) by ring.
    rewrite sqrt_square by lra.
    replace (10 - 10) with 0 by ring. rewrite Rabs_R0. lra. }
  eexists. split; [exact Hnew |].
  apply (FixedLengthCircuitElementFacts.new_distinct_vertices 10 _ _ _ ltac:(lra) Hnew).
Defined.

End FixedLengthCircuitElementMoreFacts.

(** ** ChargeNode: visibility, opacity and transform *)

Module ChargeNodeFacts.
Local Open Scope R_scope.
Import ChargeNode.

Section Images.

Variables arrowWidth arrowHeight electronWidth electronHeight : R.

Lemma updateTransform_charge (this : ChargeNode) :
  node_charge (updateTransform arrowWidth arrowHeight electronWidth electronHeight this) = node_charge this.
Proof.
  unfold updateTransform, set_outsideOfBlackBoxProperty, updateVisible.
  destruct (Rlt_dec 0 _); simpl; destruct (Bool.eqb _ _); reflexivity.
Qed.

Lemma updateTransform_visible (this : ChargeNode) :
  visible (updateTransform arrowWidth arrowHeight electronWidth electronHeight this)
  = (visibleProperty (node_charge this)
     && negb (circuitElement_insideTrueBlackBoxProperty (node_charge this)))%bool
  /\ outsideOfBlackBoxProperty
       (updateTransform arrowWidth arrowHeight electronWidth electronHeight this)
     = negb (circuitElement_insideTrueBlackBoxProperty (node_charge this)).
Proof.
  unfold updateTransform, set_outsideOfBlackBoxProperty, updateVisible.
  destruct (Rlt_dec 0 _); simpl;
    destruct (circuitElement_insideTrueBlackBoxProperty (node_charge this));
    destruct (outsideOfBlackBoxProperty this);
    destruct (visibleProperty (node_charge this)); simpl; split; reflexivity.
Qed.

(** After updateTransform the node is visible exactly when its charge is
    visible and the charge's element is outside the true black box,
    whatever the node's state before: the call of updateVisible that
    precedes the update of outsideOfBlackBoxProperty is made good by the
    Property's listener.  The same holds for a node fresh from the
    constructor. *)
Theorem updateTransform_visibility (this : ChargeNode) :
  let after :=
    updateTransform arrowWidth arrowHeight electronWidth electronHeight this in
  visible after
  = (visibleProperty (node_charge this)
     && negb (circuitElement_insideTrueBlackBoxProperty (node_charge this)))%bool
  /\ outsideOfBlackBoxProperty after
     = negb (circuitElement_insideTrueBlackBoxProperty (node_charge this))
  /\ forall charge : Charge,
       visible (new arrowWidth arrowHeight electronWidth electronHeight charge)
       = (visibleProperty charge
          && negb (circuitElement_insideTrueBlackBoxProperty charge))%bool.
Proof.
  cbv zeta.
  destruct (updateTransform_visible this) as [Hv Ho].
  split; [exact Hv |]. split; [exact Ho |].
  intros charge. unfold new. cbv zeta.
  exact (proj1 (updateTransform_visible _)).
Qed.

(** The opacity of a conventional-current arrow is in [0, 1]: full from
    15 mA on, zero up to the threshold of 1e-6 A, and strictly between
    the two otherwise.  The opacity of an electron is left alone. *)
Theorem updateTransform_opacity (this : ChargeNode) :
  let after := updateTransform arrowWidth arrowHeight electronWidth electronHeight this in
  let current := Rabs (circuitElement_currentProperty (node_charge this)) in
  (0 < charge (node_charge this) ->
     0 <= imageOpacity after <= 1
     /\ (15 / 1000 <= current <-> imageOpacity after = 1)
     /\ (current <= CONVENTIONAL_CHARGE_THRESHOLD <-> imageOpacity after = 0))
  /\ (charge (node_charge this) <= 0 -> imageOpacity after = imageOpacity this).
Proof.
  cbv zeta.
  unfold updateTransform, set_outsideOfBlackBoxProperty, updateVisible.
  destruct (Rlt_dec 0 (charge (node_charge this))) as [Hpos | Hneg].
  - split; [intros _ | intros H; lra].
    simpl.
    match goal with
    | |- context [imageOpacity (if Bool.eqb ?b ?o then ?n else ?m)] =>
        replace (imageOpacity (if Bool.eqb b o then n else m))
          with (Utils.clamp
                  (Utils.linear (15 / 1000) CONVENTIONAL_CHARGE_THRESHOLD 1 0
                     (Rabs (circuitElement_currentProperty (node_charge this)))) 0 1)
          by (destruct (Bool.eqb b o); reflexivity)
    end.
    set (c := Rabs (circuitElement_currentProperty (node_charge this))).
    unfold Utils.linear, Utils.clamp, CONVENTIONAL_CHARGE_THRESHOLD.
    assert (Hlin : (0 - 1) / (1 / 1000000 - 15 / 1000) * (c - 15 / 1000) + 1
                   = (c - 1 / 1000000) * (1000000 / 14999)) by (field; lra).
    rewrite Hlin.
    destruct (Rlt_dec _ 0) as [H0 | H0]; [| destruct (Rlt_dec 1 _) as [H1 | H1]].
    + split; [lra |]. split; split; intros H; lra.
    + split; [lra |]. split; split; intros H; lra.
    + split; [lra |]. split; split; intros H; lra.
  - split; [intros H; lra | intros _].
    simpl. destruct (Bool.eqb _ _); reflexivity.
Qed.

Lemma node_matrix_if (b : bool) (n m' : ChargeNode) :
  node_matrix n = node_matrix m' ->
  node_matrix (if b then n else m') = node_matrix n.
Proof. intros H. destruct b; [reflexivity | symmetry; exact H]. Qed.

(** The transform of an electron is upright: whatever the rotation in the
    charge's matrix, the node's matrix moves every point of the image by
    the charge's translation and the centring offset, without turning
    it. *)
Theorem updateTransform_electron_upright (this : ChargeNode) :
  charge (node_charge this) <= 0 ->
  let after := node_matrix (updateTransform arrowWidth arrowHeight electronWidth electronHeight this) in
  let m := matrix (node_charge this) in
  forall p : Vector2.t,
    Matrix3.timesVector2 after p
    = Vector2.plus p
        (Vector2.mk (Matrix3.m02 m - electronWidth / 2 - 1 / 2) (Matrix3.m12 m - electronHeight / 2 - 1 / 2)).
Proof.
  intros Hneg. cbv zeta.
  unfold updateTransform, set_outsideOfBlackBoxProperty, updateVisible.
  destruct (Rlt_dec 0 (charge (node_charge this))) as [Hpos | _]; [lra |].
  rewrite node_matrix_if by reflexivity. simpl.
  intros p. unfold Matrix3.timesVector2, Vector2.plus. simpl.
  f_equal; field.
Qed.

(** The arrow of a conventional charge is centred on the charge: the
    centre of the arrow image lands where the charge's matrix puts the
    origin, for either direction of the current.  With the current
    running backwards the arrow is turned by half a turn: the linear part
    of the matrix is the opposite of the charge's; otherwise it is the
    charge's. *)
Theorem updateTransform_arrow_centred (this : ChargeNode) :
  0 < charge (node_charge this) ->
  let after := node_matrix (updateTransform arrowWidth arrowHeight electronWidth electronHeight this) in
  let m := matrix (node_charge this) in
  let current := circuitElement_currentProperty (node_charge this) in
  Matrix3.timesVector2 after (Vector2.mk (arrowWidth / 2) (arrowHeight / 2))
  = Vector2.mk (Matrix3.m02 m) (Matrix3.m12 m)
  /\ (current < 0 ->
      Matrix3.m00 after = - Matrix3.m00 m /\ Matrix3.m01 after = - Matrix3.m01 m
      /\ Matrix3.m10 after = - Matrix3.m10 m /\ Matrix3.m11 after = - Matrix3.m11 m)
  /\ (0 <= current ->
      Matrix3.m00 after = Matrix3.m00 m /\ Matrix3.m01 after = Matrix3.m01 m
      /\ Matrix3.m10 after = Matrix3.m10 m /\ Matrix3.m11 after = Matrix3.m11 m).
Proof.
  intros Hpos. cbv zeta.
  unfold updateTransform, set_outsideOfBlackBoxProperty, updateVisible.
  destruct (Rlt_dec 0 (charge (node_charge this))) as [_ | Hneg]; [| lra].
  rewrite node_matrix_if by reflexivity. simpl.
  destruct (Rlt_dec (circuitElement_currentProperty (node_charge this)) 0) as [Hc | Hc].
  - unfold Matrix3.timesVector2, Matrix3.multiplyMatrix, HALF_ROTATION,
      Matrix3.rotation2, ARROW_OFFSET, Matrix3.translation. simpl.
    rewrite cos_PI, sin_PI.
    split; [f_equal; field |].
    split; [intros _; repeat split; ring | intros H; lra].
  - unfold Matrix3.timesVector2, Matrix3.multiplyMatrix, ARROW_OFFSET,
      Matrix3.translation. simpl.
    split; [f_equal; field |].
    split; [intros H; lra | intros _; repeat split; ring].
Qed.

End Images.

(** An electron on a charge matrix turned by a quarter turn at (5, 7),
    with a 10 by 10 image. *)
Lemma updateTransform_electron_upright_witness :
  Matrix3.timesVector2
    (node_matrix
       (updateTransform 0 0 10 10
          (mkChargeNode
             (mkCharge (-1) (Matrix3.mk 0 (-1) 5 1 0 7 0 0 1) true 0 false)
             false false Matrix3.IDENTITY 1)))
    (Vector2.mk 0 0)
  = Vector2.plus (Vector2.mk 0 0)
      (Vector2.mk (5 - 10 / 2 - 1 / 2) (7 - 10 / 2 - 1 / 2)).
Proof.
  apply (updateTransform_electron_upright 0 0 10 10
           (mkChargeNode
              (mkCharge (-1) (Matrix3.mk 0 (-1) 5 1 0 7 0 0 1) true 0 false)
              false false Matrix3.IDENTITY 1)).
  simpl. lra.
Defined.

(** An arrow with the current running backwards, with a 20 by 10 image. *)
Lemma updateTransform_arrow_centred_witness :
  Matrix3.timesVector2
    (node_matrix
       (updateTransform 20 10 0 0
          (mkChargeNode
             (mkCharge 1 (Matrix3.mk 0 (-1) 5 1 0 7 0 0 1) true (-2) false)
             false false Matrix3.IDENTITY 1)))
    (Vector2.mk (20 / 2) (10 / 2))
  = Vector2.mk 5 7.
Proof.
  apply (updateTransform_arrow_centred 20 10 0 0
           (mkChargeNode
              (mkCharge 1 (Matrix3.mk 0 (-1) 5 1 0 7 0 0 1) true (-2) false)
              false false Matrix3.IDENTITY 1)).
  simpl. lra.
Defined.



End ChargeNodeFacts.

(** ** The ammeter probe *)

Module CircuitLayerNodeCurrentFacts.
Local Open Scope R_scope.
Import CircuitLayerNodeCurrent.

Lemma getCurrentInLayer_first (position : Vector2.t) (children : list Child) :
  match getCurrentInLayer position children with
  | Some current =>
      exists before node after,
        children = before ++ Element node :: after
        /\ (forall n, In (Element n) before ->
              circuitElementDisposed n = true \/ containsSensorPoint n position = false)
        /\ circuitElementDisposed node = false
        /\ containsSensorPoint node position = true
        /\ current = currentProperty node
  | None =>
      forall n, In (Element n) children ->
        circuitElementDisposed n = true \/ containsSensorPoint n position = false
  end.
Proof.
  induction children as [| child rest IH]; simpl; [intros n [] |].
  destruct child as [| node].
  - destruct (getCurrentInLayer position rest) as [current |].
    + destruct IH as (before & n & after & Heq & Hb & Hd & Hc & Hcur).
      exists (Other :: before), n, after. rewrite Heq. simpl.
      refine (conj eq_refl (conj _ (conj Hd (conj Hc Hcur)))).
      intros n' [Hn | Hn]; [discriminate | exact (Hb n' Hn)].
    + intros n [Hn | Hn]; [discriminate | exact (IH n Hn)].
  - assert (Hmiss : (negb (circuitElementDisposed node)
                     && containsSensorPoint node position)%bool = false ->
                    circuitElementDisposed node = true
                    \/ containsSensorPoint node position = false).
    { destruct (circuitElementDisposed node); [left; reflexivity |].
      simpl. intros H; right; exact H. }
    destruct (negb (circuitElementDisposed node) && containsSensorPoint node position)%bool
      eqn:Hhit.
    + apply andb_true_iff in Hhit. destruct Hhit as [Hd Hc].
      apply negb_true_iff in Hd.
      exists [], node, rest. simpl.
      refine (conj eq_refl (conj _ (conj Hd (conj Hc eq_refl)))).
      intros n [].
    + destruct (getCurrentInLayer position rest) as [current |].
      * destruct IH as (before & n & after & Heq & Hb & Hd & Hc & Hcur).
        exists (Element node :: before), n, after. rewrite Heq. simpl.
        refine (conj eq_refl (conj _ (conj Hd (conj Hc Hcur)))).
        intros n' [Hn | Hn]; [| exact (Hb n' Hn)].
        injection Hn as <-. exact (Hmiss eq_refl).
      * intros n [Hn | Hn]; [| exact (IH n Hn)].
        injection Hn as <-. exact (Hmiss eq_refl).
Qed.

(** The ammeter reads the first element node of the fixed layer whose
    element is not disposed and that contains the probe, and looks at the
    wire layer only when the fixed layer has none; it reads null exactly
    when neither layer has such a node.  A disposed element is never
    read. *)
Theorem getCurrent_first_live_hit (position : Vector2.t)
  (fixedCircuitElementLayer wireLayer : list Child) :
  match getCurrent position fixedCircuitElementLayer wireLayer with
  | Some current =>
      exists before node after,
        (fixedCircuitElementLayer = before ++ Element node :: after
         \/ (wireLayer = before ++ Element node :: after
             /\ forall n, In (Element n) fixedCircuitElementLayer ->
                  circuitElementDisposed n = true
                  \/ containsSensorPoint n position = false))
        /\ (forall n, In (Element n) before ->
              circuitElementDisposed n = true \/ containsSensorPoint n position = false)
        /\ circuitElementDisposed node = false
        /\ containsSensorPoint node position = true
        /\ current = currentProperty node
  | None =>
      forall n, In (Element n) (fixedCircuitElementLayer ++ wireLayer) ->
        circuitElementDisposed n = true \/ containsSensorPoint n position = false
  end.
Proof.
  unfold getCurrent.
  pose proof (getCurrentInLayer_first position fixedCircuitElementLayer) as Hf.
  destruct (getCurrentInLayer position fixedCircuitElementLayer) as [mainCurrent |].
  - destruct Hf as (before & node & after & Heq & Hb & Hd & Hc & Hcur).
    exists before, node, after.
    refine (conj (or_introl Heq) (conj Hb (conj Hd (conj Hc Hcur)))).
  - pose proof (getCurrentInLayer_first position wireLayer) as Hw.
    destruct (getCurrentInLayer position wireLayer) as [current |].
    + destruct Hw as (before & node & after & Heq & Hb & Hd & Hc & Hcur).
      exists before, node, after.
      refine (conj (or_intror (conj Heq Hf)) (conj Hb (conj Hd (conj Hc Hcur)))).
    + intros n Hin. apply in_app_or in Hin.
      destruct Hin as [Hin | Hin]; [exact (Hf n Hin) | exact (Hw n Hin)].
Qed.

End CircuitLayerNodeCurrentFacts.

(** ** Dragging vertices *)

Module CircuitLayerNodeDragFacts.
Local Open Scope R_scope.
Import CircuitLayerNodeDrag.

(** *** The sort *)

Lemma insertBy_head {A : Type} (key : A -> R) (a : A) (sorted : list A) :
  hd_error (insertBy key a sorted)
  = match hd_error sorted with
    | None => Some a
    | Some b => if Rle_dec (key a) (key b) then Some a else Some b
    end.
Proof.
  destruct sorted as [| b rest]; simpl; [reflexivity |].
  destruct (Rle_dec (key a) (key b)); reflexivity.
Qed.

(** The head of the sorted list is the first of the elements with the
    least key. *)
Lemma sortBy_head {A : Type} (key : A -> R) (l : list A) :
  match hd_error (sortBy l key) with
  | Some t =>
      exists before after,
        l = before ++ t :: after
        /\ (forall t', In t' before -> key t < key t')
        /\ (forall t', In t' after -> key t <= key t')
  | None => l = []
  end.
Proof.
  induction l as [| a rest IH]; simpl; [reflexivity |].
  rewrite insertBy_head.
  destruct (hd_error (sortBy rest key)) as [b |].
  - destruct IH as (before & after & Heq & Hb & Ha).
    destruct (Rle_dec (key a) (key b)) as [Hle | Hgt].
    + exists [], rest. simpl. split; [reflexivity |].
      split; [intros t' [] |].
      intros t' Hin. rewrite Heq in Hin. apply in_app_or in Hin.
      destruct Hin as [Hin | [Hin | Hin]].
      * specialize (Hb t' Hin). lra.
      * subst t'. exact Hle.
      * specialize (Ha t' Hin). lra.
    + exists (a :: before), after. rewrite Heq. simpl.
      split; [reflexivity |]. split; [| exact Ha].
      intros t' [Hin | Hin]; [subst t'; lra | exact (Hb t' Hin)].
  - subst rest. exists [], []. simpl.
    split; [reflexivity |]. split; intros t' [].
Qed.

Section DropTargets.

Variable getDropTarget : Store -> nat -> option nat.

Lemma getAllDropTargets_In (s : Store) (vertices : list nat) (t : DropTarget) :
  In t (getAllDropTargets getDropTarget s vertices)
  <-> In (src t) vertices /\ getDropTarget s (src t) = Some (dst t).
Proof.
  induction vertices as [| v rest IH]; simpl; [tauto |].
  destruct (getDropTarget s v) as [d |] eqn:Hd; simpl.
  - rewrite IH. split.
    + intros [Heq | [Hin Hget]]; [subst t; simpl; auto | auto].
    + intros [[Heq | Hin] Hget].
      * left. destruct t as [sv dv]. simpl in *. subst sv. congruence.
      * right. auto.
  - rewrite IH. split.
    + intros [Hin Hget]. auto.
    + intros [[Heq | Hin] Hget]; [subst v; congruence | auto].
Qed.

Lemma getBestDropTarget_target (s : Store) (vertices : list nat) :
  match getBestDropTarget getDropTarget s vertices with
  | Some best => In (src best) vertices /\ getDropTarget s (src best) = Some (dst best)
  | None => forall v, In v vertices -> getDropTarget s v = None
  end.
Proof.
  unfold getBestDropTarget.
  pose proof (sortBy_head (dropDistance s) (getAllDropTargets getDropTarget s vertices))
    as H.
  destruct (hd_error _) as [best |].
  - destruct H as (before & after & Heq & _).
    apply getAllDropTargets_In. rewrite Heq. apply in_or_app. right. left. reflexivity.
  - intros v Hv. destruct (getDropTarget s v) as [d |] eqn:Hd; [| reflexivity].
    assert (Hin : In (mkDropTarget v d) (getAllDropTargets getDropTarget s vertices)).
    { apply getAllDropTargets_In. simpl. auto. }
    rewrite H in Hin. destruct Hin.
Qed.

(** getBestDropTarget returns a drop target of one of the given vertices
    that is nearest: no vertex of the list has a target nearer to its
    unsnapped position.  It returns undefined exactly when no vertex of
    the list has a drop target. *)
Theorem getBestDropTarget_nearest (s : Store) (vertices : list nat) :
  match getBestDropTarget getDropTarget s vertices with
  | Some best =>
      In (src best) vertices
      /\ getDropTarget s (src best) = Some (dst best)
      /\ forall v d, In v vertices -> getDropTarget s v = Some d ->
           Vector2.distance (unsnappedPositionProperty (s (src best)))
                            (positionProperty (s (dst best)))
           <= Vector2.distance (unsnappedPositionProperty (s v))
                               (positionProperty (s d))
  | None => forall v, In v vertices -> getDropTarget s v = None
  end.
Proof.
  unfold getBestDropTarget.
  pose proof (sortBy_head (dropDistance s) (getAllDropTargets getDropTarget s vertices))
    as H.
  destruct (hd_error _) as [best |].
  - destruct H as (before & after & Heq & Hb & Ha).
    assert (Hin : In best (getAllDropTargets getDropTarget s vertices)).
    { rewrite Heq. apply in_or_app. right. left. reflexivity. }
    apply getAllDropTargets_In in Hin. destruct Hin as [Hsrc Hdst].
    split; [exact Hsrc |]. split; [exact Hdst |].
    intros v d Hv Hd.
    assert (Hin : In (mkDropTarget v d) (getAllDropTargets getDropTarget s vertices)).
    { apply getAllDropTargets_In. simpl. auto. }
    rewrite Heq in Hin. apply in_app_or in Hin.
    change (dropDistance s best <= dropDistance s (mkDropTarget v d)).
    destruct Hin as [Hin | [Hin | Hin]].
    + specialize (Hb _ Hin). lra.
    + rewrite Hin. lra.
    + exact (Ha _ Hin).
  - intros v Hv. destruct (getDropTarget s v) as [d |] eqn:Hd; [| reflexivity].
    assert (Hin : In (mkDropTarget v d) (getAllDropTargets getDropTarget s vertices)).
    { apply getAllDropTargets_In. simpl. auto. }
    rewrite H in Hin. destruct Hin.
Qed.

End DropTargets.

(** *** Marking vertices as dragged *)

Section Dragging.

Variable findAllFixedVertices : nat -> list nat.

Lemma canDragVertex_true (s : Store) (vertex : nat) :
  canDragVertex findAllFixedVertices s vertex = true
  <-> forall u, In u (findAllFixedVertices vertex) -> isDragged (s u) = false.
Proof.
  unfold canDragVertex.
  induction (findAllFixedVertices vertex) as [| v rest IH]; simpl.
  - split; [intros _ u [] | reflexivity].
  - destruct (isDragged (s v)) eqn:Hd.
    + split; [discriminate |]. intros H.
      rewrite (H v (or_introl eq_refl)) in Hd. discriminate.
    + rewrite IH. split.
      * intros H u [Hu | Hu]; [subst u; exact Hd | exact (H u Hu)].
      * intros H u Hu. apply H. right. exact Hu.
Qed.

Lemma fold_set_isDragged (l : list nat) (s : Store) (u : nat) :
  (In u l ->
   isDragged (fold_left (fun s v => update s v (set_isDragged true)) l s u) = true)
  /\ (~ In u l -> fold_left (fun s v => update s v (set_isDragged true)) l s u = s u)
  /\ unsnappedPositionProperty
       (fold_left (fun s v => update s v (set_isDragged true)) l s u)
     = unsnappedPositionProperty (s u)
  /\ positionProperty (fold_left (fun s v => update s v (set_isDragged true)) l s u)
     = positionProperty (s u)
  /\ (isDragged (s u) = true ->
      isDragged (fold_left (fun s v => update s v (set_isDragged true)) l s u) = true).
Proof.
  revert s. induction l as [| v rest IH]; intros s; simpl.
  - repeat split; try reflexivity; try tauto.
  - destruct (IH (update s v (set_isDragged true))) as (H1 & H2 & H3 & H4 & H5).
    assert (Hupd : isDragged (s u) = true \/ u = v ->
                   isDragged (update s v (set_isDragged true) u) = true).
    { unfold update. destruct (Nat.eqb u v) eqn:He.
      - intros _. reflexivity.
      - intros [H | H]; [exact H |]. subst u. rewrite Nat.eqb_refl in He. discriminate. }
    split; [| split; [| split; [| split]]].
    + intros [Hu | Hu].
      * apply H5. apply Hupd. right. symmetry; exact Hu.
      * exact (H1 Hu).
    + intros Hn. rewrite H2 by tauto. unfold update.
      destruct (Nat.eqb u v) eqn:He; [| reflexivity].
      apply Nat.eqb_eq in He. subst u. tauto.
    + rewrite H3. unfold update. destruct (Nat.eqb u v); reflexivity.
    + rewrite H4. unfold update. destruct (Nat.eqb u v); reflexivity.
    + intros Hd. apply H5. apply Hupd. left. exact Hd.
Qed.

(** After setVerticesDragging( vertex ) a vertex can be dragged exactly
    when it could before and its group of fixed vertices shares no vertex
    with the group just marked; no position is changed. *)
Theorem setVerticesDragging_locks_group (s : Store) (vertex other : nat) :
  let s' := setVerticesDragging findAllFixedVertices s vertex in
  (canDragVertex findAllFixedVertices s' other = true
   <-> canDragVertex findAllFixedVertices s other = true
       /\ forall u, In u (findAllFixedVertices other) ->
            ~ In u (findAllFixedVertices vertex))
  /\ forall u, unsnappedPositionProperty (s' u) = unsnappedPositionProperty (s u)
               /\ positionProperty (s' u) = positionProperty (s u).
Proof.
  cbv zeta. unfold setVerticesDragging. split.
  - rewrite !canDragVertex_true. split.
    + intros H. split.
      * intros u Hu. specialize (H u Hu).
        destruct (fold_set_isDragged (findAllFixedVertices vertex) s u)
          as (_ & _ & _ & _ & H5).
        destruct (isDragged (s u)); [| reflexivity].
        rewrite H5 in H by reflexivity. discriminate.
      * intros u Hu Hin. specialize (H u Hu).
        destruct (fold_set_isDragged (findAllFixedVertices vertex) s u) as (H1 & _).
        rewrite H1 in H by exact Hin. discriminate.
    + intros [H Hdis] u Hu.
      destruct (fold_set_isDragged (findAllFixedVertices vertex) s u) as (_ & H2 & _).
      rewrite H2 by (apply Hdis; exact Hu). exact (H u Hu).
  - intros u.
    destruct (fold_set_isDragged (findAllFixedVertices vertex) s u)
      as (_ & _ & H3 & H4 & _).
    split; assumption.
Qed.

End Dragging.

(** *** Translating a group *)

Section Translating.

Variable getDropTarget : Store -> nat -> option nat.
Variable bounds : Bounds2.t.

Lemma plus_ZERO (p : Vector2.t) : Vector2.plus p Vector2.ZERO = p.
Proof. destruct p as [px py]. unfold Vector2.plus, Vector2.ZERO; simpl. f_equal; ring. Qed.

Lemma plus_minus (p q : Vector2.t) : Vector2.plus p (Vector2.minus q p) = q.
Proof.
  destruct p as [px py], q as [qx qy]. unfold Vector2.plus, Vector2.minus; simpl.
  f_equal; ring.
Qed.

Lemma containsPoint_true (p : Vector2.t) :
  Bounds2.containsPoint bounds p = true
  <-> Bounds2.minX bounds <= Vector2.x p <= Bounds2.maxX bounds
      /\ Bounds2.minY bounds <= Vector2.y p <= Bounds2.maxY bounds.
Proof.
  unfold Bounds2.containsPoint, Bounds2.containsCoordinates.
  destruct (Rle_dec (Bounds2.minX bounds) (Vector2.x p));
    destruct (Rle_dec (Vector2.x p) (Bounds2.maxX bounds));
    destruct (Rle_dec (Bounds2.minY bounds) (Vector2.y p));
    destruct (Rle_dec (Vector2.y p) (Bounds2.maxY bounds)); simpl;
    split; intros H; try discriminate; try reflexivity; try lra.
Qed.

Lemma keepInBounds_inside (s : Store) (vertices : list nat) (d : Vector2.t) :
  (forall v, In v vertices ->
     Bounds2.containsPoint bounds (Vector2.plus (unsnappedPositionProperty (s v)) d)
     = true) ->
  keepInBounds bounds s vertices d = d.
Proof.
  induction vertices as [| v rest IH]; intros H; simpl; [reflexivity |].
  rewrite (H v (or_introl eq_refl)). simpl.
  apply IH. intros u Hu. apply H. right. exact Hu.
Qed.

(** The first loop corrects each coordinate on its own: a coordinate in
    which every proposed position is in range is left as it was asked
    for, whatever is done to the other one. *)
Lemma keepInBounds_x (s : Store) (vertices : list nat) (d : Vector2.t) :
  (forall v, In v vertices ->
     Bounds2.minX bounds
     <= Vector2.x (unsnappedPositionProperty (s v)) + Vector2.x d
     <= Bounds2.maxX bounds) ->
  Vector2.x (keepInBounds bounds s vertices d) = Vector2.x d.
Proof.
  revert d. induction vertices as [| v rest IH]; intros d H; simpl; [reflexivity |].
  destruct (Bounds2.containsPoint bounds _); simpl.
  - apply IH. intros u Hu. apply H. right. exact Hu.
  - pose proof (H v (or_introl eq_refl)) as Hv.
    assert (Hx : Vector2.x
                   (Vector2.plus d
                      (Vector2.minus
                         (Bounds2.getClosestPoint bounds
                            (Vector2.x (Vector2.plus (unsnappedPositionProperty (s v)) d))
                            (Vector2.y (Vector2.plus (unsnappedPositionProperty (s v)) d)))
                         (Vector2.plus (unsnappedPositionProperty (s v)) d)))
                 = Vector2.x d).
    { unfold Bounds2.getClosestPoint. simpl.
      destruct (Rlt_dec _ (Bounds2.minX bounds)); [lra |].
      destruct (Rlt_dec (Bounds2.maxX bounds) _); lra. }
    etransitivity; [| exact Hx].
    apply IH. intros u Hu. rewrite Hx. apply H. right. exact Hu.
Qed.

Lemma keepInBounds_y (s : Store) (vertices : list nat) (d : Vector2.t) :
  (forall v, In v vertices ->
     Bounds2.minY bounds
     <= Vector2.y (unsnappedPositionProperty (s v)) + Vector2.y d
     <= Bounds2.maxY bounds) ->
  Vector2.y (keepInBounds bounds s vertices d) = Vector2.y d.
Proof.
  revert d. induction vertices as [| v rest IH]; intros d H; simpl; [reflexivity |].
  destruct (Bounds2.containsPoint bounds _); simpl.
  - apply IH. intros u Hu. apply H. right. exact Hu.
  - pose proof (H v (or_introl eq_refl)) as Hv.
    assert (Hy : Vector2.y
                   (Vector2.plus d
                      (Vector2.minus
                         (Bounds2.getClosestPoint bounds
                            (Vector2.x (Vector2.plus (unsnappedPositionProperty (s v)) d))
                            (Vector2.y (Vector2.plus (unsnappedPositionProperty (s v)) d)))
                         (Vector2.plus (unsnappedPositionProperty (s v)) d)))
                 = Vector2.y d).
    { unfold Bounds2.getClosestPoint. simpl.
      destruct (Rlt_dec _ (Bounds2.minY bounds)); [lra |].
      destruct (Rlt_dec (Bounds2.maxY bounds) _); lra. }
    etransitivity; [| exact Hy].
    apply IH. intros u Hu. rewrite Hy. apply H. right. exact Hu.
Qed.

Lemma fold_unsnapped (d : Vector2.t) (l : list nat) (s : Store) (u : nat) :
  NoDup l ->
  let s' :=
    fold_left
      (fun s v =>
         update s v
           (set_unsnappedPosition (Vector2.plus (unsnappedPositionProperty (s v)) d)))
      l s in
  (In u l ->
   s' u = set_unsnappedPosition (Vector2.plus (unsnappedPositionProperty (s u)) d) (s u))
  /\ (~ In u l -> s' u = s u).
Proof.
  cbv zeta. revert s. induction l as [| v rest IH]; intros s Hnd; simpl.
  - split; [tauto | reflexivity].
  - inversion Hnd as [| v' rest' Hnotin Hnd']; subst.
    destruct (IH (update s v
                    (set_unsnappedPosition
                       (Vector2.plus (unsnappedPositionProperty (s v)) d))) Hnd')
      as [H1 H2].
    split.
    + intros [Hu | Hu].
      * subst u. rewrite H2 by exact Hnotin. unfold update.
        rewrite Nat.eqb_refl. reflexivity.
      * rewrite H1 by exact Hu. unfold update.
        destruct (Nat.eqb u v) eqn:He; [| reflexivity].
        apply Nat.eqb_eq in He. subst u. contradiction.
    + intros Hn. rewrite H2 by tauto. unfold update.
      destruct (Nat.eqb u v) eqn:He; [| reflexivity].
      apply Nat.eqb_eq in He. subst u. tauto.
Qed.

Lemma fold_position (delta : Vector2.t) (l : list nat) (s : Store) (u : nat) :
  let s' :=
    fold_left
      (fun s v =>
         update s v
           (set_position (Vector2.plus (unsnappedPositionProperty (s v)) delta)))
      l s in
  unsnappedPositionProperty (s' u) = unsnappedPositionProperty (s u)
  /\ isDragged (s' u) = isDragged (s u)
  /\ draggableProperty (s' u) = draggableProperty (s u)
  /\ (In u l ->
      positionProperty (s' u) = Vector2.plus (unsnappedPositionProperty (s u)) delta)
  /\ (~ In u l -> s' u = s u).
Proof.
  cbv zeta. revert s. induction l as [| v rest IH]; intros s; simpl.
  - repeat split; try reflexivity; tauto.
  - destruct (IH (update s v
                    (set_position
                       (Vector2.plus (unsnappedPositionProperty (s v)) delta))))
      as (H1 & H2 & H3 & H4 & H5).
    assert (Hu1 : unsnappedPositionProperty
                    (update s v
                       (set_position
                          (Vector2.plus (unsnappedPositionProperty (s v)) delta)) u)
                  = unsnappedPositionProperty (s u)).
    { unfold update. destruct (Nat.eqb u v); reflexivity. }
    split; [rewrite H1; exact Hu1 |].
    split; [rewrite H2; unfold update; destruct (Nat.eqb u v); reflexivity |].
    split; [rewrite H3; unfold update; destruct (Nat.eqb u v); reflexivity |].
    split.
    + intros Hin. destruct (in_dec Nat.eq_dec u rest) as [Hr | Hr].
      * rewrite H4 by exact Hr. rewrite Hu1. reflexivity.
      * rewrite H5 by exact Hr. destruct Hin as [Hin | Hin]; [| contradiction].
        subst u. unfold update. rewrite Nat.eqb_refl. reflexivity.
    + intros Hn. rewrite H5 by tauto. unfold update.
      destruct (Nat.eqb u v) eqn:He; [| reflexivity].
      apply Nat.eqb_eq in He. subst u. tauto.
Qed.

Lemma translateVertexGroup_rigid_aux (s : Store) (vertex : nat) (vertices : list nat)
  (unsnappedDelta : Vector2.t) (attachable : list nat) :
  NoDup vertices ->
  forall v, In v vertices ->
    unsnappedPositionProperty
      (translateVertexGroup getDropTarget bounds s vertex vertices unsnappedDelta
         None attachable v)
    = Vector2.plus (unsnappedPositionProperty (s v))
        (keepInBounds bounds s vertices unsnappedDelta).
Proof.
  intros Hnd v Hv. unfold translateVertexGroup.
  set (delta := keepInBounds bounds s vertices unsnappedDelta).
  set (s1 := fold_left _ vertices s).
  match goal with
  | |- context [fold_left _ vertices s1] =>
      match goal with
      | |- unsnappedPositionProperty (fold_left (fun s v => update s v
             (set_position (Vector2.plus _ ?snap))) _ _ _) = _ =>
          destruct (fold_position snap vertices s1 v) as (H1 & _)
      end
  end.
  rewrite H1.
  destruct (fold_unsnapped delta vertices s v Hnd) as [Hs1 _].
  fold s1 in Hs1. rewrite (Hs1 Hv). reflexivity.
Qed.

(** Without an updatePositions callback, translateVertexGroup moves a
    group of distinct vertices rigidly: every unsnapped position is
    shifted by one and the same delta and every position by that delta
    plus one and the same snap, so the distances within the group are
    kept; the flags of the group and every vertex outside of it stay as
    they are.  When every proposed position is in bounds the delta is the
    one asked for. *)
Theorem translateVertexGroup_rigid (s : Store) (vertex : nat) (vertices : list nat)
  (unsnappedDelta : Vector2.t) (attachable : list nat) :
  NoDup vertices ->
  let s' := translateVertexGroup getDropTarget bounds s vertex vertices unsnappedDelta
              None attachable in
  exists delta snap : Vector2.t,
    (forall v, In v vertices ->
       unsnappedPositionProperty (s' v)
       = Vector2.plus (unsnappedPositionProperty (s v)) delta
       /\ positionProperty (s' v)
          = Vector2.plus (Vector2.plus (unsnappedPositionProperty (s v)) delta) snap
       /\ isDragged (s' v) = isDragged (s v)
       /\ draggableProperty (s' v) = draggableProperty (s v))
    /\ (forall w, ~ In w vertices -> s' w = s w)
    /\ ((forall v, In v vertices ->
           Bounds2.containsPoint bounds
             (Vector2.plus (unsnappedPositionProperty (s v)) unsnappedDelta) = true) ->
        delta = unsnappedDelta).
Proof.
  intros Hnd. cbv zeta. unfold translateVertexGroup.
  set (delta := keepInBounds bounds s vertices unsnappedDelta).
  set (s1 := fold_left _ vertices s).
  set (snap := match getBestDropTarget getDropTarget s1 attachable with
               | Some best => _
               | None => Vector2.ZERO
               end).
  exists delta, snap. split; [| split].
  - intros v Hv.
    destruct (fold_position snap vertices s1 v) as (H1 & H2 & H3 & H4 & _).
    destruct (fold_unsnapped delta vertices s v Hnd) as [Hs1 _].
    fold s1 in Hs1. specialize (Hs1 Hv).
    rewrite H1, H2, H3, (H4 Hv), Hs1. simpl. repeat split.
  - intros w Hw.
    destruct (fold_position snap vertices s1 w) as (_ & _ & _ & _ & H5).
    destruct (fold_unsnapped delta vertices s w Hnd) as [_ Hs1].
    fold s1 in Hs1. rewrite (H5 Hw). exact (Hs1 Hw).
  - intros Hin. apply keepInBounds_inside. exact Hin.
Qed.

(** Sliding along the bounds.  Without an updatePositions callback and
    for a group of distinct vertices: when every proposed position (the
    unsnapped position plus the delta asked for) has its x in the range
    of the bounds, every vertex of the group has its unsnapped x moved by
    exactly the x asked for, also when the first loop cuts back y to keep
    the group in bounds; and the same with x and y exchanged. *)
Theorem translateVertexGroup_slides_along_bounds (s : Store) (vertex : nat)
  (vertices : list nat) (unsnappedDelta : Vector2.t) (attachable : list nat) :
  NoDup vertices ->
  let s' := translateVertexGroup getDropTarget bounds s vertex vertices unsnappedDelta
              None attachable in
  ((forall v, In v vertices ->
      Bounds2.minX bounds
      <= Vector2.x (unsnappedPositionProperty (s v)) + Vector2.x unsnappedDelta
      <= Bounds2.maxX bounds) ->
   forall v, In v vertices ->
     Vector2.x (unsnappedPositionProperty (s' v))
     = Vector2.x (unsnappedPositionProperty (s v)) + Vector2.x unsnappedDelta)
  /\ ((forall v, In v vertices ->
         Bounds2.minY bounds
         <= Vector2.y (unsnappedPositionProperty (s v)) + Vector2.y unsnappedDelta
         <= Bounds2.maxY bounds) ->
      forall v, In v vertices ->
        Vector2.y (unsnappedPositionProperty (s' v))
        = Vector2.y (unsnappedPositionProperty (s v)) + Vector2.y unsnappedDelta).
Proof.
  intros Hnd. cbv zeta. split; intros Hrange v Hv;
    rewrite (translateVertexGroup_rigid_aux s vertex vertices unsnappedDelta
               attachable Hnd v Hv); simpl.
  - rewrite (keepInBounds_x s vertices unsnappedDelta Hrange). reflexivity.
  - rewrite (keepInBounds_y s vertices unsnappedDelta Hrange). reflexivity.
Qed.

(** The snap.  Let [moved] be the vertices as getBestDropTarget sees
    them: after the first two loops and the updatePositions callback,
    if there is one.  The last loop leaves every unsnapped position as
    it is in [moved].  When getBestDropTarget finds a drop target among
    the attachable vertices, it is a target that getDropTarget gives for
    an attachable vertex, every vertex of the group is put at its
    unsnapped position plus the vector from the unsnapped position of
    that vertex to the unsnapped position of its target, and that vertex,
    when it is in the group, is put on its target's unsnapped position.
    When it finds none, no attachable vertex has a drop target and every
    vertex of the group is put at its unsnapped position. *)
Theorem translateVertexGroup_snaps (s : Store) (vertex : nat) (vertices : list nat)
  (unsnappedDelta : Vector2.t) (updatePositions : option (Store -> Store))
  (attachable : list nat) :
  let moved := beforeSnap bounds s vertices unsnappedDelta updatePositions in
  let s' := translateVertexGroup getDropTarget bounds s vertex vertices unsnappedDelta
              updatePositions attachable in
  (forall w, unsnappedPositionProperty (s' w) = unsnappedPositionProperty (moved w))
  /\ match getBestDropTarget getDropTarget moved attachable with
     | Some best =>
         In (src best) attachable
         /\ getDropTarget moved (src best) = Some (dst best)
         /\ (forall v, In v vertices ->
               positionProperty (s' v)
               = Vector2.plus (unsnappedPositionProperty (moved v))
                   (Vector2.minus (unsnappedPositionProperty (moved (dst best)))
                                  (unsnappedPositionProperty (moved (src best)))))
         /\ (In (src best) vertices ->
             positionProperty (s' (src best))
             = unsnappedPositionProperty (moved (dst best)))
     | None =>
         (forall v, In v attachable -> getDropTarget moved v = None)
         /\ forall v, In v vertices ->
              positionProperty (s' v) = unsnappedPositionProperty (moved v)
     end.
Proof.
  cbv zeta. unfold translateVertexGroup.
  fold (beforeSnap bounds s vertices unsnappedDelta updatePositions).
  set (moved := beforeSnap bounds s vertices unsnappedDelta updatePositions).
  pose proof (getBestDropTarget_target getDropTarget moved attachable) as Hbest.
  destruct (getBestDropTarget getDropTarget moved attachable) as [best |].
  - set (snap := Vector2.minus (unsnappedPositionProperty (moved (dst best)))
                   (unsnappedPositionProperty (moved (src best)))).
    split.
    { intros w. destruct (fold_position snap vertices moved w) as (H1 & _).
      exact H1. }
    destruct Hbest as [Hsrc Hdst].
    split; [exact Hsrc |]. split; [exact Hdst |].
    assert (Hall : forall v, In v vertices ->
              positionProperty
                (fold_left
                   (fun s v => update s v
                      (set_position
                         (Vector2.plus (unsnappedPositionProperty (s v)) snap)))
                   vertices moved v)
              = Vector2.plus (unsnappedPositionProperty (moved v)) snap).
    { intros v Hv.
      destruct (fold_position snap vertices moved v) as (_ & _ & _ & H4 & _).
      exact (H4 Hv). }
    split; [exact Hall |].
    intros Hin. rewrite (Hall _ Hin). apply plus_minus.
  - split.
    { intros w. destruct (fold_position Vector2.ZERO vertices moved w) as (H1 & _).
      exact H1. }
    split; [exact Hbest |].
    intros v Hv.
    destruct (fold_position Vector2.ZERO vertices moved v) as (_ & _ & _ & H4 & _).
    rewrite (H4 Hv). apply plus_ZERO.
Qed.

End Translating.

(** Two vertices at (0,0) and (10,0) in the bounds [0,20] x [0,20], asked
    to move by (-5, 0). *)
Lemma translateVertexGroup_rigid_witness :
  let s : Store := fun w =>
    match w with
    | O => mkVertex (Vector2.mk 0 0) (Vector2.mk 0 0) false true
    | _ => mkVertex (Vector2.mk 10 0) (Vector2.mk 10 0) false true
    end in
  let s' := translateVertexGroup (fun _ _ => None) (Bounds2.mk 0 0 20 20) s 0
              [0%nat; 1%nat] (Vector2.mk (-5) 0) None [0%nat; 1%nat] in
  exists delta snap : Vector2.t,
    (forall v, In v [0%nat; 1%nat] ->
       unsnappedPositionProperty (s' v)
       = Vector2.plus (unsnappedPositionProperty (s v)) delta
       /\ positionProperty (s' v)
          = Vector2.plus (Vector2.plus (unsnappedPositionProperty (s v)) delta) snap
       /\ isDragged (s' v) = isDragged (s v)
       /\ draggableProperty (s' v) = draggableProperty (s v))
    /\ (forall w, ~ In w [0%nat; 1%nat] -> s' w = s w)
    /\ ((forall v, In v [0%nat; 1%nat] ->
           Bounds2.containsPoint (Bounds2.mk 0 0 20 20)
             (Vector2.plus (unsnappedPositionProperty (s v)) (Vector2.mk (-5) 0))
           = true) ->
        delta = Vector2.mk (-5) 0).
Proof.
  cbv zeta.
  apply (translateVertexGroup_rigid (fun _ _ => None) (Bounds2.mk 0 0 20 20)).
  repeat constructor; simpl; intuition discriminate.
Defined.

(** Two vertices at (0,0) and (10,0) in the bounds [0,20] x [0,20], asked
    to move by (5, -5): y is cut back, x is not. *)
Lemma translateVertexGroup_slides_along_bounds_witness :
  let s : Store := fun w =>
    match w with
    | O => mkVertex (Vector2.mk 0 0) (Vector2.mk 0 0) false true
    | _ => mkVertex (Vector2.mk 10 0) (Vector2.mk 10 0) false true
    end in
  let s' := translateVertexGroup (fun _ _ => None) (Bounds2.mk 0 0 20 20) s 0
              [0%nat; 1%nat] (Vector2.mk 5 (-5)) None [] in
  Vector2.x (unsnappedPositionProperty (s' 0%nat)) = 0 + 5
  /\ Vector2.x (unsnappedPositionProperty (s' 1%nat)) = 10 + 5.
Proof.
  cbv zeta.
  assert (Hnd : NoDup [0%nat; 1%nat])
    by (repeat constructor; simpl; intuition discriminate).
  destruct (translateVertexGroup_slides_along_bounds (fun _ _ => None)
              (Bounds2.mk 0 0 20 20)
              (fun w =>
                 match w with
                 | O => mkVertex (Vector2.mk 0 0) (Vector2.mk 0 0) false true
                 | _ => mkVertex (Vector2.mk 10 0) (Vector2.mk 10 0) false true
                 end)
              0%nat [0%nat; 1%nat] (Vector2.mk 5 (-5)) [] Hnd) as [Hx _].
  assert (Hrange : forall v, In v [0%nat; 1%nat] ->
            Bounds2.minX (Bounds2.mk 0 0 20 20)
            <= Vector2.x
                 (unsnappedPositionProperty
                    (match v with
                     | O => mkVertex (Vector2.mk 0 0) (Vector2.mk 0 0) false true
                     | _ => mkVertex (Vector2.mk 10 0) (Vector2.mk 10 0) false true
                     end))
               + Vector2.x (Vector2.mk 5 (-5))
            <= Bounds2.maxX (Bounds2.mk 0 0 20 20)).
  { intros v [<- | [<- | []]]; simpl; lra. }
  split.
  - exact (Hx Hrange 0%nat (or_introl eq_refl)).
  - exact (Hx Hrange 1%nat (or_intror (or_introl eq_refl))).
Defined.

End CircuitLayerNodeDragFacts.

(** ** The zoom animation *)

Module ZoomAnimationFacts.
Local Open Scope R_scope.
Import ZoomAnimation.

Lemma zoomAfter_cons (zoom c : R) (calls : list R) :
  zoomAfter zoom (c :: calls) = zoomAfter (zoom + c) calls.
Proof. reflexivity. Qed.

Lemma zoomAfter_shift (zoom c : R) (calls : list R) :
  zoomAfter (zoom + c) calls = zoomAfter zoom calls + c.
Proof.
  revert zoom. induction calls as [| a rest IH]; intros zoom; simpl.
  - reflexivity.
  - unfold zoomAfter in *. simpl.
    replace (zoom + c + a) with (zoom + a + c) by ring. apply IH.
Qed.

Section Easing.

Variable easing : R -> R.

Lemma steps_cons (dt : R) (rest : list R) (this : ZoomAnimation) :
  steps easing (dt :: rest) this
  = (fst (steps easing rest (fst (step easing dt this))),
     match snd (step easing dt this) with
     | Some c => c :: snd (steps easing rest (fst (step easing dt this)))
     | None => snd (steps easing rest (fst (step easing dt this)))
     end).
Proof.
  simpl. destruct (step easing dt this) as [this' call]. simpl.
  destruct (steps easing rest this') as [final calls]. reflexivity.
Qed.

Lemma step_running (dt : R) (this : ZoomAnimation) :
  ratio this < 1 ->
  step easing dt this
  = (mkZoomAnimation
       (if Rlt_dec 1 (ratio this + dt / ZOOM_ANIMATION_TIME) then 1
        else ratio this + dt / ZOOM_ANIMATION_TIME)
       (totalDelta this),
     Some ((easing (if Rlt_dec 1 (ratio this + dt / ZOOM_ANIMATION_TIME) then 1
                    else ratio this + dt / ZOOM_ANIMATION_TIME)
            - easing (ratio this)) * totalDelta this)).
Proof.
  intros H. unfold step. destruct (Rlt_dec (ratio this) 1); [reflexivity | contradiction].
Qed.

Lemma step_finished (dt : R) (this : ZoomAnimation) :
  ~ ratio this < 1 -> step easing dt this = (this, None).
Proof.
  intros H. unfold step. destruct (Rlt_dec (ratio this) 1); [contradiction | reflexivity].
Qed.

Lemma steps_sum (dts : list R) (this : ZoomAnimation) (zoom : R) :
  let final := fst (steps easing dts this) in
  let calls := snd (steps easing dts this) in
  zoomAfter zoom calls
  = zoom + (easing (ratio final) - easing (ratio this)) * totalDelta this
  /\ totalDelta final = totalDelta this.
Proof.
  cbv zeta. revert this zoom.
  induction dts as [| dt rest IH]; intros this zoom.
  - simpl. split; [unfold zoomAfter; simpl; ring | reflexivity].
  - rewrite steps_cons.
    destruct (Rlt_dec (ratio this) 1) as [Hlt | Hge].
    + rewrite (step_running dt this Hlt). simpl fst. simpl snd.
      set (r := if Rlt_dec 1 _ then 1 else _).
      destruct (IH (mkZoomAnimation r (totalDelta this))
                  (zoom + (easing r - easing (ratio this)) * totalDelta this))
        as [Hz Ht].
      simpl in Hz, Ht.
      rewrite zoomAfter_cons, Hz, Ht. split; [ring | reflexivity].
    + rewrite (step_finished dt this Hge). simpl fst. simpl snd. apply IH.
Qed.

(** The calls of the zoomCallback telescope: whatever the elapsed times,
    the zoom changes by the difference of the easing between the last and
    the first ratio, times the total delta; nothing of the total delta
    is changed. *)
Theorem steps_telescope (dts : list R) (this : ZoomAnimation) (zoom : R) :
  let final := fst (steps easing dts this) in
  let calls := snd (steps easing dts this) in
  zoomAfter zoom calls
  = zoom + (easing (ratio final) - easing (ratio this)) * totalDelta this
  /\ totalDelta final = totalDelta this.
Proof. exact (steps_sum dts this zoom). Qed.



End Easing.


End ZoomAnimationFacts.

(** ** Resistor types *)

Module ResistorFacts.
Local Open Scope R_scope.
Import Resistor.

Section Constants.

Variables resistorLength coinLength paperClipLength pencilLength : R.
Variables eraserLength handLength dogLength dollarBillLength : R.

(** For every resistor type the default resistance lies in the type's
    range, so that a new resistor starts with a resistance inside the
    range of its Property; the resistance is editable exactly for the
    types whose range is more than one value; no type is both metallic
    and an insulator, and a metallic type has no resistance. *)
Theorem resistor_types_consistent (resistorType : ResistorType) :
  let value := valueOf resistorLength coinLength paperClipLength pencilLength
                 eraserLength handLength dogLength dollarBillLength resistorType in
  let resistor := new resistorLength coinLength paperClipLength pencilLength
                  eraserLength handLength dogLength dollarBillLength resistorType in
  min (resistanceProperty_range resistor) <= resistanceProperty resistor
    <= max (resistanceProperty_range resistor)
  /\ (isResistanceEditable resistor = true <-> min (range value) < max (range value))
  /\ (isMetallic value && isInsulator value = false)%bool
  /\ (resistor_isMetallic resistor = true -> resistanceProperty resistor = 0)
  /\ (numberOfDecimalPlaces resistor = 1%nat <-> resistorType = RESISTOR).
Proof.
  destruct resistorType; cbv zeta; simpl;
    (split; [lra |]);
    (split; [split; intros H; try reflexivity; try discriminate; lra |]);
    (split; [reflexivity |]);
    (split; [intros H; try reflexivity; discriminate |]);
    split; intros H; try reflexivity; discriminate.
Qed.

End Constants.

End ResistorFacts.

(** ** The path of the charges through a light bulb *)

Module LightBulbPathFacts.
Local Open Scope R_scope.
Import LightBulb.

Lemma distance_dist_euc (a b : Vector2.t) :
  Vector2.distance a b
  = dist_euc (Vector2.x a) (Vector2.y a) (Vector2.x b) (Vector2.y b).
Proof.
  unfold Vector2.distance, Vector2.magnitude, Vector2.magnitudeSquared, Vector2.dot,
    Vector2.minus, dist_euc, Rsqr. simpl. reflexivity.
Qed.

Lemma distance_triangle (a b c : Vector2.t) :
  Vector2.distance a c <= Vector2.distance a b + Vector2.distance b c.
Proof. rewrite !distance_dist_euc. apply triangle. Qed.

Lemma distance_sym (a b : Vector2.t) : Vector2.distance a b = Vector2.distance b a.
Proof. rewrite !distance_dist_euc. apply distance_symm. Qed.

Lemma distance_plus (a b o : Vector2.t) :
  Vector2.distance (Vector2.plus a o) (Vector2.plus b o) = Vector2.distance a b.
Proof.
  unfold Vector2.distance, Vector2.magnitude, Vector2.magnitudeSquared, Vector2.dot,
    Vector2.minus, Vector2.plus. simpl. f_equal. ring.
Qed.

(** The filament path is placed by translation: the point for an origin
    is the point for the origin (0, 0), moved by the origin. *)
Lemma getFilamentPathPoint_origin (this : LightBulb) (index : nat)
  (origin : Vector2.t) (samplePoints : list Vector2.t) :
  getFilamentPathPoint this index origin samplePoints
  = Vector2.plus (getFilamentPathPoint this index Vector2.ZERO samplePoints) origin.
Proof.
  unfold getFilamentPathPoint, Utils.linear, Vector2.plus, Vector2.ZERO. simpl.
  f_equal; unfold Rdiv; ring.
Qed.

Lemma filament_endpoints (this : LightBulb) (origin : Vector2.t) :
  let samplePoints := samplePointsOf this in
  getFilamentPathPoint this 0 origin samplePoints = origin
  /\ getFilamentPathPoint this (length samplePoints - 1) origin samplePoints
     = Vector2.plus origin (vertexDelta this).
Proof.
  cbv zeta. unfold samplePointsOf.
  destruct origin as [ox oy].
  destruct (viewTypeProperty this);
    unfold getFilamentPathPoint, Utils.linear, Vector2.plus; simpl;
    unfold RIGHT_CURVE_X_SCALE; split; f_equal; field; lra.
Qed.

(** The path starts at the origin and ends at the origin moved by the
    vector between the vertices, for both sets of sample points. *)
Theorem getFilamentPathPoint_endpoints (this : LightBulb) (origin : Vector2.t) :
  let samplePoints := samplePointsOf this in
  getFilamentPathPoint this 0 origin samplePoints = origin
  /\ getFilamentPathPoint this (length samplePoints - 1) origin samplePoints
     = Vector2.plus origin (vertexDelta this).
Proof. exact (filament_endpoints this origin). Qed.

Lemma pathLengthFrom_lower (this : LightBulb) (samplePoints : list Vector2.t)
  (indices : list nat) (currentPoint : Vector2.t) (pathLength : R) :
  pathLength
  + Vector2.distance
      (getFilamentPathPoint this (last indices 0%nat) Vector2.ZERO samplePoints)
      (match indices with [] => getFilamentPathPoint this 0 Vector2.ZERO samplePoints
                     | _ => currentPoint end)
  <= pathLengthFrom this samplePoints indices currentPoint pathLength
     + match indices with
       | [] => Vector2.distance
                 (getFilamentPathPoint this 0 Vector2.ZERO samplePoints)
                 (getFilamentPathPoint this 0 Vector2.ZERO samplePoints)
       | _ => 0
       end.
Proof.
  revert currentPoint pathLength.
  induction indices as [| i rest IH]; intros currentPoint pathLength.
  - simpl. lra.
  - destruct rest as [| j rest'].
    + simpl. lra.
    + specialize (IH (getFilamentPathPoint this i Vector2.ZERO samplePoints)
                     (pathLength
                      + Vector2.distance
                          (getFilamentPathPoint this i Vector2.ZERO samplePoints)
                          currentPoint)).
      change (last (i :: j :: rest') 0%nat) with (last (j :: rest') 0%nat).
      change (pathLengthFrom this samplePoints (i :: j :: rest') currentPoint pathLength)
        with (pathLengthFrom this samplePoints (j :: rest')
                (getFilamentPathPoint this i Vector2.ZERO samplePoints)
                (pathLength
                 + Vector2.distance
                     (getFilamentPathPoint this i Vector2.ZERO samplePoints)
                     currentPoint)).
      pose proof (distance_triangle
                    (getFilamentPathPoint this (last (j :: rest') 0%nat)
                       Vector2.ZERO samplePoints)
                    (getFilamentPathPoint this i Vector2.ZERO samplePoints)
                    currentPoint) as Ht.
      lra.
Qed.

Lemma pathLengthFrom_grows (this : LightBulb) (samplePoints : list Vector2.t)
  (indices : list nat) (currentPoint : Vector2.t) (pathLength : R) :
  pathLength <= pathLengthFrom this samplePoints indices currentPoint pathLength.
Proof.
  revert currentPoint pathLength.
  induction indices as [| i rest IH]; intros currentPoint pathLength; simpl; [lra |].
  eapply Rle_trans; [| apply IH].
  pose proof (UtilsFacts.distance_nonneg
                (getFilamentPathPoint this i Vector2.ZERO samplePoints) currentPoint).
  lra.
Qed.

Lemma magnitude_distance (v : Vector2.t) :
  Vector2.distance (Vector2.plus Vector2.ZERO v) Vector2.ZERO = Vector2.magnitude v.
Proof.
  unfold Vector2.distance, Vector2.magnitude, Vector2.magnitudeSquared, Vector2.dot,
    Vector2.minus, Vector2.plus, Vector2.ZERO. simpl. f_equal. ring.
Qed.

(** The path of the charges through the bulb is at least as long as the
    straight line between the vertices at construction. *)
Theorem getPathLength_at_least_straight (this : LightBulb) :
  Vector2.magnitude (vertexDelta this) <= getPathLength this.
Proof.
  unfold getPathLength.
  pose proof (filament_endpoints this Vector2.ZERO) as [H0 Hlast].
  cbv zeta in H0, Hlast.
  pose proof (pathLengthFrom_lower this (samplePointsOf this)
                (seq 1 (length (samplePointsOf this) - 1))
                (getFilamentPathPoint this 0 Vector2.ZERO (samplePointsOf this)) 0) as H.
  assert (Hl : last (seq 1 (length (samplePointsOf this) - 1)) 0%nat
               = (length (samplePointsOf this) - 1)%nat).
  { unfold samplePointsOf. destruct (viewTypeProperty this); reflexivity. }
  rewrite Hl, Hlast, H0 in H.
  assert (Hne : seq 1 (length (samplePointsOf this) - 1) <> []).
  { unfold samplePointsOf. destruct (viewTypeProperty this); discriminate. }
  rewrite H0.
  destruct (seq 1 (length (samplePointsOf this) - 1)) as [| i rest];
    [contradiction Hne; reflexivity |].
  rewrite magnitude_distance in H. lra.
Qed.

Lemma pathLengthFrom_ext (a b : LightBulb) (samplePoints : list Vector2.t)
  (indices : list nat) (currentPoint : Vector2.t) (pathLength : R) :
  vertexDelta a = vertexDelta b ->
  pathLengthFrom a samplePoints indices currentPoint pathLength
  = pathLengthFrom b samplePoints indices currentPoint pathLength.
Proof.
  intros Hd. revert currentPoint pathLength.
  induction indices as [| i rest IH]; intros currentPoint pathLength; simpl;
    [reflexivity |].
  unfold getFilamentPathPoint. rewrite Hd. apply IH.
Qed.

(** The path length depends on the vector between the vertices at
    construction and on the view type only. *)
Lemma getPathLength_ext (a b : LightBulb) :
  vertexDelta a = vertexDelta b ->
  viewTypeProperty a = viewTypeProperty b ->
  getPathLength a = getPathLength b.
Proof.
  intros Hd Hv. unfold getPathLength, samplePointsOf. rewrite Hv.
  rewrite (pathLengthFrom_ext a b _ _ _ _ Hd).
  unfold getFilamentPathPoint. rewrite Hd. reflexivity.
Qed.

Section Angles.

Variable atan2 : R -> R -> R.
Variable super_updateMatrixForPoint : R -> Matrix3.t -> Matrix3.t.

Lemma accumulatedDistanceFrom_grows (this : LightBulb)
  (samplePoints : list Vector2.t) (indices : list nat) (currentPoint : Vector2.t)
  (accumulatedDistance : R) :
  accumulatedDistance
  <= accumulatedDistanceFrom this samplePoints indices currentPoint accumulatedDistance.
Proof.
  revert currentPoint accumulatedDistance.
  induction indices as [| i rest IH]; intros currentPoint accumulatedDistance; simpl;
    [lra |].
  eapply Rle_trans; [| apply IH].
  pose proof (UtilsFacts.distance_nonneg
                (getFilamentPathPoint this i (startPositionProperty this) samplePoints)
                currentPoint).
  lra.
Qed.

(** The loop runs off its end exactly when the distance along the wire
    is greater than every accumulated distance, the last of which is the
    greatest. *)
Lemma updateMatrixFrom_none (this : LightBulb) (samplePoints : list Vector2.t)
  (distanceAlongWire : R) (matrix : Matrix3.t) (indices : list nat)
  (currentPoint : Vector2.t) (previous accumulated : R) :
  indices <> [] ->
  (updateMatrixFrom atan2 this samplePoints distanceAlongWire matrix indices
     currentPoint previous accumulated
   = None
   <-> accumulatedDistanceFrom this samplePoints indices currentPoint accumulated
       < distanceAlongWire).
Proof.
  revert currentPoint previous accumulated.
  induction indices as [| i rest IH]; intros currentPoint previous accumulated Hne;
    [contradiction Hne; reflexivity |].
  simpl.
  set (next := getFilamentPathPoint this i (startPositionProperty this) samplePoints).
  set (acc := accumulated + Vector2.distance next currentPoint).
  pose proof (accumulatedDistanceFrom_grows this samplePoints rest next acc) as Hg.
  destruct (Rle_dec distanceAlongWire acc) as [Hle | Hgt].
  - split; [discriminate | intros H; lra].
  - destruct rest as [| j rest'].
    + simpl. split; [intros _; lra | reflexivity].
    + apply IH. discriminate.
Qed.

(** updateMatrixForPoint throws 'exceeded charge path bounds' exactly
    when the distance along the wire is greater than the length of the
    filament path as its own loop adds it up, segment after segment, from
    the bulb's start position; so it never throws for a distance that is
    zero or negative. *)
Theorem updateMatrixForPoint_throws_beyond_path (this : LightBulb)
  (distanceAlongWire : R) (matrix : Matrix3.t) :
  (updateMatrixForPoint atan2 super_updateMatrixForPoint this distanceAlongWire matrix
   = None
   <-> accumulatedPathLength this < distanceAlongWire)
  /\ (distanceAlongWire <= 0 ->
      updateMatrixForPoint atan2 super_updateMatrixForPoint this distanceAlongWire
        matrix
      <> None).
Proof.
  assert (Hmain : updateMatrixForPoint atan2 super_updateMatrixForPoint this
                    distanceAlongWire matrix = None
                  <-> accumulatedPathLength this < distanceAlongWire).
  { unfold updateMatrixForPoint, accumulatedPathLength.
    apply updateMatrixFrom_none.
    unfold samplePointsOf. destruct (viewTypeProperty this); discriminate. }
  split; [exact Hmain |].
  intros Hle Hnone. apply Hmain in Hnone.
  pose proof (accumulatedDistanceFrom_grows this (samplePointsOf this)
                (seq 1 (length (samplePointsOf this) - 1))
                (getFilamentPathPoint this 0 (startPositionProperty this)
                   (samplePointsOf this)) 0) as Hg.
  unfold accumulatedPathLength in Hnone. lra.
Qed.

End Angles.

Lemma distance_createPolar (p : Vector2.t) (magnitude angle : R) :
  0 <= magnitude ->
  Vector2.distance p (Vector2.plus p (Vector2.createPolar magnitude angle)) = magnitude.
Proof.
  intros Hm.
  unfold Vector2.distance, Vector2.magnitude, Vector2.magnitudeSquared, Vector2.dot,
    Vector2.minus, Vector2.plus, Vector2.createPolar. simpl.
  replace ((Vector2.x p - (Vector2.x p + magnitude * cos angle))
           * (Vector2.x p - (Vector2.x p + magnitude * cos angle))
           + (Vector2.y p - (Vector2.y p + magnitude * sin angle))
             * (Vector2.y p - (Vector2.y p + magnitude * sin angle)))
    with (magnitude * magnitude * (Rsqr (sin angle) + Rsqr (cos angle)))
    by (unfold Rsqr; ring).
  rewrite sin2_cos2, Rmult_1_r. apply sqrt_square. exact Hm.
Qed.

(** createVertexPair puts the two vertices as far apart as a light bulb
    is long: the start vertex at ( x - 18 + 19, y + 10 ) and the end
    vertex at 45 degrees from it, as much further in x as it is less
    in y. *)
Theorem createVertexPair_distance (position : Vector2.t) :
  let startPoint := fst (createVertexPair position) in
  let endPoint := snd (createVertexPair position) in
  Vector2.distance startPoint endPoint = DISTANCE_BETWEEN_VERTICES
  /\ startPoint = Vector2.mk (Vector2.x position - 36 / 2 + 19) (Vector2.y position + 10)
  /\ Vector2.x endPoint - Vector2.x startPoint
     = - (Vector2.y endPoint - Vector2.y startPoint)
  /\ 0 < Vector2.x endPoint - Vector2.x startPoint.
Proof.
  cbv zeta. unfold createVertexPair, DISTANCE_BETWEEN_VERTICES. simpl fst. simpl snd.
  split; [apply distance_createPolar; lra |].
  unfold Vector2.plus, Vector2.createPolar. simpl.
  replace (- PI / 4) with (- (PI / 4)) by field.
  rewrite cos_neg, sin_neg, cos_PI4, sin_PI4.
  assert (Hs : 0 < sqrt 2) by (apply sqrt_lt_R0; lra).
  assert (Hinv : 0 < 1 / sqrt 2) by (apply Rdiv_lt_0_compat; lra).
  split; [reflexivity | split; [ring | nra]].
Qed.

End LightBulbPathFacts.

(** ** Scene graph membership *)

Module CCKCUtilsFacts.
Import CCKCUtils.

Lemma hasChild_In (parent : list nat) (child : nat) :
  hasChild parent child = true <-> In child parent.
Proof.
  unfold hasChild. rewrite existsb_exists. split.
  - intros (c & Hin & He). apply Nat.eqb_eq in He. subst c. exact Hin.
  - intros Hin. exists child. split; [exact Hin | apply Nat.eqb_refl].
Qed.

Lemma removeChild_In (parent : list nat) (child other : nat) :
  NoDup parent ->
  (In other (removeChild parent child) <-> In other parent /\ other <> child).
Proof.
  induction parent as [| c rest IH]; intros Hnd; simpl; [tauto |].
  inversion Hnd as [| c' rest' Hnotin Hnd']; subst.
  destruct (Nat.eqb c child) eqn:He.
  - apply Nat.eqb_eq in He. subst c. split.
    + intros Hin. split; [right; exact Hin |].
      intros Heq. subst other. contradiction.
    + intros [[Heq | Hin] Hne]; [congruence | exact Hin].
  - apply Nat.eqb_neq in He. simpl. rewrite (IH Hnd'). split.
    + intros [Heq | [Hin Hne]]; [subst other; split; [left; reflexivity | exact He] |].
      split; [right; exact Hin | exact Hne].
    + intros [[Heq | Hin] Hne]; [left; exact Heq | right; split; assumption].
Qed.

Lemma removeChild_NoDup (parent : list nat) (child : nat) :
  NoDup parent -> NoDup (removeChild parent child).
Proof.
  induction parent as [| c rest IH]; intros Hnd; simpl; [constructor |].
  inversion Hnd as [| c' rest' Hnotin Hnd']; subst.
  destruct (Nat.eqb c child); [exact Hnd' |].
  constructor; [| exact (IH Hnd')].
  intros Hin. apply (removeChild_In rest child c Hnd') in Hin. tauto.
Qed.

Lemma setInSceneGraph_settled (inSceneGraph : bool) (parent : list nat) (child : nat) :
  hasChild parent child = inSceneGraph ->
  setInSceneGraph inSceneGraph parent child = parent.
Proof.
  intros H. unfold setInSceneGraph. rewrite H. destruct inSceneGraph; reflexivity.
Qed.

(** setInSceneGraph makes the child a child of the parent exactly when
    the flag says so, keeps the children without repetition, leaves every
    other child where it is, and calling it again changes nothing. *)
Theorem setInSceneGraph_sets_membership (inSceneGraph : bool) (parent : list nat)
  (child : nat) :
  NoDup parent ->
  let after := setInSceneGraph inSceneGraph parent child in
  hasChild after child = inSceneGraph
  /\ NoDup after
  /\ (forall other, other <> child -> (In other after <-> In other parent))
  /\ setInSceneGraph inSceneGraph after child = after.
Proof.
  intros Hnd. cbv zeta.
  destruct inSceneGraph; destruct (hasChild parent child) eqn:Hhas.
  - (* already a child *)
    rewrite (setInSceneGraph_settled true parent child Hhas).
    split; [exact Hhas |]. split; [exact Hnd |]. split; [tauto |].
    apply setInSceneGraph_settled. exact Hhas.
  - (* added *)
    assert (Heq : setInSceneGraph true parent child = addChild parent child).
    { unfold setInSceneGraph. rewrite Hhas. reflexivity. }
    rewrite Heq.
    assert (Hnot : ~ In child parent).
    { intros Hin. apply hasChild_In in Hin. congruence. }
    assert (Hafter : hasChild (addChild parent child) child = true).
    { apply hasChild_In. unfold addChild. apply in_or_app. right. left. reflexivity. }
    split; [exact Hafter |]. split; [| split].
    + unfold addChild. apply NoDup_app; [exact Hnd | repeat constructor; simpl; tauto |].
      intros a Ha [Heq' | []]. subst a. contradiction.
    + intros other Hne. unfold addChild. rewrite in_app_iff. simpl. split.
      * intros [H | [H | []]]; [exact H | congruence].
      * intros H. left. exact H.
    + apply setInSceneGraph_settled. exact Hafter.
  - (* removed *)
    assert (Heq : setInSceneGraph false parent child = removeChild parent child).
    { unfold setInSceneGraph. rewrite Hhas. reflexivity. }
    rewrite Heq.
    assert (Hafter : hasChild (removeChild parent child) child = false).
    { destruct (hasChild (removeChild parent child) child) eqn:H; [| reflexivity].
      apply hasChild_In in H. apply (removeChild_In parent child child Hnd) in H. tauto. }
    split; [exact Hafter |]. split; [apply removeChild_NoDup; exact Hnd |]. split.
    + intros other Hne. rewrite (removeChild_In parent child other Hnd). tauto.
    + apply setInSceneGraph_settled. exact Hafter.
  - (* already not a child *)
    rewrite (setInSceneGraph_settled false parent child Hhas).
    split; [exact Hhas |]. split; [exact Hnd |]. split; [tauto |].
    apply setInSceneGraph_settled. exact Hhas.
Qed.

Lemma setInSceneGraph_sets_membership_witness :
  hasChild (setInSceneGraph false [1; 2; 3]%nat 2%nat) 2%nat = false
  /\ NoDup (setInSceneGraph false [1; 2; 3]%nat 2%nat).
Proof.
  destruct (setInSceneGraph_sets_membership false [1; 2; 3]%nat 2%nat)
    as (H1 & H2 & _).
  - repeat constructor; simpl; intuition discriminate.
  - split; [exact H1 | exact H2].
Defined.

End CCKCUtilsFacts.
